(** * Conway's game of life (conway.py): model and verification

    The Python program keeps every grid as a list of row lists of one-character
    strings.  Lists are mutable objects that are passed around by reference
    (the history deque, the generator and its consumer all hold the same list
    objects), so the model keeps an explicit object store: rows and grids live
    in a heap and are named by references.  [copy], [deepcopy], indexing and
    item assignment act on that store the way the interpreter does, exceptions
    included. *)

From Stdlib Require Import ZArith List Bool Lia Ascii String.
From stdpp Require Import base tactics option list strings gmap.

Open Scope string_scope.
Open Scope list_scope.
Open Scope Z_scope.

(** ** Module constants *)

(** A cell is a Python [str]; the program only ever writes ["*"] and ["-"]. *)
Definition cell := string.

Definition ALIVE : cell := "*".
Definition DEAD : cell := "-".
Definition GRID_SIZE : nat := 20.
Definition ITERATION_HISTORY_SIZE : nat := 15.
Definition MAX_ITERATIONS : Z := 2000.
Definition MAX_COPIES_IN_HISTORY : nat := 4.

(** [Point = namedtuple('Point', ['x', 'y'])]: x is the column, y the row. *)
Record Point := mkPoint { pt_x : Z; pt_y : Z }.

Global Instance Point_eq_dec : EqDecision Point.
Proof. solve_decision. Defined.

(** ** Exceptions and results *)

Inductive exn :=
| IndexError   (* list index out of range *)
| ValueError   (* max() of an empty sequence *)
| BadRef.      (* a reference to an object that was never allocated;
                  cannot happen in Python, kept so that every heap
                  operation is total *)

Inductive result (A : Type) :=
| Ok (a : A)
| Raise (e : exn).
Arguments Ok {A} a.
Arguments Raise {A} e.

Global Instance exn_eq_dec : EqDecision exn.
Proof. solve_decision. Defined.

(** ** Python list indexing *)

(** [l[i]] with Python's rule for negative indices: a negative [i] counts
    from the end, anything still outside [0, len l) is an IndexError. *)
Definition py_index {A} (l : list A) (i : Z) : option nat :=
  let n := Z.of_nat (length l) in
  let j := if i <? 0 then i + n else i in
  if (0 <=? j) && (j <? n) then Some (Z.to_nat j) else None.

Definition getitem {A} (l : list A) (i : Z) : result A :=
  match py_index l i with
  | Some j => match l !! j with Some a => Ok a | None => Raise IndexError end
  | None => Raise IndexError
  end.

Definition setitem {A} (l : list A) (i : Z) (v : A) : result (list A) :=
  match py_index l i with
  | Some j => Ok (<[j:=v]> l)
  | None => Raise IndexError
  end.

(** [range(n)] as the integers it produces. *)
Definition range (n : nat) : list Z := map Z.of_nat (seq 0 n).

(** ** The object store *)

Abbreviation row_ref := nat (only parsing).
Abbreviation grid_ref := nat (only parsing).

(** Row objects hold cells, grid objects hold references to row objects.
    A reference is the index of the object in its store; allocation appends. *)
Record heap := Heap {
  row_objs : list (list cell);
  grid_objs : list (list row_ref)
}.

Definition empty_heap : heap := Heap [] [].

(** Computations that read and write the store and may raise. The store is
    returned also when an exception is raised. *)
Definition M (A : Type) : Type := heap -> result A * heap.

Definition ret {A} (a : A) : M A := fun h => (Ok a, h).
Definition raise {A} (e : exn) : M A := fun h => (Raise e, h).
Definition bind {A B} (m : M A) (f : A -> M B) : M B :=
  fun h => match m h with
           | (Ok a, h') => f a h'
           | (Raise e, h') => (Raise e, h')
           end.
Definition lift {A} (r : result A) : M A := fun h => (r, h).

Notation "'let!' x ':=' m 'in' k" := (bind m (fun x => k))
  (at level 10, x name, m at level 100, k at level 200).
Notation "m ';;' k" := (bind m (fun _ => k))
  (at level 100, k at level 200, right associativity).

(** [for a in l: body a] *)
Fixpoint for_each {A} (l : list A) (body : A -> M unit) : M unit :=
  match l with
  | [] => ret tt
  | a :: l' => body a ;; for_each l' body
  end.

(** A for loop that updates one local variable. *)
Fixpoint for_fold {A S} (l : list A) (body : S -> A -> M S) (s : S) : M S :=
  match l with
  | [] => ret s
  | a :: l' => let! s' := body s a in for_fold l' body s'
  end.

Definition load_row (r : row_ref) : M (list cell) :=
  fun h => match row_objs h !! r with
           | Some cs => (Ok cs, h)
           | None => (Raise BadRef, h)
           end.

Definition load_grid (g : grid_ref) : M (list row_ref) :=
  fun h => match grid_objs h !! g with
           | Some rs => (Ok rs, h)
           | None => (Raise BadRef, h)
           end.

Definition store_row (r : row_ref) (cs : list cell) : M unit :=
  fun h => match row_objs h !! r with
           | Some _ => (Ok tt, Heap (<[r:=cs]> (row_objs h)) (grid_objs h))
           | None => (Raise BadRef, h)
           end.

Definition new_row (cs : list cell) : M row_ref :=
  fun h => (Ok (length (row_objs h)), Heap (row_objs h ++ [cs]) (grid_objs h)).

Definition new_grid (rs : list row_ref) : M grid_ref :=
  fun h => (Ok (length (grid_objs h)), Heap (row_objs h) (grid_objs h ++ [rs])).

(** [copy(grid)]: a new outer list that shares the row objects. *)
Definition copy (grid : grid_ref) : M grid_ref :=
  let! rs := load_grid grid in
  new_grid rs.

(** [deepcopy(grid)]: a new outer list with a copy of every row object. The
    memo dictionary maps an already copied row object to its copy, so that a
    row object that occurs twice in the grid is copied once. Cells are strings
    and are shared by the copy. *)
Fixpoint deepcopy_rows (memo : gmap row_ref row_ref) (rs : list row_ref)
  : M (list row_ref) :=
  match rs with
  | [] => ret []
  | r :: rs' =>
      match memo !! r with
      | Some r' =>
          let! rs'' := deepcopy_rows memo rs' in
          ret (r' :: rs'')
      | None =>
          let! cs := load_row r in
          let! r' := new_row cs in
          let! rs'' := deepcopy_rows (<[r:=r']> memo) rs' in
          ret (r' :: rs'')
      end
  end.

Definition deepcopy (grid : grid_ref) : M grid_ref :=
  let! rs := load_grid grid in
  let! rs' := deepcopy_rows ∅ rs in
  new_grid rs'.

(** [grid[y][x]] *)
Definition getitem2 (grid : grid_ref) (y x : Z) : M cell :=
  let! rs := load_grid grid in
  let! r := lift (getitem rs y) in
  let! cs := load_row r in
  lift (getitem cs x).

(** [grid[y][x] = v] *)
Definition setitem2 (grid : grid_ref) (y x : Z) (v : cell) : M unit :=
  let! rs := load_grid grid in
  let! r := lift (getitem rs y) in
  let! cs := load_row r in
  let! cs' := lift (setitem cs x v) in
  store_row r cs'.

(** The value a grid reference denotes: the rows, each with its cells.  This
    is what Python's [==] on two grids compares. *)
Definition deref (h : heap) (g : grid_ref) : option (list (list cell)) :=
  match grid_objs h !! g with
  | Some rs => mapM (fun r => row_objs h !! r) rs
  | None => None
  end.

(** ** Grid and game objects *)

(** [Grid]: [_cells] is the list-of-lists object, [_cols] and [_rows] are
    computed once by [__init__]. *)
Record Grid := mkGrid {
  _cells : grid_ref;
  _cols : nat;
  _rows : nat
}.

(** [ConwaysGameOfLife]; the history is a [deque(maxlen=ITERATION_HISTORY_SIZE)]
    of references to grid objects. *)
Record ConwaysGameOfLife := mkGame {
  _grid : Grid;
  _iteration_history : list grid_ref;
  _total_iterations : Z;
  _repeated_pattern_halted_the_game : bool
}.

(** [ConwaysGameOfLife.__init__] *)
Definition ConwaysGameOfLife_init (cells : Grid) : ConwaysGameOfLife :=
  {| _grid := cells;
     _iteration_history := [];
     _total_iterations := 0;
     _repeated_pattern_halted_the_game := false |}.

(** ** valid_loc, count_neighbours, get_next_iteration *)

(** A chained comparison [0 <= a < b] evaluates [b] only when [0 <= a]. *)
Definition valid_loc (grid : grid_ref) (location : Point) : M bool :=
  let! x_ok :=
    (if 0 <=? pt_x location then
       let! rs := load_grid grid in
       let! r0 := lift (getitem rs 0) in
       let! row0 := load_row r0 in
       ret (pt_x location <? Z.of_nat (length row0))
     else ret false) in
  if negb x_ok then ret false
  else
    let! y_ok :=
      (if 0 <=? pt_y location then
         let! rs := load_grid grid in
         ret (pt_y location <? Z.of_nat (length rs))
       else ret false) in
    if negb y_ok then ret false
    else ret true.

(** top, right, bottom, left, top-left, top-right, bottom-right, bottom-left *)
Definition neighbours (here : Point) : list Point :=
  [ mkPoint (pt_x here) (pt_y here - 1);
    mkPoint (pt_x here + 1) (pt_y here);
    mkPoint (pt_x here) (pt_y here + 1);
    mkPoint (pt_x here - 1) (pt_y here);
    mkPoint (pt_x here - 1) (pt_y here - 1);
    mkPoint (pt_x here + 1) (pt_y here - 1);
    mkPoint (pt_x here + 1) (pt_y here + 1);
    mkPoint (pt_x here - 1) (pt_y here + 1) ].

Definition count_neighbours (grid : grid_ref) (location : Point) : M Z :=
  let! grid := copy grid in
  let here := location in
  for_fold (neighbours here)
    (fun alive_neighbours neighbour =>
       let! v := valid_loc grid neighbour in
       if v then
         let! c := getitem2 grid (pt_y neighbour) (pt_x neighbour) in
         if String.eqb c ALIVE then ret (alive_neighbours + 1)
         else ret alive_neighbours
       else ret alive_neighbours)
    0.

Definition get_next_iteration (self : ConwaysGameOfLife) (grid : grid_ref)
  : M grid_ref :=
  let! prev_iter := copy grid in
  let! next_iter := deepcopy prev_iter in
  for_each (range (_rows (_grid self))) (fun y =>
    for_each (range (_cols (_grid self))) (fun x =>
      let! living_neighbours := count_neighbours prev_iter (mkPoint x y) in
      let! c := getitem2 prev_iter y x in
      if String.eqb c ALIVE && ((living_neighbours =? 2) || (living_neighbours =? 3))
      then setitem2 next_iter y x ALIVE
      else
        let! c := getitem2 prev_iter y x in
        if String.eqb c DEAD && (living_neighbours =? 3)
        then setitem2 next_iter y x ALIVE
        else setitem2 next_iter y x DEAD)) ;;
  ret next_iter.

(** ** Grid construction *)

(** [str.replace(' ', '')] *)
Fixpoint remove_spaces (s : string) : string :=
  match s with
  | EmptyString => EmptyString
  | String c s' =>
      if Ascii.eqb c " "%char then remove_spaces s' else String c (remove_spaces s')
  end.

(** The line boundaries of [str.splitlines] among the code points below 256:
    LF, CR, VT, FF, FS, GS, RS and NEL. *)
Definition is_line_boundary (c : ascii) : bool :=
  existsb (N.eqb (Ascii.N_of_ascii c)) [10; 13; 11; 12; 28; 29; 30; 133]%N.

(** [str.splitlines()]: CR LF is one boundary, and a boundary at the very end
    does not open a last empty line. *)
Fixpoint splitlines (s : string) : list string :=
  match s with
  | EmptyString => []
  | String c s' =>
      if is_line_boundary c then
        match s' with
        | String c' s'' =>
            if N.eqb (Ascii.N_of_ascii c) 13 && N.eqb (Ascii.N_of_ascii c') 10
            then EmptyString :: splitlines s''
            else EmptyString :: splitlines s'
        | EmptyString => [EmptyString]
        end
      else
        match splitlines s' with
        | [] => [String c EmptyString]
        | l :: ls => String c l :: ls
        end
  end.

(** [list(line)]: the one-character strings of a line. *)
Fixpoint list_of_str (line : string) : list cell :=
  match line with
  | EmptyString => []
  | String c s' => String c EmptyString :: list_of_str s'
  end.

(** Allocate one row object per element. *)
Fixpoint new_rows (css : list (list cell)) : M (list row_ref) :=
  match css with
  | [] => ret []
  | cs :: css' =>
      let! r := new_row cs in
      let! rs := new_rows css' in
      ret (r :: rs)
  end.

(** [list(filter(lambda x: not x == [], raw_cells))] on row objects. *)
Fixpoint filter_nonempty (rs : list row_ref) : M (list row_ref) :=
  match rs with
  | [] => ret []
  | r :: rs' =>
      let! cs := load_row r in
      let! keep := filter_nonempty rs' in
      if negb (bool_decide (cs = [])) then ret (r :: keep) else ret keep
  end.

(** [max(cells, key=len)]: the first row of greatest length. *)
Definition max_key_len (cells : grid_ref) : M row_ref :=
  let! rs := load_grid cells in
  match rs with
  | [] => raise ValueError
  | r0 :: rs' =>
      let! cs0 := load_row r0 in
      let! best :=
        for_fold rs'
          (fun (best : row_ref * nat) r =>
             let! cs := load_row r in
             if (snd best <? length cs)%nat then ret (r, length cs) else ret best)
          (r0, length cs0) in
      ret (fst best)
  end.

Definition pad_cells (cells : grid_ref) : M grid_ref :=
  let! cells := copy cells in
  let! longest := max_key_len cells in
  let! longest_cs := load_row longest in
  let longest_row := length longest_cs in
  let! rs := load_grid cells in
  for_each rs (fun row =>
    let! cs := load_row row in
    if negb (length cs =? longest_row)%nat
    then store_row row (cs ++ replicate (longest_row - length cs)%nat DEAD)
    else ret tt) ;;
  ret cells.

Section Random.

(** The outcome of the n-th draw of [random.choices(['-', '*'])]:
    [true] for ['*']. *)
Variable rnd : nat -> bool.

Definition random_row (i : nat) : list cell :=
  map (fun j => if rnd (i * GRID_SIZE + j)%nat then ALIVE else DEAD)
      (seq 0 GRID_SIZE).

Definition random_arrangement : M grid_ref :=
  let! rs := new_rows (map random_row (seq 0 GRID_SIZE)) in
  new_grid rs.

(** [cell_pattern] is [None] or a string; the empty string is falsy. *)
Definition cells_to_grid (cell_pattern : option string) : M grid_ref :=
  match cell_pattern with
  | Some (String c s) =>
      let cell_pattern := remove_spaces (String c s) in
      let! raw_rows := new_rows (map list_of_str (splitlines cell_pattern)) in
      let! raw_cells := new_grid raw_rows in
      let! raw_rows := load_grid raw_cells in
      let! compact_rows := filter_nonempty raw_rows in
      let! compact_cells := new_grid compact_rows in
      pad_cells compact_cells
  | _ => random_arrangement
  end.

(** [Grid.__init__] *)
Definition Grid_init (cell_pattern : option string) : M Grid :=
  let! cells := cells_to_grid cell_pattern in
  let! rs := load_grid cells in
  let! r0 := lift (getitem rs 0) in
  let! row0 := load_row r0 in
  ret {| _cells := cells; _cols := length row0; _rows := length rs |}.

End Random.

(** ** The history deque *)

(** [deque.append] on a deque with [maxlen]: append on the right, then drop
    the leftmost element when the length exceeds [maxlen]. *)
Definition deque_append {A} (maxlen : nat) (d : list A) (x : A) : list A :=
  let d' := d ++ [x] in
  if (maxlen <? length d')%nat then tail d' else d'.

(** [a == b] on two grids: equal lengths and equal rows, cell by cell. *)
Definition grid_eq (a b : grid_ref) : M bool :=
  fun h => match deref h a, deref h b with
           | Some va, Some vb => (Ok (bool_decide (va = vb)), h)
           | _, _ => (Raise BadRef, h)
           end.

(** [deque.count(x)] *)
Definition deque_count (d : list grid_ref) (x : grid_ref) : M nat :=
  for_fold d
    (fun n item =>
       let! e := grid_eq item x in
       if e then ret (S n) else ret n)
    0%nat.

(** ** run_conways_game as a generator *)

(** Where the generator is suspended, with the locals it needs to go on. *)
Inductive frame :=
| NotStarted (iterations : Z)
| AtFirstYield (current_gen : grid_ref) (remaining : nat)
| AtLoopYield (next_iteration : grid_ref) (remaining : nat)
| Finished.

(** What one [next()] on the generator gives back. *)
Inductive signal :=
| Yield (g : grid_ref)
| StopIteration
| Raised (e : exn).

Record generator := mkGen {
  self : ConwaysGameOfLife;
  at_ : frame
}.

Definition set_history (s : ConwaysGameOfLife) (d : list grid_ref) :=
  {| _grid := _grid s;
     _iteration_history := d;
     _total_iterations := _total_iterations s;
     _repeated_pattern_halted_the_game := _repeated_pattern_halted_the_game s |}.

Definition set_total (s : ConwaysGameOfLife) (n : Z) :=
  {| _grid := _grid s;
     _iteration_history := _iteration_history s;
     _total_iterations := n;
     _repeated_pattern_halted_the_game := _repeated_pattern_halted_the_game s |}.

Definition set_halted (s : ConwaysGameOfLife) (b : bool) :=
  {| _grid := _grid s;
     _iteration_history := _iteration_history s;
     _total_iterations := _total_iterations s;
     _repeated_pattern_halted_the_game := b |}.

(** The body of the for loop from its head, with [remaining] passes of
    [range(iterations)] left, up to the next [yield], [break] or the end. *)
Definition loop_head (s : ConwaysGameOfLife) (current_gen : grid_ref)
    (remaining : nat) (h : heap) : signal * generator * heap :=
  match remaining with
  | O => (StopIteration, mkGen s Finished, h)
  | S remaining' =>
      match get_next_iteration s current_gen h with
      | (Raise e, h') => (Raised e, mkGen s Finished, h')
      | (Ok next_iteration, h') =>
          match deque_count (_iteration_history s) next_iteration h' with
          | (Raise e, h'') => (Raised e, mkGen s Finished, h'')
          | (Ok n, h'') =>
              if (n =? MAX_COPIES_IN_HISTORY)%nat then
                (StopIteration, mkGen (set_halted s true) Finished, h'')
              else
                (Yield next_iteration,
                 mkGen (set_total s (_total_iterations s + 1))
                       (AtLoopYield next_iteration remaining'),
                 h'')
          end
      end
  end.

(** One [next()]: run from the point of suspension to the next one. *)
Definition resume (g : generator) (h : heap) : signal * generator * heap :=
  match at_ g with
  | NotStarted iterations =>
      let current_gen := _cells (_grid (self g)) in
      let s := set_history (self g)
                 (deque_append ITERATION_HISTORY_SIZE
                    (_iteration_history (self g)) current_gen) in
      (Yield current_gen, mkGen s (AtFirstYield current_gen (Z.to_nat iterations)), h)
  | AtFirstYield current_gen remaining =>
      loop_head (self g) current_gen remaining h
  | AtLoopYield next_iteration remaining =>
      let s := set_history (self g)
                 (deque_append ITERATION_HISTORY_SIZE
                    (_iteration_history (self g)) next_iteration) in
      loop_head s next_iteration remaining h
  | Finished => (StopIteration, g, h)
  end.

(** Calling the generator function runs no code of its body. *)
Definition run_conways_game (s : ConwaysGameOfLife) (iterations : Z) : generator :=
  mkGen s (NotStarted iterations).

(** The generator and the store after [k] calls of [next()]. *)
Fixpoint after (k : nat) (g : generator) (h : heap) : generator * heap :=
  match k with
  | O => (g, h)
  | S k' => let '(_, g', h') := resume g h in after k' g' h'
  end.

(** A consumer that pulls until the generator stops, at most [fuel] times:
    the grids it received, how the generator ended (if it did) and the final
    generator and store. *)
Fixpoint consume (fuel : nat) (g : generator) (h : heap)
  : list grid_ref * option signal * generator * heap :=
  match fuel with
  | O => ([], None, g, h)
  | S fuel' =>
      match resume g h with
      | (Yield x, g', h') =>
          let '(xs, fin, g'', h'') := consume fuel' g' h' in
          (x :: xs, fin, g'', h'')
      | (sig, g', h') => ([], Some sig, g', h')
      end
  end.

(** ** Notions used to state the properties *)

(** The cell at a position, if the position lies inside the grid.  Negative
    coordinates are outside: there is no wrap-around here. *)
Definition cell_at (G : list (list cell)) (p : Point) : option cell :=
  if (0 <=? pt_x p) && (0 <=? pt_y p) then
    match G !! Z.to_nat (pt_y p) with
    | Some row => row !! Z.to_nat (pt_x p)
    | None => None
    end
  else None.

(** [q] is one of the eight positions around [p]. *)
Definition moore_adjacent (p q : Point) : Prop :=
  q ≠ p ∧ Z.abs (pt_x q - pt_x p) ≤ 1 ∧ Z.abs (pt_y q - pt_y p) ≤ 1.

(** [n] is the number of positions around [p] that lie inside [G] and hold
    [ALIVE]: the size of a duplicate-free enumeration of exactly those. *)
Definition living_neighbours (G : list (list cell)) (p : Point) (n : Z) : Prop :=
  ∃ L : list Point,
    NoDup L ∧
    (∀ q, q ∈ L ↔ moore_adjacent p q ∧ cell_at G q = Some ALIVE) ∧
    n = Z.of_nat (length L).

(** All rows have the same length. *)
Definition rectangular (G : list (list cell)) (rows cols : nat) : Prop :=
  length G = rows ∧ Forall (λ row, length row = cols) G.

(** The grid object [g] has the row objects [rs], which hold the rows [G]. *)
Definition grid_at (h : heap) (g : grid_ref) (rs : list row_ref)
    (G : list (list cell)) : Prop :=
  grid_objs h !! g = Some rs ∧ Forall2 (λ r cs, row_objs h !! r = Some cs) rs G.

(** A grid as the program builds them: [rows] distinct row objects of [cols]
    cells each. *)
Definition proper (h : heap) (g : grid_ref) (rows cols : nat) : Prop :=
  ∃ rs G, grid_at h g rs G ∧ NoDup rs ∧ rectangular G rows cols.

(** Every object of [h] is still there in [h'], with the same content. *)
Definition preserved (h h' : heap) : Prop :=
  (∀ r cs, row_objs h !! r = Some cs → row_objs h' !! r = Some cs) ∧
  (∀ g rs, grid_objs h !! g = Some rs → grid_objs h' !! g = Some rs).

(** [q] lies inside a grid of [rows] by [cols] cells. *)
Definition inside (rows cols : nat) (q : Point) : bool :=
  (0 <=? pt_x q) && (pt_x q <? Z.of_nat cols) &&
  (0 <=? pt_y q) && (pt_y q <? Z.of_nat rows).

(** The rule table of the game: the next state of a cell that holds [c] and
    has [n] living neighbours. *)
Definition next_cell (c : cell) (n : Z) : cell :=
  if String.eqb c ALIVE && ((n =? 2) || (n =? 3)) then ALIVE
  else if String.eqb c DEAD && (n =? 3) then ALIVE
  else DEAD.

(** The cells around [p] that are inside [G] and alive, in the order in which
    [count_neighbours] visits them. *)
Definition alive_around (G : list (list cell)) (p : Point) : list Point :=
  filter (λ q, cell_at G q = Some ALIVE) (neighbours p).

(** What [get_next_iteration] writes at row [y], column [x], as a function of
    the grid it was given. *)
Definition new_value (G : list (list cell)) (y x : nat) : cell :=
  let p := mkPoint (Z.of_nat x) (Z.of_nat y) in
  match cell_at G p with
  | Some c => next_cell c (Z.of_nat (length (alive_around G p)))
  | None => DEAD
  end.

(** The writes of the inner loop on one row, and of both loops on the rows
    of the copy. *)
Definition write_row (G : list (list cell)) (cols y : nat) (row : list cell)
  : list cell :=
  foldl (λ row x, <[x := new_value G y x]> row) row (seq 0 cols).

Definition write_rows (G : list (list cell)) (rows cols : nat)
    (N : list (list cell)) : list (list cell) :=
  foldl (λ N y, alter (write_row G cols y) y N) N (seq 0 rows).

(** The store while the loops of [get_next_iteration] run: the objects of the
    store [h0] it started from, then the rows [N] of the deep copy; the two
    new outer lists and one more shallow copy per call of
    [count_neighbours]. *)
Definition loop_heap (h0 : heap) (rs newrs : list row_ref)
    (N : list (list cell)) (k : nat) : heap :=
  Heap (row_objs h0 ++ N) (grid_objs h0 ++ [rs; newrs] ++ replicate k rs).

(** A triple for computations on the store: from a store that satisfies [P],
    a normal return with [a] leaves a store that satisfies [Q a], and an
    exception leaves one that satisfies [E]. *)
Definition hoare {A} (P : heap → Prop) (m : M A) (Q : A → heap → Prop)
    (E : heap → Prop) : Prop :=
  ∀ h, P h → match m h with
             | (Ok a, h') => Q a h'
             | (Raise _, h') => E h'
             end.

(** A computation that leaves the store as it found it. *)
Definition readonly {A} (m : M A) : Prop := ∀ h, snd (m h) = h.

(** While the loops of [get_next_iteration] run: the objects of [h0] are as
    they were, and [next_iter] is the outer list of the row objects [rs']. *)
Definition loop_inv (h0 : heap) (next_iter : grid_ref) (rs' : list row_ref)
    (h : heap) : Prop :=
  preserved h0 h ∧ grid_objs h !! next_iter = Some rs'.

(** No row object of [h0] is among [rs]. *)
Definition fresh_rows (h0 : heap) (rs : list row_ref) : Prop :=
  Forall (λ r, row_objs h0 !! r = None) rs.

(** The repeat check that the next [next()] on [g] reaches, if it reaches
    one: the game as it is at the check (its history holds all that was
    appended before), the candidate generation that [get_next_iteration] has
    just returned, and the store at that point. *)
Definition check_point (g : generator) (h : heap)
  : option (ConwaysGameOfLife * grid_ref * heap) :=
  let from_loop_head s current_gen remaining :=
    match remaining with
    | O => None
    | S _ =>
        match get_next_iteration s current_gen h with
        | (Ok next_iteration, h') => Some (s, next_iteration, h')
        | (Raise _, _) => None
        end
    end in
  match at_ g with
  | AtFirstYield current_gen remaining =>
      from_loop_head (self g) current_gen remaining
  | AtLoopYield next_iteration remaining =>
      from_loop_head
        (set_history (self g)
           (deque_append ITERATION_HISTORY_SIZE
              (_iteration_history (self g)) next_iteration))
        next_iteration remaining
  | _ => None
  end.

(** The next [next()] on [g] reaches the repeat check and the check is true. *)
Definition repeat_detected (g : generator) (h : heap) : bool :=
  match check_point g h with
  | Some (s, candidate, h') =>
      match deque_count (_iteration_history s) candidate h' with
      | (Ok n, _) => (n =? MAX_COPIES_IN_HISTORY)%nat
      | (Raise _, _) => false
      end
  | None => false
  end.

(** How many grids of the history [d] have the value [v]. *)
Definition count_value (h : heap) (d : list grid_ref) (v : list (list cell)) : nat :=
  length (filter (λ r, deref h r = Some v) d).

(** The grid that the next [next()] appends to the history before anything
    else, if there is one. *)
Definition pending (g : generator) : option grid_ref :=
  match at_ g with
  | NotStarted _ => Some (_cells (_grid (self g)))
  | AtLoopYield next_iteration _ => Some next_iteration
  | _ => None
  end.

(** The grids a suspended generator holds on to. *)
Definition held (g : generator) : list grid_ref :=
  match at_ g with
  | NotStarted _ => [_cells (_grid (self g))]
  | AtFirstYield current_gen _ => [current_gen]
  | AtLoopYield next_iteration _ => [next_iteration]
  | Finished => []
  end ++ _iteration_history (self g).

(** What holds of the generator and the store between two calls of [next()]
    in a run on a proper grid. *)
Definition run_inv (g : generator) (h : heap) : Prop :=
  Forall (λ r, proper h r (_rows (_grid (self g))) (_cols (_grid (self g))))
         (held g) ∧
  (∀ v, (count_value h (_iteration_history (self g)) v ≤ MAX_COPIES_IN_HISTORY)%nat) ∧
  (∀ r v, pending g = Some r → deref h r = Some v →
          (count_value h (_iteration_history (self g)) v < MAX_COPIES_IN_HISTORY)%nat).

(** The passes of the loop that a suspended generator has left. *)
Definition remaining_of (f : frame) : nat :=
  match f with
  | NotStarted iterations => Z.to_nat iterations
  | AtFirstYield _ remaining => remaining
  | AtLoopYield _ remaining => remaining
  | Finished => O
  end.

(** A row as [pad_cells] leaves it: extended on the right with dead cells
    when its length is not [longest_row]. *)
Definition pad_row (longest_row : nat) (cs : list cell) : list cell :=
  if negb (length cs =? longest_row)%nat
  then cs ++ replicate (longest_row - length cs)%nat DEAD
  else cs.

(** The step of the search for the longest row in [max_key_len]. *)
Definition longer (h : heap) (best : nat * nat) (r : row_ref) : nat * nat :=
  match row_objs h !! r with
  | Some cs => if (snd best <? length cs)%nat then (r, length cs) else best
  | None => best
  end.

(** The line feed, and the pattern of the first test of the repository: five
    ragged rows, each after four spaces, between a first and a last line
    that hold spaces only. *)
Definition LF : string := String (Ascii.ascii_of_nat 10) EmptyString.

Definition ragged_pattern : string :=
  LF +:+ "    *-*-*" +:+ LF +:+ "    -**" +:+ LF +:+ "    *--" +:+ LF
     +:+ "    -" +:+ LF +:+ "    -**" +:+ LF +:+ "    ".

(** ** Grids of the test suite, as stores *)

(** The 3 by 3 grid of the neighbour-count test. *)
Definition test_rows : list (list cell) :=
  [ ["*"; "-"; "*"];
    ["-"; "*"; "*"];
    ["*"; "-"; "-"] ].

Definition test_heap : heap := Heap test_rows [[0; 1; 2]%nat].

Definition test_grid : Grid := {| _cells := 0%nat; _cols := 3; _rows := 3 |}.

(** A block, which no step changes, in a 4 by 4 grid. *)
Definition block_rows : list (list cell) :=
  [ ["-"; "-"; "-"; "-"];
    ["-"; "*"; "*"; "-"];
    ["-"; "*"; "*"; "-"];
    ["-"; "-"; "-"; "-"] ].

Definition block_heap : heap := Heap block_rows [[0; 1; 2; 3]%nat].

Definition block_grid : Grid := {| _cells := 0%nat; _cols := 4; _rows := 4 |}.

(** The pattern of the iteration test (7 by 7) and a blinker in a 5 by 5
    grid. *)
Definition iteration_pattern : string :=
  "-------" +:+ LF +:+ "-------" +:+ LF +:+ "--***--" +:+ LF +:+ "---*---" +:+ LF
    +:+ "--***--" +:+ LF +:+ "-------" +:+ LF +:+ "-------".

Definition blinker_pattern : string :=
  "-----" +:+ LF +:+ "-----" +:+ LF +:+ "-***-" +:+ LF +:+ "-----" +:+ LF
    +:+ "-----".

(** The rows of a grid, each as one string. *)
Definition show (h : heap) (g : grid_ref) : list string :=
  match deref h g with
  | Some G => map (String.concat "") G
  | None => []
  end.

(** The grids that a consumer receives from a run of [iterations] iterations
    on the grid built from [pattern] when it pulls at most [fuel] times, how
    the run ended, the counter of completed iterations and the
    repeated-pattern flag. *)
Definition play (pattern : string) (iterations : Z) (fuel : nat)
  : list (list string) * option signal * Z * bool :=
  match Grid_init (λ _, false) (Some pattern) empty_heap with
  | (Ok grid, h) =>
      let '(xs, fin, g, h') :=
        consume fuel (run_conways_game (ConwaysGameOfLife_init grid) iterations) h in
      (map (show h') xs, fin, _total_iterations (self g),
       _repeated_pattern_halted_the_game (self g))
  | (Raise _, _) => ([], None, 0, false)
  end.

(** ** Notions used to state further properties of the code *)

(** The parts of what [consume] returns. *)
Definition yielded (r : list grid_ref * option signal * generator * heap)
  : list grid_ref := r.1.1.1.
Definition ending (r : list grid_ref * option signal * generator * heap)
  : option signal := r.1.1.2.
Definition final_generator (r : list grid_ref * option signal * generator * heap)
  : generator := r.1.2.
Definition final_store (r : list grid_ref * option signal * generator * heap)
  : heap := r.2.

(** The last [m] elements of a list (all of it when it has fewer). *)
Definition keep {A} (m : nat) (l : list A) : list A := drop (length l - m) l.

(** The history of a suspended generator, with the grid it has yielded last
    and appends first thing at the next [next()]. *)
Definition recent (g : generator) : list grid_ref :=
  match at_ g with
  | AtLoopYield next_iteration _ =>
      deque_append ITERATION_HISTORY_SIZE (_iteration_history (self g)) next_iteration
  | _ => _iteration_history (self g)
  end.

(** A generator suspended at a [yield], with [k] passes of the loop left. *)
Definition suspended (g : generator) (k : nat) : Prop :=
  ∃ r, at_ g = AtFirstYield r k ∨ at_ g = AtLoopYield r k.

(** The grid from which the next pass of the loop derives its candidate. *)
Definition current (g : generator) : option grid_ref :=
  match at_ g with
  | AtFirstYield current_gen _ => Some current_gen
  | AtLoopYield next_iteration _ => Some next_iteration
  | _ => None
  end.

(** A grid that the rules leave as it is: every cell holds one of the two
    symbols, every living cell has 2 or 3 living neighbours and no dead cell
    has exactly 3. *)
Definition still_life (G : list (list cell)) : Prop :=
  ∀ p c n,
    cell_at G p = Some c → living_neighbours G p n →
    (c = ALIVE ∧ (n = 2 ∨ n = 3)) ∨ (c = DEAD ∧ n ≠ 3).

(** Every cell holds one of the two symbols. *)
Definition only_symbols (G : list (list cell)) : Prop :=
  Forall (Forall (λ c, c = ALIVE ∨ c = DEAD)) G.

(** One step of the rules on the value of a grid of [rows] by [cols] cells:
    what the loops of [get_next_iteration] write, as a function of the grid
    they read; and the generations of a grid. *)
Definition life_step (rows cols : nat) (G : list (list cell)) : list (list cell) :=
  write_rows G rows cols G.

Fixpoint generation (rows cols : nat) (G : list (list cell)) (n : nat)
  : list (list cell) :=
  match n with
  | O => G
  | S n' => life_step rows cols (generation rows cols G n')
  end.

(** The number of copies of [v n] among the (at most
    [ITERATION_HISTORY_SIZE]) elements before it in the sequence [v]: what
    the repeat check counts when the history holds the grids yielded so far
    and the candidate is the next one. *)
Definition copies {A} `{EqDecision A} (v : nat → A) (n : nat) : nat :=
  length (filter (λ i, v i = v n) (keep ITERATION_HISTORY_SIZE (seq 0 n))).

(** The grid objects [ys] are proper and hold, in this order, the first
    generations of [G]. *)
Definition tracks (h : heap) (rows cols : nat) (G : list (list cell))
    (ys : list grid_ref) : Prop :=
  ∀ i r, ys !! i = Some r →
    proper h r rows cols ∧ deref h r = Some (generation rows cols G i).

(** A for loop over the generator of a new game on [cells]: it pulls until
    the generator stops, which takes at most [iterations + 2] calls of
    [next()]. *)
Definition run_to_end (cells : Grid) (iterations : Z) (h : heap)
  : list grid_ref * option signal * generator * heap :=
  consume (S (S (Z.to_nat iterations)))
    (run_conways_game (ConwaysGameOfLife_init cells) iterations) h.

(** The rows that a pattern describes: its lines without their spaces, each
    as a list of one-character cells, the empty ones left out. *)
Definition pattern_lines (pattern : string) : list (list cell) :=
  filter (λ cs, cs ≠ []) (map list_of_str (splitlines (remove_spaces pattern))).

(** ** Text: show_cells, color_cell_row, get_cells_from_file *)

(** A Python [str] that is not a cell: the list of its code points. *)
Abbreviation text := (list N) (only parsing).

(** A string literal of the source as text. *)
Definition lit (s : string) : list N :=
  map Ascii.N_of_ascii (list_ascii_of_string s).

(** [str.isspace()] on one character, which is also what [str.strip()]
    removes: the code points that Python counts as whitespace. *)
Definition isspace (c : N) : bool :=
  (((9 <=? c) && (c <=? 13)) || ((28 <=? c) && (c <=? 32)) ||
   (c =? 133) || (c =? 160) || (c =? 5760) ||
   ((8192 <=? c) && (c <=? 8202)) ||
   (c =? 8232) || (c =? 8233) || (c =? 8239) || (c =? 8287) || (c =? 12288))%N.

Fixpoint lstrip (s : text) : text :=
  match s with
  | c :: s' => if isspace c then lstrip s' else s
  | [] => []
  end.

Definition rstrip (s : text) : text := rev (lstrip (rev s)).

(** [s.strip()] *)
Definition strip (s : text) : text := rstrip (lstrip s).

Record Symbols := mkSymbols { symbols_dead : text; symbols_alive : text }.

Record CellColours := mkCellColours { colours_dead : text; colours_alive : text }.

Definition COLOURS : CellColours := mkCellColours (lit "grey39") (lit "grey100").

(** ['-'] and the black square U+25A0 *)
Definition SYMBOLS : Symbols := mkSymbols (lit "-") [9632%N].

(** [cell_row] is read only: the function takes the cells of the row. *)
Definition color_cell_row (symbols : Symbols) (colours : CellColours)
    (cell_row : list cell) : text :=
  let alive_coloring :=
    lit "[" ++ colours_alive colours ++ lit "]" ++ symbols_alive symbols
      ++ lit "[/" ++ colours_alive colours ++ lit "]" in
  let dead_coloring :=
    lit "[" ++ colours_dead colours ++ lit "]" ++ symbols_dead symbols
      ++ lit "[/" ++ colours_dead colours ++ lit "]" in
  let colored_row :=
    map (fun x => if String.eqb x "*" then alive_coloring else dead_coloring)
        cell_row in
  concat colored_row ++ lit LF.

(** What [show_cells] returns: a [rich] table with one row that holds the
    text, or the text itself. *)
Inductive rendering :=
| Table (row : text)
| Plain (s : text).

(** [mode] is [None] or a truthy value. *)
Definition show_cells (symbols : Symbols) (colours : CellColours)
    (grid : grid_ref) (mode : bool) : M rendering :=
  let! rs := load_grid grid in
  let! rows :=
    for_fold (seq 0 (length rs))
      (fun (rows : list text) index =>
         let! r := lift (getitem rs (Z.of_nat index)) in
         let! cell_row := load_row r in
         if negb (index =? length rs - 1)%nat
         then ret (rows ++ [color_cell_row symbols colours cell_row])
         else ret (rows ++ [strip (color_cell_row symbols colours cell_row)]))
      [] in
  if negb mode then ret (Table (concat rows))
  else ret (Plain (concat rows)).

(** [s.rpartition(sep)[-1]] for a separator of one character: what follows
    the last [sep], and all of [s] when it holds none. *)
Fixpoint rpartition_last (sep : N) (s : text) : text :=
  match s with
  | [] => []
  | c :: s' =>
      if existsb (N.eqb sep) s' then rpartition_last sep s'
      else if (c =? sep)%N then s' else c :: s'
  end.

(** How [get_cells_from_file] ends: it returns the cells or leaves through
    [sys.exit] with a message. *)
Inductive reading :=
| Cells (cells : string)
| SystemExit (message : text).

(** The [while True] loop over the characters that [f.read(1)] returns, to
    the end of the file; [chars_seen] is kept joined.  It gives what is
    printed and how the function ends. *)
Fixpoint read_loop (content : list N) (chars_seen : string) (lines : list string)
  : list text * reading :=
  match content with
  | [] => ([], Cells (String.concat "" lines))
  | char :: content' =>
      if (char =? 10)%N then
        read_loop content' "" (lines ++ [chars_seen +:+ LF])
      else if existsb (N.eqb char) [42; 45]%N then
        read_loop content' (chars_seen +:+ String (Ascii.ascii_of_N char) "") lines
      else if isspace char then
        read_loop content' (chars_seen +:+ "-") lines
      else
        ([lit "The invalid character '" ++ [char] ++ lit "' was found in your text file."],
         SystemExit (lit "Remove it, making sure you are left with only '*'s and '-'s"))
  end.

Section Files.

(** [GRIDS[random.choice(list(GRIDS.keys()))]]: the preset that is drawn when
    the file does not exist. *)
Variable random_preset : string.

(** [path_exists] is what [os.path.exists(file)] answers and [content] the
    characters of the file as [open(file, 'r', encoding='utf-8')] delivers
    them (decoded, line ends translated to LF). *)
Definition get_cells_from_file (path_exists : bool) (file : text)
    (content : list N) : list text * reading :=
  if path_exists then
    if negb (bool_decide (rpartition_last 46 file = lit "txt")) then
      ([], SystemExit (lit "Please provide a .txt file"))
    else read_loop content "" []
  else
    ([lit "The file " ++ file ++ lit " does not exist." ++ lit LF
        ++ lit "Here is a random preset grid:"],
     Cells random_preset).

End Files.

(** The characters that [get_cells_from_file] accepts. *)
Definition accepted (c : N) : bool :=
  (c =? 42)%N || (c =? 45)%N || isspace c.

(** * Verification *)

(** ** The store monad *)

Lemma bind_ok {A B} (m : M A) (f : A → M B) h a h' :
  m h = (Ok a, h') → bind m f h = f a h'.
Proof. intros E. unfold bind. by rewrite E. Qed.

Lemma bind_raise {A B} (m : M A) (f : A → M B) h e h' :
  m h = (Raise e, h') → bind m f h = (Raise e, h').
Proof. intros E. unfold bind. by rewrite E. Qed.

Lemma for_fold_pure {A S} (l : list A) (body : S → A → M S) (f : S → A → S) h :
  (∀ s a, a ∈ l → body s a h = (Ok (f s a), h)) →
  ∀ s, for_fold l body s h = (Ok (foldl f s l), h).
Proof.
  induction l as [|a l IH]; intros Hb s; [done|].
  simpl. erewrite bind_ok; [|apply Hb; left].
  apply IH. intros s' a' Ha'. apply Hb. by right.
Qed.

(** ** Indexing *)

Lemma py_index_nonneg {A} (l : list A) (i : Z) :
  0 ≤ i < Z.of_nat (length l) → py_index l i = Some (Z.to_nat i).
Proof.
  intros Hi. unfold py_index.
  destruct (Z.ltb_spec i 0); [lia|].
  destruct (Z.leb_spec 0 i); [|lia].
  destruct (Z.ltb_spec i (Z.of_nat (length l))); [done|lia].
Qed.

Lemma getitem_nat {A} (l : list A) (i : nat) a :
  l !! i = Some a → getitem l (Z.of_nat i) = Ok a.
Proof.
  intros Hl. unfold getitem.
  rewrite py_index_nonneg; [|apply lookup_lt_Some in Hl; lia].
  by rewrite Nat2Z.id, Hl.
Qed.

Lemma setitem_nat {A} (l : list A) (i : nat) v :
  (i < length l)%nat → setitem l (Z.of_nat i) v = Ok (<[i:=v]> l).
Proof.
  intros Hl. unfold setitem.
  rewrite py_index_nonneg; [|lia]. by rewrite Nat2Z.id.
Qed.

Lemma deref_grid_at h g G :
  deref h g = Some G ↔ ∃ rs, grid_at h g rs G.
Proof.
  unfold deref, grid_at. split.
  - destruct (grid_objs h !! g) as [rs|]; [|done].
    intros E. exists rs. split; [done|]. by apply mapM_Some.
  - intros (rs & -> & HF). by apply mapM_Some.
Qed.

Lemma grid_at_lookup h g rs G (y : nat) row :
  grid_at h g rs G → G !! y = Some row →
  ∃ r, rs !! y = Some r ∧ row_objs h !! r = Some row.
Proof.
  intros [_ HF] Hy.
  destruct (Forall2_lookup_r _ _ _ _ _ HF Hy) as (r & ? & ?). eauto.
Qed.

Lemma getitem2_at h g rs G (y x : nat) row c :
  grid_at h g rs G → G !! y = Some row → row !! x = Some c →
  getitem2 g (Z.of_nat y) (Z.of_nat x) h = (Ok c, h).
Proof.
  intros Hg Hy Hx.
  destruct (grid_at_lookup _ _ _ _ _ _ Hg Hy) as (r & Hr & Hrow).
  destruct Hg as [Hg _].
  unfold getitem2.
  erewrite bind_ok; [|unfold load_grid; by rewrite Hg].
  erewrite bind_ok; [|unfold lift; by erewrite getitem_nat].
  erewrite bind_ok; [|unfold load_row; by rewrite Hrow].
  unfold lift. by erewrite getitem_nat.
Qed.

(** ** valid_loc and count_neighbours on a rectangular grid *)

Lemma valid_loc_at h g rs G row0 G' q :
  grid_at h g rs G → G = row0 :: G' →
  valid_loc g q h = (Ok (inside (length G) (length row0) q), h).
Proof.
  intros Hg ->.
  destruct (grid_at_lookup _ _ _ _ 0%nat row0 Hg eq_refl) as (r0 & Hr0 & Hrow0).
  pose proof (Forall2_length _ _ _ (proj2 Hg)) as Hlen.
  destruct Hg as [Hg _].
  unfold valid_loc, inside. rewrite <- Hlen.
  assert (load_grid g h = (Ok rs, h)) as Hload
    by (unfold load_grid; by rewrite Hg).
  destruct (0 <=? pt_x q).
  - erewrite bind_ok; cycle 1.
    { erewrite bind_ok; [|exact Hload].
      erewrite bind_ok;
        [|unfold lift; by rewrite (getitem_nat rs 0%nat r0 Hr0 : getitem rs 0 = _)].
      erewrite bind_ok; [|unfold load_row; by rewrite Hrow0].
      reflexivity. }
    destruct (pt_x q <? Z.of_nat (length row0)); [|done]. simpl.
    destruct (0 <=? pt_y q).
    + erewrite bind_ok; [|erewrite bind_ok; [|exact Hload]; reflexivity].
      by destruct (pt_y q <? Z.of_nat (length rs)).
    + reflexivity.
  - reflexivity.
Qed.

Lemma inside_cell_at G rows cols q :
  rectangular G rows cols →
  inside rows cols q = true ↔ is_Some (cell_at G q).
Proof.
  intros [Hr Hc]. unfold inside, cell_at.
  rewrite !andb_true_iff, !Z.leb_le, !Z.ltb_lt.
  split.
  - intros [[[Hx0 Hx1] Hy0] Hy1].
    destruct (Z.leb_spec 0 (pt_x q)); [|lia].
    destruct (Z.leb_spec 0 (pt_y q)); [|lia]. simpl.
    destruct (lookup_lt_is_Some_2 G (Z.to_nat (pt_y q))) as [row Hrow]; [lia|].
    rewrite Hrow. apply lookup_lt_is_Some_2.
    rewrite Forall_forall in Hc. rewrite (Hc row); [lia|].
    eapply list_elem_of_lookup_2, Hrow.
  - destruct (Z.leb_spec 0 (pt_x q)); [|by intros []].
    destruct (Z.leb_spec 0 (pt_y q)); [|by intros []]. simpl.
    destruct (G !! Z.to_nat (pt_y q)) as [row|] eqn:Hrow; [|by intros []].
    intros Hx. apply lookup_lt_is_Some_1 in Hx.
    apply lookup_lt_Some in Hrow as Hy.
    rewrite Forall_forall in Hc. rewrite (Hc row) in Hx; [lia|].
    eapply list_elem_of_lookup_2, Hrow.
Qed.

Lemma getitem2_cell_at h g rs G q c :
  grid_at h g rs G → cell_at G q = Some c →
  getitem2 g (pt_y q) (pt_x q) h = (Ok c, h).
Proof.
  intros Hg. unfold cell_at.
  destruct (Z.leb_spec 0 (pt_x q)); [|done].
  destruct (Z.leb_spec 0 (pt_y q)); [|done]. simpl.
  destruct (G !! Z.to_nat (pt_y q)) as [row|] eqn:Hrow; [|done].
  intros Hc.
  rewrite <- (Z2Nat.id (pt_y q)), <- (Z2Nat.id (pt_x q)) by done.
  by eapply getitem2_at.
Qed.

(** One pass of the loop over the neighbours: the store is only read. *)
Lemma count_step h g rs G rows cols (n : Z) q :
  grid_at h g rs G → rectangular G rows cols → (1 ≤ rows)%nat →
  (let! v := valid_loc g q in
   if v then
     let! c := getitem2 g (pt_y q) (pt_x q) in
     if String.eqb c ALIVE then ret (n + 1) else ret n
   else ret n) h
  = (Ok (if bool_decide (cell_at G q = Some ALIVE) then n + 1 else n), h).
Proof.
  intros Hg Hrect Hrows.
  destruct G as [|row0 G'] eqn:EG; [destruct Hrect as [Hr _]; simpl in Hr; lia|].
  rewrite <- EG in *.
  erewrite bind_ok; [|by eapply valid_loc_at].
  assert (length row0 = cols) as ->.
  { destruct Hrect as [_ Hc]. rewrite EG in Hc. by inversion Hc. }
  assert (length G = rows) as -> by apply Hrect.
  destruct (inside rows cols q) eqn:Hin.
  - apply (inside_cell_at G) in Hin as [c Hc]; [|done].
    erewrite bind_ok; [|by eapply getitem2_cell_at].
    rewrite Hc. destruct (String.eqb_spec c ALIVE) as [->|Hne].
    + by rewrite bool_decide_true.
    + rewrite bool_decide_false; [done|congruence].
  - rewrite bool_decide_false; [done|].
    intros Hc. assert (is_Some (cell_at G q)) as Hs by eauto.
    apply (inside_cell_at G rows cols) in Hs; [congruence|done].
Qed.

Lemma grid_at_new_grid h g rs G rs' :
  grid_at h g rs G → grid_at (Heap (row_objs h) (grid_objs h ++ [rs'])) g rs G.
Proof.
  intros [Hg HF]. split; [|done]. simpl.
  rewrite lookup_app_l; [done|]. by eapply lookup_lt_Some.
Qed.

Lemma grid_at_fresh h rs G rs0 :
  Forall2 (λ r cs, row_objs h !! r = Some cs) rs G →
  grid_objs h = rs0 →
  grid_at (Heap (row_objs h) (rs0 ++ [rs])) (length rs0) rs G.
Proof.
  intros HF <-. split; [|done]. simpl. by rewrite list_lookup_middle.
Qed.

Lemma count_foldl (P : Point → Prop) `{∀ q, Decision (P q)} (l : list Point) (n : Z) :
  foldl (λ n q, if bool_decide (P q) then n + 1 else n) n l
  = n + Z.of_nat (length (filter P l)).
Proof.
  revert n. induction l as [|q l IH]; intros n; simpl; [lia|].
  rewrite IH, filter_cons. case_bool_decide; case_decide; try done; simpl; lia.
Qed.

Lemma count_neighbours_at h g rs G rows cols p :
  grid_at h g rs G → rectangular G rows cols → (1 ≤ rows)%nat →
  count_neighbours g p h
  = (Ok (Z.of_nat (length (alive_around G p))),
     Heap (row_objs h) (grid_objs h ++ [rs])).
Proof.
  intros Hg Hrect Hrows.
  unfold count_neighbours.
  erewrite bind_ok; cycle 1.
  { unfold copy. erewrite bind_ok; [|unfold load_grid; by rewrite (proj1 Hg)]. done. }
  erewrite for_fold_pure; cycle 1.
  { intros n q _. eapply count_step; [|done..].
    apply grid_at_fresh; [apply Hg|done]. }
  by rewrite count_foldl.
Qed.

Lemma neighbours_adjacent p q : q ∈ neighbours p ↔ moore_adjacent p q.
Proof.
  destruct p as [x y], q as [x' y']. unfold neighbours, moore_adjacent. simpl.
  rewrite !elem_of_cons, elem_of_nil. split.
  - intros Hq. destruct_or!; try done; simplify_eq; split_and!; try lia;
      intros ?; simplify_eq; lia.
  - intros (Hne & Hx & Hy).
    assert (x' = x - 1 ∨ x' = x ∨ x' = x + 1) as Hx' by lia.
    assert (y' = y - 1 ∨ y' = y ∨ y' = y + 1) as Hy' by lia.
    destruct_or!; subst; tauto.
Qed.

Lemma neighbours_NoDup p : NoDup (neighbours p).
Proof.
  destruct p as [x y]. unfold neighbours. simpl.
  repeat (apply NoDup_cons; split;
          [rewrite ?elem_of_cons, elem_of_nil; intros ?; destruct_or?; simplify_eq; lia|]).
  apply NoDup_nil_2.
Qed.

Lemma neighbours_living G p :
  living_neighbours G p (Z.of_nat (length (alive_around G p))).
Proof.
  eexists. split_and!; [|intros q|reflexivity].
  - apply NoDup_filter, neighbours_NoDup.
  - unfold alive_around. rewrite list_elem_of_filter, neighbours_adjacent. tauto.
Qed.

Lemma living_neighbours_unique G p n m :
  living_neighbours G p n → living_neighbours G p m → n = m.
Proof.
  intros (L1 & N1 & M1 & ->) (L2 & N2 & M2 & ->).
  f_equal. apply Permutation_length, NoDup_Permutation; [done..|].
  intros q. by rewrite M1, M2.
Qed.

(** C3: on a grid with at least one row whose rows all have the same length,
    [count_neighbours] returns, for any position, a number between 0 and 8
    that is the number of the eight surrounding positions which lie inside
    the grid and hold [ALIVE]; positions outside the grid are not counted
    and no coordinate wraps around. *)
Theorem count_neighbours_exact h grid G rows cols p :
  deref h grid = Some G → rectangular G rows cols → (1 ≤ rows)%nat →
  ∃ n h', count_neighbours grid p h = (Ok n, h') ∧
          0 ≤ n ≤ 8 ∧ living_neighbours G p n.
Proof.
  intros Hd Hrect Hrows.
  apply deref_grid_at in Hd as [rs Hg].
  eexists _, _. split; [by eapply count_neighbours_at|].
  split; [|apply neighbours_living].
  pose proof (length_filter (λ q, cell_at G q = Some ALIVE) (neighbours p)) as Hl.
  change (length (neighbours p)) with 8%nat in Hl. unfold alive_around. lia.
Qed.

(** ** get_next_iteration on a grid of the game's dimensions *)

Lemma copy_at h g rs :
  grid_objs h !! g = Some rs →
  copy g h = (Ok (length (grid_objs h)), Heap (row_objs h) (grid_objs h ++ [rs])).
Proof.
  intros Hg. unfold copy.
  erewrite bind_ok; [|unfold load_grid; by rewrite Hg]. done.
Qed.

(** Without aliasing among the rows, [deepcopy] allocates one new row object
    per row, in order. *)
Lemma deepcopy_rows_fresh rs G :
  ∀ memo R Gs,
    Forall2 (λ r cs, R !! r = Some cs) rs G → NoDup rs →
    (∀ r, r ∈ rs → memo !! r = None) →
    deepcopy_rows memo rs (Heap R Gs)
    = (Ok (seq (length R) (length rs)), Heap (R ++ G) Gs).
Proof.
  revert G. induction rs as [|r rs IH]; intros G memo R Gs HF Hnd Hmemo.
  - inversion HF; subst. simpl. by rewrite app_nil_r.
  - inversion HF as [|? cs ? G' Hr HF']; subst. simpl.
    rewrite Hmemo by left.
    apply NoDup_cons in Hnd as [Hnotin Hnd].
    erewrite bind_ok; [|unfold load_row; simpl; by rewrite Hr].
    erewrite bind_ok; [|reflexivity]. simpl.
    erewrite bind_ok; cycle 1.
    { apply (IH G'); [|done|].
      - eapply Forall2_impl; [done|]. intros r' cs' Hr'. simpl in Hr'.
        rewrite lookup_app_l; [done|]. by eapply lookup_lt_Some.
      - intros r' Hr'. rewrite lookup_insert_ne; [|set_solver].
        apply Hmemo. by right. }
    unfold ret. rewrite length_app, <- app_assoc. simpl.
    by rewrite Nat.add_1_r.
Qed.

Lemma deepcopy_at h g rs G :
  grid_at h g rs G → NoDup rs →
  deepcopy g h
  = (Ok (length (grid_objs h)),
     Heap (row_objs h ++ G) (grid_objs h ++ [seq (length (row_objs h)) (length G)])).
Proof.
  intros [Hg HF] Hnd. unfold deepcopy.
  erewrite bind_ok; [|unfold load_grid; by rewrite Hg].
  destruct h as [R Gs]. simpl in *.
  erewrite bind_ok; [|by apply deepcopy_rows_fresh].
  by rewrite (Forall2_length _ _ _ HF).
Qed.

Lemma insert_as_alter {A} (f : A → A) (l : list A) i a :
  l !! i = Some a → <[i := f a]> l = alter f i l.
Proof.
  revert i. induction l as [|b l IH]; intros [|i] Hi; simplify_eq/=; [done|].
  f_equal. by apply IH.
Qed.

Section loop.

Context (h0 : heap) (rs : list row_ref) (G : list (list cell)).
Context (rows cols : nat).
Hypothesis Hrows : Forall2 (λ r cs, row_objs h0 !! r = Some cs) rs G.
Hypothesis Hrect : rectangular G rows cols.

Let newrs := seq (length (row_objs h0)) rows.
Let prev_iter := length (grid_objs h0).
Let next_iter := S (length (grid_objs h0)).

Lemma loop_prev_at N k : grid_at (loop_heap h0 rs newrs N k) prev_iter rs G.
Proof.
  split; simpl.
  - unfold prev_iter. by rewrite list_lookup_middle.
  - eapply Forall2_impl; [done|]. intros r cs Hr. simpl in *.
    rewrite lookup_app_l; [done|]. by eapply lookup_lt_Some.
Qed.

Lemma loop_count N k p :
  (1 ≤ rows)%nat →
  count_neighbours prev_iter p (loop_heap h0 rs newrs N k)
  = (Ok (Z.of_nat (length (alive_around G p))), loop_heap h0 rs newrs N (S k)).
Proof.
  intros H1.
  erewrite count_neighbours_at; [|apply loop_prev_at|done..].
  unfold loop_heap. simpl. f_equal. f_equal.
  rewrite replicate_cons_app, <- !app_assoc. done.
Qed.

Lemma loop_setitem2 N k (y x : nat) v :
  length N = rows → Forall (λ row, length row = cols) N →
  (y < rows)%nat → (x < cols)%nat →
  setitem2 next_iter (Z.of_nat y) (Z.of_nat x) v (loop_heap h0 rs newrs N k)
  = (Ok tt, loop_heap h0 rs newrs (alter (λ row, <[x := v]> row) y N) k).
Proof.
  intros HN HNc Hy Hx.
  destruct (lookup_lt_is_Some_2 N y) as [row Hrow]; [lia|].
  assert (length row = cols) as Hlen.
  { rewrite Forall_forall in HNc. apply HNc. by eapply list_elem_of_lookup_2. }
  unfold setitem2.
  erewrite bind_ok; cycle 1.
  { unfold load_grid, loop_heap. simpl.
    rewrite lookup_app_r by lia.
    replace (next_iter - length (grid_objs h0))%nat with 1%nat
      by (unfold next_iter; lia).
    done. }
  erewrite bind_ok; cycle 1.
  { unfold lift. erewrite getitem_nat; [done|].
    unfold newrs. by apply lookup_seq_lt. }
  erewrite bind_ok; cycle 1.
  { unfold load_row, loop_heap. simpl.
    rewrite lookup_app_r by lia.
    replace (length (row_objs h0) + y - length (row_objs h0))%nat with y by lia.
    by rewrite Hrow. }
  erewrite bind_ok; [|unfold lift; rewrite setitem_nat by lia; done].
  unfold store_row, loop_heap. simpl.
  rewrite lookup_app_r by lia.
  replace (length (row_objs h0) + y - length (row_objs h0))%nat with y by lia.
  rewrite Hrow. do 2 f_equal.
  rewrite insert_app_r. f_equal.
  by apply (insert_as_alter (λ row, <[x := v]> row)).
Qed.

Lemma loop_body N k (y x : nat) :
  length N = rows → Forall (λ row, length row = cols) N →
  (y < rows)%nat → (x < cols)%nat →
  (let! living_neighbours :=
     count_neighbours prev_iter (mkPoint (Z.of_nat x) (Z.of_nat y)) in
   let! c := getitem2 prev_iter (Z.of_nat y) (Z.of_nat x) in
   if String.eqb c ALIVE && ((living_neighbours =? 2) || (living_neighbours =? 3))
   then setitem2 next_iter (Z.of_nat y) (Z.of_nat x) ALIVE
   else
     let! c := getitem2 prev_iter (Z.of_nat y) (Z.of_nat x) in
     if String.eqb c DEAD && (living_neighbours =? 3)
     then setitem2 next_iter (Z.of_nat y) (Z.of_nat x) ALIVE
     else setitem2 next_iter (Z.of_nat y) (Z.of_nat x) DEAD)
    (loop_heap h0 rs newrs N k)
  = (Ok tt,
     loop_heap h0 rs newrs (alter (λ row, <[x := new_value G y x]> row) y N) (S k)).
Proof.
  intros HN HNc Hy Hx.
  set (p := mkPoint (Z.of_nat x) (Z.of_nat y)).
  assert (is_Some (cell_at G p)) as [c Hc].
  { apply (inside_cell_at G rows cols); [done|]. unfold inside, p. simpl.
    rewrite !andb_true_iff, !Z.leb_le, !Z.ltb_lt. lia. }
  erewrite bind_ok; [|apply loop_count; lia].
  erewrite bind_ok; cycle 1.
  { apply (getitem2_cell_at _ _ rs G p c); [apply loop_prev_at|done]. }
  unfold new_value. fold p. rewrite Hc. unfold next_cell.
  destruct (String.eqb c ALIVE && _).
  - by apply loop_setitem2.
  - erewrite bind_ok; cycle 1.
    { apply (getitem2_cell_at _ _ rs G p c); [apply loop_prev_at|done]. }
    destruct (String.eqb c DEAD && _); by apply loop_setitem2.
Qed.

End loop.

(** A [for] loop over [range(n)] whose passes all succeed, followed through
    a relation between a logical state and the store. *)
Lemma for_each_range {St} (n : nat) (body : Z → M unit)
    (R : St → heap → Prop) (f : St → nat → St) :
  (∀ s i h, (i < n)%nat → R s h →
            ∃ h', body (Z.of_nat i) h = (Ok tt, h') ∧ R (f s i) h') →
  ∀ s h, R s h →
         ∃ h', for_each (range n) body h = (Ok tt, h') ∧ R (foldl f s (seq 0 n)) h'.
Proof.
  intros Hbody. unfold range.
  assert (∀ m j s h, (j + m ≤ n)%nat → R s h →
            ∃ h', for_each (map Z.of_nat (seq j m)) body h = (Ok tt, h') ∧
                  R (foldl f s (seq j m)) h') as Hgen.
  { induction m as [|m IH]; intros j s h Hjm HR; simpl.
    - by exists h.
    - destruct (Hbody s j h) as (h1 & E1 & HR1); [lia|done|].
      destruct (IH (S j) (f s j) h1) as (h2 & E2 & HR2); [lia|done|].
      exists h2. split; [|done]. by erewrite bind_ok. }
  intros s h. by apply Hgen.
Qed.

Lemma alter_alter {A} (f g : A → A) (l : list A) i :
  alter f i (alter g i l) = alter (f ∘ g) i l.
Proof. revert i. induction l as [|a l IH]; intros [|i]; f_equal/=; auto. Qed.

Lemma foldl_alter_row {A} (v : nat → A) (y : nat) (xs : list nat) :
  ∀ N : list (list A),
    foldl (λ N x, alter (λ row, <[x := v x]> row) y N) N xs
    = alter (λ row, foldl (λ row x, <[x := v x]> row) row xs) y N.
Proof.
  induction xs as [|x xs IH]; intros N; simpl.
  - by rewrite list_alter_id.
  - by rewrite IH, alter_alter.
Qed.

Lemma write_row_length G cols y row : length (write_row G cols y row) = length row.
Proof.
  unfold write_row. induction cols as [|c IH]; [done|].
  by rewrite seq_S, foldl_snoc, length_insert.
Qed.

Lemma write_row_lookup G cols y row (x : nat) :
  (x < cols)%nat → (x < length row)%nat →
  write_row G cols y row !! x = Some (new_value G y x).
Proof.
  induction cols as [|c IH]; intros Hx Hl; [lia|].
  unfold write_row. rewrite seq_S, foldl_snoc. simpl. fold (write_row G c y row).
  destruct (decide (x = c)) as [->|Hne].
  - apply list_lookup_insert_eq. by rewrite write_row_length.
  - rewrite list_lookup_insert_ne by done. apply IH; lia.
Qed.

Lemma write_rows_length G rows cols N : length (write_rows G rows cols N) = length N.
Proof.
  unfold write_rows. induction rows as [|r IH]; [done|].
  by rewrite seq_S, foldl_snoc, length_alter.
Qed.

Lemma write_rows_lookup G rows cols N (y : nat) :
  (y < rows)%nat →
  write_rows G rows cols N !! y = write_row G cols y <$> N !! y.
Proof.
  unfold write_rows. induction rows as [|r IH]; intros Hy; [lia|].
  rewrite seq_S, foldl_snoc. simpl.
  destruct (decide (y = r)) as [->|Hne].
  - rewrite list_lookup_alter_eq.
    assert (∀ m, (m ≤ r)%nat →
              foldl (λ N y, alter (write_row G cols y) y N) N (seq 0 m) !! r = N !! r)
      as Hsame; [|by rewrite Hsame].
    induction m as [|m IHm]; intros Hm; [done|].
    rewrite seq_S, foldl_snoc. simpl.
    rewrite list_lookup_alter_ne by lia. apply IHm. lia.
  - rewrite list_lookup_alter_ne by done. apply IH. lia.
Qed.

Lemma write_rows_rectangular G rows cols N :
  rectangular N rows cols → rectangular (write_rows G rows cols N) rows cols.
Proof.
  intros [Hr Hc]. split; [by rewrite write_rows_length|].
  apply Forall_lookup. intros y row' Hrow'.
  assert (y < rows)%nat as Hy.
  { apply lookup_lt_Some in Hrow'. rewrite write_rows_length in Hrow'. lia. }
  rewrite write_rows_lookup in Hrow' by done.
  destruct (N !! y) as [row|] eqn:Hrow; simplify_eq/=.
  rewrite write_row_length. rewrite Forall_forall in Hc. apply Hc.
  by eapply list_elem_of_lookup_2.
Qed.

Lemma write_rows_cell_at G rows cols N (y x : nat) :
  rectangular N rows cols → (y < rows)%nat → (x < cols)%nat →
  cell_at (write_rows G rows cols N) (mkPoint (Z.of_nat x) (Z.of_nat y))
  = Some (new_value G y x).
Proof.
  intros [Hr Hc] Hy Hx. unfold cell_at. simpl.
  destruct (Z.leb_spec 0 (Z.of_nat x)); [|lia].
  destruct (Z.leb_spec 0 (Z.of_nat y)); [|lia]. simpl.
  rewrite !Nat2Z.id, write_rows_lookup by done.
  destruct (lookup_lt_is_Some_2 N y) as [row Hrow]; [lia|].
  rewrite Hrow. simpl. apply write_row_lookup; [done|].
  rewrite Forall_forall in Hc. rewrite (Hc row); [done|].
  by eapply list_elem_of_lookup_2.
Qed.

(** The run of [get_next_iteration] on a grid of the game's dimensions whose
    rows are distinct objects: it succeeds, returns the second of two new
    outer lists, and leaves the store as the loops built it. *)
Lemma get_next_iteration_at self h g rs G :
  grid_at h g rs G → NoDup rs →
  rectangular G (_rows (_grid self)) (_cols (_grid self)) →
  ∃ k, get_next_iteration self g h
       = (Ok (S (length (grid_objs h))),
          loop_heap h rs (seq (length (row_objs h)) (_rows (_grid self)))
            (write_rows G (_rows (_grid self)) (_cols (_grid self)) G) k).
Proof.
  set (rows := _rows (_grid self)). set (cols := _cols (_grid self)).
  intros Hg Hnd Hrect.
  set (newrs := seq (length (row_objs h)) rows).
  pose (R := λ (N : list (list cell)) (h' : heap),
          (∃ k, h' = loop_heap h rs newrs N k) ∧ rectangular N rows cols).
  unfold get_next_iteration. fold rows cols.
  erewrite bind_ok; [|apply copy_at, Hg].
  erewrite bind_ok; cycle 1.
  { apply (deepcopy_at _ _ rs G); [|done].
    apply grid_at_fresh; [apply Hg|done]. }
  simpl. rewrite length_app. simpl. rewrite Nat.add_1_r.
  destruct (for_each_range rows
              (λ y, for_each (range cols) (λ x,
                 let! living_neighbours :=
                   count_neighbours (length (grid_objs h)) (mkPoint x y) in
                 let! c := getitem2 (length (grid_objs h)) y x in
                 if String.eqb c ALIVE
                    && ((living_neighbours =? 2) || (living_neighbours =? 3))
                 then setitem2 (S (length (grid_objs h))) y x ALIVE
                 else
                   let! c := getitem2 (length (grid_objs h)) y x in
                   if String.eqb c DEAD && (living_neighbours =? 3)
                   then setitem2 (S (length (grid_objs h))) y x ALIVE
                   else setitem2 (S (length (grid_objs h))) y x DEAD))
              R (λ N y, alter (write_row G cols y) y N))
    with G (loop_heap h rs newrs G 0) as (h' & E & [[k ->] Hrect']).
  - intros N y h1 Hy [[k ->] HN].
    destruct (for_each_range cols
                (λ x,
                   let! living_neighbours :=
                     count_neighbours (length (grid_objs h))
                       (mkPoint x (Z.of_nat y)) in
                   let! c := getitem2 (length (grid_objs h)) (Z.of_nat y) x in
                   if String.eqb c ALIVE
                      && ((living_neighbours =? 2) || (living_neighbours =? 3))
                   then setitem2 (S (length (grid_objs h))) (Z.of_nat y) x ALIVE
                   else
                     let! c := getitem2 (length (grid_objs h)) (Z.of_nat y) x in
                     if String.eqb c DEAD && (living_neighbours =? 3)
                     then setitem2 (S (length (grid_objs h))) (Z.of_nat y) x ALIVE
                     else setitem2 (S (length (grid_objs h))) (Z.of_nat y) x DEAD)
                R (λ N x, alter (λ row, <[x := new_value G y x]> row) y N))
      with N (loop_heap h rs newrs N k) as (h2 & E2 & HR2).
    + intros N1 x h1 Hx [[k1 ->] [HN1 HN1c]].
      eexists. split; [by apply (loop_body h rs G rows cols (proj2 Hg) Hrect)|].
      split; [by eexists|]. split; [by rewrite length_alter|].
      apply Forall_alter; [done|]. intros row _ Hrow. by rewrite length_insert.
    + split; [by eexists|done].
    + exists h2. split; [done|].
      rewrite foldl_alter_row in HR2. done.
  - split; [by exists 0%nat|done].
  - exists k.
    assert (Heap (row_objs h ++ G)
              ((grid_objs h ++ [rs]) ++ [seq (length (row_objs h)) (length G)])
            = loop_heap h rs newrs G 0) as ->.
    { unfold loop_heap, newrs. simpl. rewrite <- app_assoc. simpl.
      by rewrite (proj1 Hrect). }
    erewrite bind_ok; [|exact E]. done.
Qed.

(** ** What the store looks like after get_next_iteration *)

Lemma loop_heap_preserved h rs newrs N k : preserved h (loop_heap h rs newrs N k).
Proof.
  split; simpl; intros i x Hi;
    (rewrite lookup_app_l; [done|by eapply lookup_lt_Some]).
Qed.

Lemma loop_heap_next_at h rs N k :
  grid_at (loop_heap h rs (seq (length (row_objs h)) (length N)) N k)
    (S (length (grid_objs h))) (seq (length (row_objs h)) (length N)) N.
Proof.
  split; simpl.
  - rewrite lookup_app_r by lia.
    by replace (S (length (grid_objs h)) - length (grid_objs h))%nat with 1%nat by lia.
  - apply Forall2_same_length_lookup_2; [by rewrite length_seq|].
    intros i r cs Hr Hcs. apply lookup_seq in Hr as [-> Hi].
    rewrite lookup_app_r by lia.
    by replace (length (row_objs h) + i - length (row_objs h))%nat with i by lia.
Qed.

Lemma preserved_refl h : preserved h h.
Proof. by split. Qed.

Lemma preserved_trans h1 h2 h3 : preserved h1 h2 → preserved h2 h3 → preserved h1 h3.
Proof. intros [A1 B1] [A2 B2]. split; eauto. Qed.

Lemma preserved_grid_at h h' g rs G :
  preserved h h' → grid_at h g rs G → grid_at h' g rs G.
Proof.
  intros [Hr Hg] [Hgl HF]. split; [by apply Hg|].
  eapply Forall2_impl; [done|]. intros r cs Hrc. by apply Hr.
Qed.

Lemma preserved_deref h h' g G :
  preserved h h' → deref h g = Some G → deref h' g = Some G.
Proof.
  rewrite !deref_grid_at. intros Hp [rs Hg]. exists rs.
  by eapply preserved_grid_at.
Qed.

Lemma preserved_proper h h' g rows cols :
  preserved h h' → proper h g rows cols → proper h' g rows cols.
Proof.
  intros Hp (rs & G & Hg & Hnd & Hrect). exists rs, G.
  split_and!; [by eapply preserved_grid_at|done..].
Qed.

Lemma proper_deref h g rows cols :
  proper h g rows cols → ∃ G, deref h g = Some G ∧ rectangular G rows cols.
Proof.
  intros (rs & G & Hg & _ & Hrect). exists G. split; [|done].
  apply deref_grid_at. eauto.
Qed.

(** The step on a proper grid: what it returns, in terms of the value of the
    grid it was given. *)
Lemma get_next_iteration_proper self h g G :
  proper h g (_rows (_grid self)) (_cols (_grid self)) →
  deref h g = Some G →
  ∃ next h',
    get_next_iteration self g h = (Ok next, h') ∧
    next = S (length (grid_objs h)) ∧
    preserved h h' ∧
    proper h' next (_rows (_grid self)) (_cols (_grid self)) ∧
    deref h' next
    = Some (write_rows G (_rows (_grid self)) (_cols (_grid self)) G).
Proof.
  intros (rs & G0 & Hg & Hnd & Hrect) HG.
  assert (G0 = G) as ->.
  { assert (deref h g = Some G0) as E by (apply deref_grid_at; eauto). congruence. }
  destruct (get_next_iteration_at self h g rs G Hg Hnd Hrect) as [k E].
  pose proof (write_rows_rectangular G _ _ G Hrect) as Hrect'.
  pose proof (loop_heap_next_at h rs
                (write_rows G (_rows (_grid self)) (_cols (_grid self)) G) k) as Hat.
  rewrite (proj1 Hrect') in Hat.
  eexists _, _. split; [exact E|]. split; [done|].
  split; [apply loop_heap_preserved|]. split.
  - eexists _, _. split; [exact Hat|]. split; [apply NoDup_seq|done].
  - apply deref_grid_at. eauto.
Qed.

Lemma next_cell_cases c n :
  (c = ALIVE → n = 2 ∨ n = 3 → next_cell c n = ALIVE) ∧
  (c = DEAD → n = 3 → next_cell c n = ALIVE) ∧
  (¬ (c = ALIVE ∧ (n = 2 ∨ n = 3)) → ¬ (c = DEAD ∧ n = 3) → next_cell c n = DEAD).
Proof.
  unfold next_cell.
  destruct (String.eqb_spec c ALIVE) as [Ha|Ha], (Z.eqb_spec n 2) as [H2|H2],
    (Z.eqb_spec n 3) as [H3|H3], (String.eqb_spec c DEAD) as [Hd|Hd];
    simpl; split_and!; intros; try done;
    try (exfalso; first [lia | tauto | congruence]).
Qed.

(** C1: for every grid (rows of one length, each a list object of its own,
    as [Grid] builds them and as every generation of a run is), in a game for
    grids of that size, [get_next_iteration] returns a new grid object of the
    same dimensions, and the cell it holds at any position is fixed by the
    grid it was given alone: with [n] the number of living neighbours of the
    position in that grid, an alive cell with 2 or 3 of them stays alive, a
    dead cell with exactly 3 becomes alive, and every other cell is dead. *)
Theorem get_next_iteration_synchronous h grid rows cols self :
  proper h grid rows cols →
  _rows (_grid self) = rows → _cols (_grid self) = cols →
  ∃ G next h' G',
    deref h grid = Some G ∧
    get_next_iteration self grid h = (Ok next, h') ∧
    grid_objs h !! next = None ∧
    deref h' next = Some G' ∧
    length G' = length G ∧
    Forall2 (λ row row', length row' = length row) G G' ∧
    ∀ p c, cell_at G p = Some c →
      ∃ n c',
        living_neighbours G p n ∧ cell_at G' p = Some c' ∧
        (c = ALIVE → n = 2 ∨ n = 3 → c' = ALIVE) ∧
        (c = DEAD → n = 3 → c' = ALIVE) ∧
        (¬ (c = ALIVE ∧ (n = 2 ∨ n = 3)) → ¬ (c = DEAD ∧ n = 3) → c' = DEAD).
Proof.
  intros Hp <- <-.
  destruct (proper_deref _ _ _ _ Hp) as (G & HG & Hrect).
  destruct (get_next_iteration_proper self h grid G Hp HG)
    as (next & h' & E & -> & Hpres & Hp' & HG').
  pose proof (write_rows_rectangular G _ _ G Hrect) as Hrect'.
  eexists G, _, h', _. split_and!; [done|exact E| |exact HG'| | |].
  - apply lookup_ge_None. lia.
  - by rewrite write_rows_length.
  - apply Forall2_same_length_lookup_2; [by rewrite write_rows_length|].
    intros i row row' Hrow Hrow'.
    rewrite (Forall_lookup_1 _ _ _ _ (proj2 Hrect) Hrow).
    by rewrite (Forall_lookup_1 _ _ _ _ (proj2 Hrect') Hrow').
  - intros p c Hc.
    assert (inside (_rows (_grid self)) (_cols (_grid self)) p = true) as Hin.
    { apply (inside_cell_at G); [done|eauto]. }
    unfold inside in Hin.
    rewrite !andb_true_iff, !Z.leb_le, !Z.ltb_lt in Hin.
    destruct p as [x y]. simpl in Hin.
    exists (Z.of_nat (length (alive_around G (mkPoint x y)))),
           (next_cell c (Z.of_nat (length (alive_around G (mkPoint x y))))).
    split; [apply neighbours_living|]. split; [|apply next_cell_cases].
    rewrite <- (Z2Nat.id x), <- (Z2Nat.id y) by lia.
    rewrite write_rows_cell_at by (done || lia).
    unfold new_value. rewrite !Z2Nat.id by lia. by rewrite Hc.
Qed.

(** ** Triples, for runs on any store *)

Lemma hoare_ret {A} (P : heap → Prop) (a : A) (Q : A → heap → Prop) E :
  (∀ h, P h → Q a h) → hoare P (ret a) Q E.
Proof. intros HQ h Hh. by apply HQ. Qed.

Lemma hoare_bind {A B} P (m : M A) (f : A → M B) Q Q' E :
  hoare P m Q E → (∀ a, hoare (Q a) (f a) Q' E) → hoare P (bind m f) Q' E.
Proof.
  intros Hm Hf h Hh. unfold bind. specialize (Hm h Hh).
  destruct (m h) as [[a|e] h1]; [by apply Hf|done].
Qed.

Lemma hoare_weaken {A} (P P' : heap → Prop) (m : M A) (Q Q' : A → heap → Prop) E :
  hoare P' m Q' E → (∀ h, P h → P' h) → (∀ a h, Q' a h → Q a h) → hoare P m Q E.
Proof.
  intros Hm HP HQ h Hh. specialize (Hm h (HP h Hh)).
  destruct (m h) as [[a|e] h1]; [by apply HQ|done].
Qed.

Lemma hoare_for_each {A} (I : heap → Prop) (l : list A) (body : A → M unit) :
  (∀ a, hoare I (body a) (λ _, I) I) → hoare I (for_each l body) (λ _, I) I.
Proof.
  intros Hb. induction l as [|a l IH]; simpl.
  - by apply hoare_ret.
  - eapply hoare_bind; [apply Hb|]. intros []. apply IH.
Qed.

Lemma hoare_for_fold {A St} (I : heap → Prop) (l : list A) (body : St → A → M St) :
  (∀ s a, hoare I (body s a) (λ _, I) I) →
  ∀ s, hoare I (for_fold l body s) (λ _, I) I.
Proof.
  intros Hb. induction l as [|a l IH]; intros s; simpl.
  - by apply hoare_ret.
  - eapply hoare_bind; [apply Hb|]. intros s'. apply IH.
Qed.

Lemma hoare_readonly {A} (I : heap → Prop) (m : M A) :
  readonly m → hoare I m (λ _, I) I.
Proof.
  intros Hm h Hh. specialize (Hm h).
  destruct (m h) as [[a|e] h1]; simpl in Hm; by subst.
Qed.

Lemma readonly_bind {A B} (m : M A) (f : A → M B) :
  readonly m → (∀ a, readonly (f a)) → readonly (bind m f).
Proof.
  intros Hm Hf h. unfold bind. specialize (Hm h).
  destruct (m h) as [[a|e] h1]; simpl in Hm; subst; [apply Hf|done].
Qed.

Lemma readonly_ret {A} (a : A) : readonly (ret a).
Proof. done. Qed.

Lemma readonly_lift {A} (r : result A) : readonly (lift r).
Proof. done. Qed.

Lemma readonly_load_grid g : readonly (load_grid g).
Proof. intros h. unfold load_grid. by destruct (grid_objs h !! g). Qed.

Lemma readonly_load_row r : readonly (load_row r).
Proof. intros h. unfold load_row. by destruct (row_objs h !! r). Qed.

Lemma readonly_getitem2 g y x : readonly (getitem2 g y x).
Proof.
  unfold getitem2.
  repeat (apply readonly_bind; [|intros ?]);
    auto using readonly_load_grid, readonly_load_row, readonly_lift.
Qed.

Lemma readonly_valid_loc g q : readonly (valid_loc g q).
Proof.
  unfold valid_loc.
  apply readonly_bind.
  { case_match; [|apply readonly_ret].
    repeat (apply readonly_bind; [|intros ?]);
      auto using readonly_load_grid, readonly_load_row, readonly_lift, readonly_ret. }
  intros x_ok. case_match; [apply readonly_ret|].
  apply readonly_bind.
  { case_match; [|apply readonly_ret].
    apply readonly_bind; [apply readonly_load_grid|]. intros ?. apply readonly_ret. }
  intros y_ok. case_match; apply readonly_ret.
Qed.

Lemma preserved_new_grid h rs : preserved h (Heap (row_objs h) (grid_objs h ++ [rs])).
Proof.
  split; simpl; [done|]. intros g rs' Hg.
  rewrite lookup_app_l; [done|]. by eapply lookup_lt_Some.
Qed.

Lemma preserved_new_row h cs : preserved h (Heap (row_objs h ++ [cs]) (grid_objs h)).
Proof.
  split; simpl; [|done]. intros r cs' Hr.
  rewrite lookup_app_l; [done|]. by eapply lookup_lt_Some.
Qed.

Lemma preserved_length h h' :
  preserved h h' → (length (row_objs h) ≤ length (row_objs h'))%nat.
Proof.
  intros [Hr _].
  destruct (decide (length (row_objs h) ≤ length (row_objs h'))%nat); [done|].
  destruct (lookup_lt_is_Some_2 (row_objs h) (length (row_objs h'))) as [cs Hcs];
    [lia|].
  apply Hr, lookup_lt_Some in Hcs. lia.
Qed.

Lemma preserved_length_grids h h' :
  preserved h h' → (length (grid_objs h) ≤ length (grid_objs h'))%nat.
Proof.
  intros [_ Hg].
  destruct (decide (length (grid_objs h) ≤ length (grid_objs h'))%nat); [done|].
  destruct (lookup_lt_is_Some_2 (grid_objs h) (length (grid_objs h'))) as [cs Hcs];
    [lia|].
  apply Hg, lookup_lt_Some in Hcs. lia.
Qed.

Lemma getitem_elem_of {A} (l : list A) i a : getitem l i = Ok a → a ∈ l.
Proof.
  unfold getitem. destruct (py_index l i) as [j|]; [|done].
  destruct (l !! j) as [b|] eqn:Hb; [|done].
  intros [= <-]. by eapply list_elem_of_lookup_2.
Qed.

Section frame.

(** The store in which [get_next_iteration] is called. *)
Context (h0 : heap).

Lemma frame_copy (I : heap → Prop) g :
  (∀ h rs, I h → I (Heap (row_objs h) (grid_objs h ++ [rs]))) →
  hoare I (copy g)
    (λ g' h, I h ∧ ∃ rs, grid_objs h !! g' = Some rs) I.
Proof.
  intros HI h Hh. unfold copy, bind, load_grid, new_grid.
  destruct (grid_objs h !! g) as [rs|]; [|done]. simpl.
  split; [by apply HI|]. exists rs. by rewrite list_lookup_middle.
Qed.

Lemma frame_deepcopy_rows rs :
  ∀ memo,
    (∀ r r', memo !! r = Some r' → row_objs h0 !! r' = None) →
    hoare (preserved h0) (deepcopy_rows memo rs)
      (λ rs' h, preserved h0 h ∧ fresh_rows h0 rs') (preserved h0).
Proof.
  induction rs as [|r rs IH]; intros memo Hmemo; simpl.
  - apply hoare_ret. intros h Hh. split; [done|constructor].
  - destruct (memo !! r) as [r'|] eqn:Hr.
    + eapply hoare_bind; [by apply IH|]. intros rs''.
      apply hoare_ret. intros h [Hh Hf]. split; [done|].
      constructor; [by eapply Hmemo|done].
    + intros h Hh. unfold bind at 1, load_row.
      destruct (row_objs h !! r) as [cs|]; [|done].
      unfold bind at 1, new_row.
      assert (row_objs h0 !! length (row_objs h) = None) as Hfresh.
      { apply lookup_ge_None. by apply preserved_length. }
      eapply (hoare_bind (preserved h0)); [apply IH| |].
      * intros r1 r1'. rewrite lookup_insert.
        case_decide; [by intros [= <-]|by apply Hmemo].
      * intros rs''. apply hoare_ret. intros h1 [Hh1 Hf]. split; [done|].
        by constructor.
      * eapply preserved_trans; [done|apply preserved_new_row].
Qed.

Lemma frame_deepcopy g :
  hoare (preserved h0) (deepcopy g)
    (λ next h, preserved h0 h ∧ grid_objs h0 !! next = None ∧
               ∃ rs', grid_objs h !! next = Some rs' ∧ fresh_rows h0 rs')
    (preserved h0).
Proof.
  intros h Hh. unfold deepcopy, bind at 1, load_grid.
  destruct (grid_objs h !! g) as [rs|]; [|done].
  eapply (hoare_bind (preserved h0)); [by apply frame_deepcopy_rows| |done].
  intros rs' h1 [Hh1 Hf]. unfold new_grid. split_and!.
  - eapply preserved_trans; [done|apply preserved_new_grid].
  - apply lookup_ge_None. by apply preserved_length_grids.
  - exists rs'. simpl. by rewrite list_lookup_middle.
Qed.

(** The deep copy and its row objects, none of which is in [h0]. *)
Context (next_iter : grid_ref) (rs' : list row_ref).
Hypothesis Hfresh : fresh_rows h0 rs'.

Let loop_inv := loop_inv h0 next_iter rs'.

Lemma loop_inv_new_grid h rs :
  loop_inv h → loop_inv (Heap (row_objs h) (grid_objs h ++ [rs])).
Proof.
  intros [Hp Hn]. split.
  - eapply preserved_trans; [done|apply preserved_new_grid].
  - simpl. rewrite lookup_app_l; [done|]. by eapply lookup_lt_Some.
Qed.

Lemma frame_count_neighbours g p :
  hoare loop_inv (count_neighbours g p) (λ _, loop_inv) loop_inv.
Proof.
  unfold count_neighbours.
  eapply hoare_bind; [apply frame_copy, loop_inv_new_grid|].
  intros g'. eapply hoare_weaken; [apply hoare_for_fold| |done].
  - intros n q. apply hoare_readonly.
    apply readonly_bind; [apply readonly_valid_loc|]. intros [|].
    + apply readonly_bind; [apply readonly_getitem2|].
      intros c. case_match; apply readonly_ret.
    + apply readonly_ret.
  - by intros h [Hh _].
Qed.

Lemma frame_setitem2 y x v :
  hoare loop_inv (setitem2 next_iter y x v) (λ _, loop_inv) loop_inv.
Proof.
  intros h [Hp Hn].
  unfold setitem2, bind, load_grid, lift, load_row, store_row. rewrite Hn.
  destruct (getitem rs' y) as [r|] eqn:Hr; [|done].
  destruct (row_objs h !! r) as [cs|] eqn:Hcs; [|done].
  destruct (setitem cs x v) as [cs'|]; [|done].
  rewrite Hcs. split; [|done].
  split; [|apply Hp]. simpl. intros r0 cs0 Hr0.
  rewrite list_lookup_insert_ne; [by apply Hp|].
  intros ->. apply getitem_elem_of in Hr.
  pose proof (proj1 (Forall_forall _ _) Hfresh _ Hr) as Hnone.
  simpl in Hnone. congruence.
Qed.

Lemma frame_loops g rows cols :
  hoare loop_inv
    (for_each (range rows) (λ y,
       for_each (range cols) (λ x,
         let! living_neighbours := count_neighbours g (mkPoint x y) in
         let! c := getitem2 g y x in
         if String.eqb c ALIVE
            && ((living_neighbours =? 2) || (living_neighbours =? 3))
         then setitem2 next_iter y x ALIVE
         else
           let! c := getitem2 g y x in
           if String.eqb c DEAD && (living_neighbours =? 3)
           then setitem2 next_iter y x ALIVE
           else setitem2 next_iter y x DEAD)))
    (λ _, loop_inv) loop_inv.
Proof.
  apply hoare_for_each. intros y. apply hoare_for_each. intros x.
  eapply hoare_bind; [apply frame_count_neighbours|]. intros n.
  eapply hoare_bind; [apply hoare_readonly, readonly_getitem2|]. intros c.
  case_match; [apply frame_setitem2|].
  eapply hoare_bind; [apply hoare_readonly, readonly_getitem2|]. intros c'.
  case_match; apply frame_setitem2.
Qed.

End frame.

(** C9: [get_next_iteration] changes no object that exists when it is called,
    whatever it is called on and also when it raises: the grid it was given
    and every other grid of the store (those kept in the history among them)
    keep their rows and cells.  The grid it returns is a new object, and so
    is each of its rows. *)
Theorem get_next_iteration_frame self grid h :
  preserved h (snd (get_next_iteration self grid h)) ∧
  (∀ g G, deref h g = Some G →
          deref (snd (get_next_iteration self grid h)) g = Some G) ∧
  (∀ next, fst (get_next_iteration self grid h) = Ok next →
     next ≠ grid ∧ grid_objs h !! next = None ∧
     ∃ rs', grid_objs (snd (get_next_iteration self grid h)) !! next = Some rs' ∧
            fresh_rows h rs').
Proof.
  assert (hoare (λ h', h' = h) (get_next_iteration self grid)
            (λ next h', preserved h h' ∧ grid_objs h !! next = None ∧
                        ∃ rs', grid_objs h' !! next = Some rs' ∧ fresh_rows h rs')
            (preserved h)) as Hh.
  { unfold get_next_iteration.
    eapply hoare_bind.
    { eapply hoare_weaken; [apply (frame_copy (preserved h))| |done].
      - intros h1 rs Hh1. eapply preserved_trans; [done|apply preserved_new_grid].
      - intros h1 ->. apply preserved_refl. }
    intros prev_iter. simpl.
    eapply hoare_bind.
    { eapply hoare_weaken; [apply (frame_deepcopy h)| |done]. by intros h1 [Hh1 _]. }
    intros next_iter h1 (Hh1 & Hnone & rs' & Hnext & Hf).
    pose proof (frame_loops h next_iter rs' Hf prev_iter (_rows (_grid self))
                  (_cols (_grid self)) h1 (conj Hh1 Hnext)) as HL.
    unfold bind at 1.
    destruct (for_each _ _ h1) as [[[]|e] h2]; [|apply HL].
    destruct HL as [Hh2 Hn2]. simpl. eauto. }
  specialize (Hh h eq_refl).
  destruct (get_next_iteration self grid h) as [[next|e] h'] eqn:E; simpl.
  - destruct Hh as (Hp & Hnone & rs' & Hnext & Hf).
    split_and!; [done|intros g G; by apply preserved_deref|].
    intros ? [= <-]. split_and!; [|done|eauto].
    intros ->. unfold get_next_iteration, bind at 1, copy, bind at 1, load_grid in E.
    destruct (grid_objs h !! grid); [congruence|done].
  - split_and!; [done|intros g G; by apply preserved_deref|done].
Qed.


(** ** The generator *)

(** C5: the first [next()] on the generator of a new game yields the initial
    grid itself and leaves the store alone; the counter of completed
    iterations, 0 in a new game, is still 0, and the initial grid is in the
    history, alone, while the generator waits in front of the loop. *)
Theorem first_element_is_initial_grid (cells : Grid) (iterations : Z) (h : heap) :
  ∃ g',
    resume (run_conways_game (ConwaysGameOfLife_init cells) iterations) h
    = (Yield (_cells cells), g', h) ∧
    _total_iterations (ConwaysGameOfLife_init cells) = 0 ∧
    _total_iterations (self g') = 0 ∧
    _iteration_history (self g') = [_cells cells] ∧
    at_ g' = AtFirstYield (_cells cells) (Z.to_nat iterations).
Proof. eexists. split; [reflexivity|]. by split_and!. Qed.

Lemma resume_at_check g h s candidate h' :
  check_point g h = Some (s, candidate, h') →
  ∃ remaining,
    remaining_of (at_ g) = S remaining ∧
    _grid s = _grid (self g) ∧
    _total_iterations s = _total_iterations (self g) ∧
    _repeated_pattern_halted_the_game s
    = _repeated_pattern_halted_the_game (self g) ∧
    resume g h =
    match deque_count (_iteration_history s) candidate h' with
    | (Raise e, h'') => (Raised e, mkGen s Finished, h'')
    | (Ok n, h'') =>
        if (n =? MAX_COPIES_IN_HISTORY)%nat then
          (StopIteration, mkGen (set_halted s true) Finished, h'')
        else
          (Yield candidate,
           mkGen (set_total s (_total_iterations s + 1))
                 (AtLoopYield candidate remaining),
           h'')
    end.
Proof.
  unfold check_point, resume.
  destruct (at_ g) as [it|cur [|k]|nx [|k]|]; try done; unfold loop_head.
  - destruct (get_next_iteration (self g) cur h) as [[next|e] h1]; [|done].
    intros [= <- <- <-]. by exists k.
  - destruct (get_next_iteration _ nx h) as [[next|e] h1]; [|done].
    intros [= <- <- <-]. by exists k.
Qed.

(** C2: when the candidate generation that [get_next_iteration] has just
    returned is equal to exactly [MAX_COPIES_IN_HISTORY] grids of the history,
    counted before anything is appended for it, this [next()] ends the
    generator without yielding the candidate: the repeated-pattern flag is
    set, the history is the one the count was made on, the counter of
    completed iterations is what it was, and every later [next()] yields
    nothing and changes nothing. *)
Theorem repeated_pattern_halts g h s candidate h' h'' :
  check_point g h = Some (s, candidate, h') →
  deque_count (_iteration_history s) candidate h'
  = (Ok MAX_COPIES_IN_HISTORY, h'') →
  ∃ g',
    resume g h = (StopIteration, g', h'') ∧
    at_ g' = Finished ∧
    _repeated_pattern_halted_the_game (self g') = true ∧
    _iteration_history (self g') = _iteration_history s ∧
    _total_iterations (self g') = _total_iterations (self g) ∧
    ∀ h1, resume g' h1 = (StopIteration, g', h1).
Proof.
  intros Hc Hn.
  destruct (resume_at_check _ _ _ _ _ Hc) as (k & _ & _ & Ht & _ & E).
  rewrite Hn in E. simpl in E.
  eexists. split; [exact E|]. by split_and!.
Qed.

(** ** The history deque *)

Lemma deque_append_length {A} (maxlen : nat) (d : list A) x :
  (length d ≤ maxlen)%nat → (length (deque_append maxlen d x) ≤ maxlen)%nat.
Proof.
  intros Hd. unfold deque_append.
  destruct (Nat.ltb_spec maxlen (length (d ++ [x]))) as [Hlt|Hge]; [|done].
  rewrite length_tl, length_app. simpl. lia.
Qed.

Lemma deque_append_full {A} (maxlen : nat) (d : list A) x :
  (0 < maxlen)%nat → length d = maxlen →
  deque_append maxlen d x = tail d ++ [x].
Proof.
  intros Hpos Hd. unfold deque_append.
  destruct (Nat.ltb_spec maxlen (length (d ++ [x]))) as [Hlt|Hge].
  - destruct d; [simpl in Hd; lia|done].
  - rewrite length_app in Hge. simpl in Hge. lia.
Qed.

Lemma deque_append_room {A} (maxlen : nat) (d : list A) x :
  (length d < maxlen)%nat → deque_append maxlen d x = d ++ [x].
Proof.
  intros Hd. unfold deque_append.
  destruct (Nat.ltb_spec maxlen (length (d ++ [x]))) as [Hlt|Hge]; [|done].
  rewrite length_app in Hlt. simpl in Hlt. lia.
Qed.

Lemma resume_history_length g h :
  (length (_iteration_history (self g)) ≤ ITERATION_HISTORY_SIZE)%nat →
  (length (_iteration_history (self (resume g h).1.2)) ≤ ITERATION_HISTORY_SIZE)%nat.
Proof.
  intros Hl. unfold resume.
  assert (∀ s cur k,
            (length (_iteration_history s) ≤ ITERATION_HISTORY_SIZE)%nat →
            (length (_iteration_history (self (loop_head s cur k h).1.2))
             ≤ ITERATION_HISTORY_SIZE)%nat) as Hloop.
  { intros s cur [|k] Hs; unfold loop_head; [done|].
    destruct (get_next_iteration s cur h) as [[next|e] h1]; [|done].
    destruct (deque_count _ next h1) as [[n|e] h2]; [|done].
    by destruct (n =? MAX_COPIES_IN_HISTORY)%nat. }
  destruct (at_ g) as [it|cur k|nx k|]; simpl; [| |apply Hloop; simpl|done].
  - by apply deque_append_length.
  - by apply Hloop.
  - by apply deque_append_length.
Qed.

Lemma after_S k g h :
  after (S k) g h = after k (resume g h).1.2 (resume g h).2.
Proof. simpl. by destruct (resume g h) as [[sig g'] h']. Qed.

(** C8: in every run, after any number of calls of [next()], the history
    holds at most [ITERATION_HISTORY_SIZE] grids; each single [next()] keeps
    that bound; and an append to a full history drops its oldest grid and
    puts the new one last, while an append to a shorter one only adds. *)
Theorem history_bounded :
  (∀ cells iterations h k,
     (length (_iteration_history
                (self (after k (run_conways_game (ConwaysGameOfLife_init cells)
                                  iterations) h).1))
      ≤ ITERATION_HISTORY_SIZE)%nat) ∧
  (∀ g h,
     (length (_iteration_history (self g)) ≤ ITERATION_HISTORY_SIZE)%nat →
     (length (_iteration_history (self (resume g h).1.2))
      ≤ ITERATION_HISTORY_SIZE)%nat) ∧
  (∀ (d : list grid_ref) x,
     length d = ITERATION_HISTORY_SIZE →
     deque_append ITERATION_HISTORY_SIZE d x = tail d ++ [x]) ∧
  (∀ (d : list grid_ref) x,
     (length d < ITERATION_HISTORY_SIZE)%nat →
     deque_append ITERATION_HISTORY_SIZE d x = d ++ [x]).
Proof.
  split_and!.
  - intros cells iterations h k.
    assert (∀ k g h,
              (length (_iteration_history (self g)) ≤ ITERATION_HISTORY_SIZE)%nat →
              (length (_iteration_history (self (after k g h).1))
               ≤ ITERATION_HISTORY_SIZE)%nat) as Hall.
    { clear. induction k as [|k IH]; intros g h Hg; [done|].
      rewrite after_S. by apply IH, resume_history_length. }
    apply Hall. simpl. unfold ITERATION_HISTORY_SIZE. lia.
  - apply resume_history_length.
  - intros d x. apply deque_append_full. unfold ITERATION_HISTORY_SIZE. lia.
  - intros d x. apply deque_append_room.
Qed.

(** ** Counting in the history *)

Lemma count_value_foldl h (v : list (list cell)) (d : list grid_ref) (n : nat) :
  foldl (λ n r, if bool_decide (deref h r = Some v) then S n else n) n d
  = (n + count_value h d v)%nat.
Proof.
  unfold count_value. revert n.
  induction d as [|r d IH]; intros n; simpl; [lia|].
  rewrite IH, filter_cons. case_bool_decide; case_decide; try done; simpl; lia.
Qed.

Lemma deque_count_value h d c v :
  Forall (λ r, is_Some (deref h r)) d → deref h c = Some v →
  deque_count d c h = (Ok (count_value h d v), h).
Proof.
  intros Hd Hc. unfold deque_count.
  erewrite (for_fold_pure d _
              (λ n r, if bool_decide (deref h r = Some v) then S n else n)).
  - by rewrite count_value_foldl.
  - intros n r Hr. rewrite Forall_forall in Hd.
    destruct (Hd r Hr) as [w Hw].
    unfold bind, grid_eq. rewrite Hw, Hc.
    case_bool_decide as E1; case_bool_decide as E2; try done; congruence.
Qed.

Lemma count_value_preserved h h' d v :
  preserved h h' → Forall (λ r, is_Some (deref h r)) d →
  count_value h' d v = count_value h d v.
Proof.
  intros Hp Hd. unfold count_value.
  induction Hd as [|r d [w Hw] Hd IH]; [done|].
  rewrite !filter_cons.
  rewrite (preserved_deref h h' r w Hp Hw), Hw.
  repeat case_decide; simpl; try done; by rewrite IH.
Qed.

Lemma count_value_app h d d' v :
  count_value h (d ++ d') v = (count_value h d v + count_value h d' v)%nat.
Proof. unfold count_value. by rewrite filter_app, length_app. Qed.

Lemma count_value_tail h d v : (count_value h (tail d) v ≤ count_value h d v)%nat.
Proof.
  destruct d as [|r d]; [done|]. unfold count_value. simpl.
  rewrite filter_cons. case_decide; simpl; lia.
Qed.

Lemma count_value_append h maxlen d x v :
  (count_value h (deque_append maxlen d x) v
   ≤ count_value h d v + count_value h [x] v)%nat.
Proof.
  unfold deque_append. case_match.
  - etrans; [apply count_value_tail|]. by rewrite count_value_app.
  - by rewrite count_value_app.
Qed.

Lemma deque_append_elem_of {A} maxlen (d : list A) x a :
  a ∈ deque_append maxlen d x → a ∈ d ∨ a = x.
Proof.
  unfold deque_append. intros Ha.
  assert (a ∈ d ++ [x]) as Hin.
  { case_match; [|done]. destruct (d ++ [x]); [done|]. by right. }
  apply elem_of_app in Hin as [?|Hx]; [by left|].
  right. by apply list_elem_of_singleton in Hx.
Qed.

Lemma proper_is_Some h g rows cols : proper h g rows cols → is_Some (deref h g).
Proof. intros Hp. destruct (proper_deref _ _ _ _ Hp) as (G & HG & _). eauto. Qed.

(** ** The run invariant *)

(** After the pending append, the history still holds proper grids and no
    value more than [MAX_COPIES_IN_HISTORY] times. *)
Lemma pending_append_inv g h r :
  run_inv g h → pending g = Some r →
  Forall (λ r', proper h r' (_rows (_grid (self g))) (_cols (_grid (self g))))
    (r :: deque_append ITERATION_HISTORY_SIZE (_iteration_history (self g)) r) ∧
  ∀ v, (count_value h
          (deque_append ITERATION_HISTORY_SIZE (_iteration_history (self g)) r) v
        ≤ MAX_COPIES_IN_HISTORY)%nat.
Proof.
  intros (Hheld & Hcount & Hpend) Hr.
  assert (Forall (λ r', proper h r' (_rows (_grid (self g))) (_cols (_grid (self g))))
            (r :: _iteration_history (self g))) as Hall.
  { unfold held, pending in *. destruct (at_ g); simplify_eq; done. }
  split.
  - apply Forall_cons in Hall as [Hpr Hhist]. constructor; [done|].
    apply Forall_forall. intros a Ha.
    apply deque_append_elem_of in Ha as [Ha| ->]; [|done].
    rewrite Forall_forall in Hhist. by apply Hhist.
  - intros v. etrans; [apply count_value_append|].
    apply Forall_cons in Hall as [Hpr _].
    destruct (proper_is_Some _ _ _ _ Hpr) as [w Hw].
    unfold count_value at 2. rewrite filter_cons, filter_nil.
    case_decide as Hv; simpl.
    + assert (w = v) as -> by congruence.
      specialize (Hpend r v Hr Hw). lia.
    + specialize (Hcount v). lia.
Qed.

(** The candidate and the count at the repeat check, from a history of
    proper grids that holds no value more than [MAX_COPIES_IN_HISTORY]
    times. *)
Lemma candidate_count s cur h :
  Forall (λ r, proper h r (_rows (_grid s)) (_cols (_grid s)))
    (cur :: _iteration_history s) →
  (∀ v, (count_value h (_iteration_history s) v ≤ MAX_COPIES_IN_HISTORY)%nat) →
  ∃ next h' v,
    get_next_iteration s cur h = (Ok next, h') ∧
    preserved h h' ∧
    Forall (λ r, proper h' r (_rows (_grid s)) (_cols (_grid s)))
      (next :: _iteration_history s) ∧
    deref h' next = Some v ∧
    deque_count (_iteration_history s) next h'
    = (Ok (count_value h' (_iteration_history s) v), h') ∧
    ∀ w, (count_value h' (_iteration_history s) w ≤ MAX_COPIES_IN_HISTORY)%nat.
Proof.
  intros Hall Hcount.
  apply Forall_cons in Hall as [Hcur Hhist].
  destruct (proper_deref _ _ _ _ Hcur) as (G & HG & Hrect).
  destruct (get_next_iteration_proper s h cur G Hcur HG)
    as (next & h' & E & _ & Hpres & Hnext & HG').
  assert (Forall (λ r, proper h' r (_rows (_grid s)) (_cols (_grid s)))
            (_iteration_history s)) as Hhist'.
  { eapply Forall_impl; [done|]. intros r. by apply preserved_proper. }
  assert (Forall (λ r, is_Some (deref h r)) (_iteration_history s)) as Hsome.
  { eapply Forall_impl; [exact Hhist|]. intros r. apply proper_is_Some. }
  assert (Forall (λ r, is_Some (deref h' r)) (_iteration_history s)) as Hsome'.
  { eapply Forall_impl; [exact Hhist'|]. intros r. apply proper_is_Some. }
  eexists next, h', _. split_and!; [done|done|by constructor|exact HG'| |].
  - by apply deque_count_value.
  - intros w. by rewrite (count_value_preserved h h').
Qed.

(** One pass from the head of the loop keeps the invariant and raises
    nothing. *)
Lemma loop_head_inv s cur k h :
  Forall (λ r, proper h r (_rows (_grid s)) (_cols (_grid s)))
    (cur :: _iteration_history s) →
  (∀ v, (count_value h (_iteration_history s) v ≤ MAX_COPIES_IN_HISTORY)%nat) →
  run_inv (loop_head s cur k h).1.2 (loop_head s cur k h).2 ∧
  preserved h (loop_head s cur k h).2 ∧
  _grid (self (loop_head s cur k h).1.2) = _grid s ∧
  ∀ e, (loop_head s cur k h).1.1 ≠ Raised e.
Proof.
  intros Hall Hcount.
  destruct k as [|k]; unfold loop_head.
  { apply Forall_cons in Hall as [Hcur Hhist].
    simpl. split_and!; [|apply preserved_refl|done..].
    split_and!; [done|done|]. by intros r v [=]. }
  destruct (candidate_count s cur h Hall Hcount)
    as (next & h' & v & E & Hpres & Hall' & Hv & Hn & Hcount').
  rewrite E, Hn.
  destruct (Nat.eqb_spec (count_value h' (_iteration_history s) v)
              MAX_COPIES_IN_HISTORY) as [Heq|Hne]; simpl.
  - apply Forall_cons in Hall' as [_ Hhist'].
    split_and!; [|done..]. split_and!; [done|done|]. by intros r w [=].
  - split_and!; [|done..]. split_and!; simpl; [done|done|].
    unfold pending. simpl. intros r w [= <-] Hw.
    assert (w = v) as -> by congruence.
    specialize (Hcount' v). lia.
Qed.

Lemma run_inv_resume g h :
  run_inv g h →
  run_inv (resume g h).1.2 (resume g h).2 ∧
  preserved h (resume g h).2 ∧
  _grid (self (resume g h).1.2) = _grid (self g) ∧
  ∀ e, (resume g h).1.1 ≠ Raised e.
Proof.
  intros Hinv. unfold resume.
  destruct (at_ g) as [it|cur k|nx k|] eqn:Hat.
  - destruct (pending_append_inv g h (_cells (_grid (self g))) Hinv) as [Hall Hc].
    { unfold pending. by rewrite Hat. }
    simpl. split_and!; [|apply preserved_refl|done..].
    split_and!; [done|done|]. by intros r v [=].
  - destruct Hinv as (Hheld & Hcount & _).
    unfold held in Hheld. rewrite Hat in Hheld.
    by apply loop_head_inv.
  - destruct (pending_append_inv g h nx Hinv) as [Hall Hc].
    { unfold pending. by rewrite Hat. }
    exact (loop_head_inv
             (set_history (self g)
                (deque_append ITERATION_HISTORY_SIZE (_iteration_history (self g)) nx))
             nx k h Hall Hc).
  - simpl. split_and!; [done|apply preserved_refl|done..].
Qed.

Lemma run_inv_start cells iterations h :
  proper h (_cells cells) (_rows cells) (_cols cells) →
  run_inv (run_conways_game (ConwaysGameOfLife_init cells) iterations) h.
Proof.
  intros Hp. split_and!; simpl.
  - unfold held. simpl. by constructor.
  - intros v. unfold count_value, MAX_COPIES_IN_HISTORY. simpl. lia.
  - intros r v _ _. unfold count_value, MAX_COPIES_IN_HISTORY. simpl. lia.
Qed.

Lemma run_inv_after k :
  ∀ g h, run_inv g h → run_inv (after k g h).1 (after k g h).2.
Proof.
  induction k as [|k IH]; intros g h Hinv; [done|].
  rewrite after_S. by apply IH, run_inv_resume.
Qed.


Lemma check_point_inv g h s candidate h' :
  run_inv g h → check_point g h = Some (s, candidate, h') →
  ∃ v,
    deref h' candidate = Some v ∧
    deque_count (_iteration_history s) candidate h'
    = (Ok (count_value h' (_iteration_history s) v), h') ∧
    ∀ w, (count_value h' (_iteration_history s) w ≤ MAX_COPIES_IN_HISTORY)%nat.
Proof.
  intros Hinv. unfold check_point.
  destruct (at_ g) as [it|cur [|k]|nx [|k]|] eqn:Hat; try done.
  - destruct Hinv as (Hheld & Hcount & _).
    unfold held in Hheld. rewrite Hat in Hheld.
    destruct (candidate_count (self g) cur h Hheld Hcount)
      as (next & h1 & v & E & _ & _ & Hv & Hn & Hcount').
    rewrite E. intros [= <- <- <-]. eauto.
  - destruct (pending_append_inv g h nx Hinv) as [Hall Hc].
    { unfold pending. by rewrite Hat. }
    destruct (candidate_count
                (set_history (self g)
                   (deque_append ITERATION_HISTORY_SIZE
                      (_iteration_history (self g)) nx))
                nx h Hall Hc)
      as (next & h1 & v & E & _ & _ & Hv & Hn & Hcount').
    rewrite E. intros [= <- <- <-]. eauto.
Qed.

(** C10: in a run on a proper grid, at every repeat check the number of
    grids of the history that are equal to the candidate is at most
    [MAX_COPIES_IN_HISTORY] (and so is the number of grids equal to any one
    value), so that the test for equality with [MAX_COPIES_IN_HISTORY] made
    by the code and a test for having reached it give the same answer. *)
Theorem repeat_count_never_exceeds cells iterations h k s candidate h' :
  proper h (_cells cells) (_rows cells) (_cols cells) →
  check_point
    (after k (run_conways_game (ConwaysGameOfLife_init cells) iterations) h).1
    (after k (run_conways_game (ConwaysGameOfLife_init cells) iterations) h).2
  = Some (s, candidate, h') →
  ∃ n,
    deque_count (_iteration_history s) candidate h' = (Ok n, h') ∧
    (n ≤ MAX_COPIES_IN_HISTORY)%nat ∧
    (n =? MAX_COPIES_IN_HISTORY)%nat = (MAX_COPIES_IN_HISTORY <=? n)%nat ∧
    ∀ w, (count_value h' (_iteration_history s) w ≤ MAX_COPIES_IN_HISTORY)%nat.
Proof.
  intros Hp Hc.
  pose proof (run_inv_after k _ _ (run_inv_start cells iterations h Hp)) as Hinv.
  destruct (check_point_inv _ _ _ _ _ Hinv Hc) as (v & Hv & Hn & Hcount).
  eexists. split; [exact Hn|]. specialize (Hcount v) as Hle.
  split_and!; [done| |done].
  destruct (Nat.eqb_spec (count_value h' (_iteration_history s) v)
              MAX_COPIES_IN_HISTORY) as [->|Hne].
  - symmetry. by apply Nat.leb_le.
  - symmetry. apply Nat.leb_gt. lia.
Qed.

(** ** Runs that the repeat check never stops *)

(** A suspended generator in the loop, with [k] passes left. *)
Lemma resume_no_repeat g h k :
  run_inv g h →
  (∃ r, at_ g = AtFirstYield r (S k) ∨ at_ g = AtLoopYield r (S k)) →
  repeat_detected g h = false →
  ∃ next g' h',
    resume g h = (Yield next, g', h') ∧
    at_ g' = AtLoopYield next k ∧
    _total_iterations (self g') = _total_iterations (self g) + 1 ∧
    _repeated_pattern_halted_the_game (self g')
    = _repeated_pattern_halted_the_game (self g).
Proof.
  intros Hinv Hat Hno.
  assert (∃ s candidate h', check_point g h = Some (s, candidate, h'))
    as (s & candidate & h' & Hc).
  { unfold check_point.
    destruct Hat as (r & [Hat|Hat]); rewrite Hat.
    - destruct Hinv as (Hheld & Hcount & _).
      unfold held in Hheld. rewrite Hat in Hheld.
      destruct (candidate_count (self g) r h Hheld Hcount)
        as (next & h1 & v & E & _). rewrite E. eauto.
    - destruct (pending_append_inv g h r Hinv) as [Hall Hcnt].
      { unfold pending. by rewrite Hat. }
      destruct (candidate_count
                  (set_history (self g)
                     (deque_append ITERATION_HISTORY_SIZE
                        (_iteration_history (self g)) r))
                  r h Hall Hcnt)
        as (next & h1 & v & E & _). rewrite E. eauto. }
  destruct (check_point_inv _ _ _ _ _ Hinv Hc) as (v & Hv & Hn & _).
  destruct (resume_at_check _ _ _ _ _ Hc) as (k' & Hk' & _ & Ht & Hf & E).
  unfold repeat_detected in Hno. rewrite Hc, Hn in Hno.
  rewrite Hn, Hno in E.
  assert (k' = k) as ->.
  { destruct Hat as (r & [Hat|Hat]); rewrite Hat in Hk'; simpl in Hk'; lia. }
  eexists _, _, _. split; [exact E|]. simpl. split_and!; [done| |done].
  by rewrite Ht.
Qed.

Lemma resume_loop_end g h :
  (∃ r, at_ g = AtFirstYield r 0 ∨ at_ g = AtLoopYield r 0) →
  ∃ g',
    resume g h = (StopIteration, g', h) ∧
    at_ g' = Finished ∧
    _total_iterations (self g') = _total_iterations (self g) ∧
    _repeated_pattern_halted_the_game (self g')
    = _repeated_pattern_halted_the_game (self g).
Proof.
  intros (r & [Hat|Hat]); unfold resume; rewrite Hat; simpl; eauto.
Qed.

Lemma first_step g h :
  (∃ iterations, at_ g = NotStarted iterations) →
  ∃ g',
    resume g h = (Yield (_cells (_grid (self g))), g', h) ∧
    at_ g' = AtFirstYield (_cells (_grid (self g))) (remaining_of (at_ g)) ∧
    _total_iterations (self g') = _total_iterations (self g) ∧
    _repeated_pattern_halted_the_game (self g')
    = _repeated_pattern_halted_the_game (self g).
Proof.
  intros [it Hat]. unfold resume. rewrite Hat. simpl. eauto.
Qed.

Lemma consume_loop k :
  ∀ g h,
    run_inv g h →
    (∃ r, at_ g = AtFirstYield r k ∨ at_ g = AtLoopYield r k) →
    (∀ j, (j < k)%nat → repeat_detected (after j g h).1 (after j g h).2 = false) →
    ∃ xs g' h',
      consume (S k) g h = (xs, Some StopIteration, g', h') ∧
      length xs = k ∧
      _total_iterations (self g') = _total_iterations (self g) + Z.of_nat k ∧
      _repeated_pattern_halted_the_game (self g')
      = _repeated_pattern_halted_the_game (self g) ∧
      at_ g' = Finished.
Proof.
  induction k as [|k IH]; intros g h Hinv Hat Hno.
  - destruct (resume_loop_end g h Hat) as (g' & E & Hfin & Ht & Hf).
    exists [], g', h. simpl. rewrite E. split_and!; [done|done| |done|done].
    rewrite Ht. lia.
  - destruct (resume_no_repeat g h k Hinv Hat) as (next & g1 & h1 & E & Hat1 & Ht1 & Hf1).
    { apply (Hno 0%nat). lia. }
    pose proof (run_inv_resume g h Hinv) as (Hinv1 & _).
    rewrite E in Hinv1. simpl in Hinv1.
    destruct (IH g1 h1 Hinv1) as (xs & g' & h' & Ec & Hlen & Ht & Hf & Hfin).
    { eauto. }
    { intros j Hj. specialize (Hno (S j)). rewrite after_S, E in Hno.
      apply Hno. lia. }
    exists (next :: xs), g', h'.
    change (consume (S (S k)) g h) with
      (match resume g h with
       | (Yield x, g', h') =>
           let '(xs, fin, g'', h'') := consume (S k) g' h' in
           (x :: xs, fin, g'', h'')
       | (sig, g', h') => ([], Some sig, g', h')
       end).
    rewrite E, Ec. split_and!; [done|simpl; lia| |congruence|done].
    rewrite Ht, Ht1. lia.
Qed.

(** C4: in a run on a proper grid with [N ≥ 0] iterations in which no
    [next()] finds the repeat check true, the consumer receives the initial
    grid and then exactly [N] more generations; the generator then stops by
    itself (the [N + 2]nd [next()] ends it), the counter of completed
    iterations is [N] and the repeated-pattern flag is not set. *)
Theorem iteration_limit_run cells N h :
  proper h (_cells cells) (_rows cells) (_cols cells) →
  0 ≤ N →
  (∀ k, (k ≤ Z.to_nat N)%nat →
        repeat_detected
          (after k (run_conways_game (ConwaysGameOfLife_init cells) N) h).1
          (after k (run_conways_game (ConwaysGameOfLife_init cells) N) h).2
        = false) →
  ∃ xs g' h',
    consume (S (S (Z.to_nat N)))
      (run_conways_game (ConwaysGameOfLife_init cells) N) h
    = (_cells cells :: xs, Some StopIteration, g', h') ∧
    Z.of_nat (length xs) = N ∧
    _total_iterations (self g') = N ∧
    _repeated_pattern_halted_the_game (self g') = false ∧
    at_ g' = Finished.
Proof.
  intros Hp HN Hno.
  set (g0 := run_conways_game (ConwaysGameOfLife_init cells) N) in *.
  pose proof (run_inv_resume g0 h (run_inv_start cells N h Hp)) as (Hinv1 & _).
  destruct (first_step g0 h) as (g1 & E & Hat1 & Ht1 & Hf1); [by eexists|].
  rewrite E in Hinv1. simpl in Hinv1.
  destruct (consume_loop (Z.to_nat N) g1 h Hinv1)
    as (xs & g' & h' & Ec & Hlen & Ht & Hf & Hfin).
  { eauto. }
  { intros j Hj. specialize (Hno (S j)). rewrite after_S, E in Hno.
    apply Hno. lia. }
  exists xs, g', h'.
  change (consume (S (S (Z.to_nat N))) g0 h) with
    (match resume g0 h with
     | (Yield x, g', h') =>
         let '(xs, fin, g'', h'') := consume (S (Z.to_nat N)) g' h' in
         (x :: xs, fin, g'', h'')
     | (sig, g', h') => ([], Some sig, g', h')
     end).
  rewrite E, Ec. split_and!; [done|lia| |by rewrite Hf, Hf1|done].
  rewrite Ht, Ht1. simpl. lia.
Qed.


(** ** Grid construction: padding *)

Lemma for_each_list {A St} (l : list A) (body : A → M unit)
    (R : St → heap → Prop) (f : St → A → St) :
  (∀ s a h, a ∈ l → R s h → ∃ h', body a h = (Ok tt, h') ∧ R (f s a) h') →
  ∀ s h, R s h → ∃ h', for_each l body h = (Ok tt, h') ∧ R (foldl f s l) h'.
Proof.
  induction l as [|a l IH]; intros Hbody s h HR; simpl.
  - by exists h.
  - destruct (Hbody s a h) as (h1 & E1 & HR1); [by left|done|].
    destruct (IH (λ s a h Ha, Hbody s a h (list_elem_of_further _ _ _ Ha))
                 (f s a) h1 HR1) as (h2 & E2 & HR2).
    exists h2. split; [|done]. by erewrite bind_ok.
Qed.

Lemma longer_foldl h rs G :
  Forall2 (λ r cs, row_objs h !! r = Some cs) rs G →
  ∀ b n cs,
    row_objs h !! b = Some cs → length cs = n →
    ∃ cs',
      row_objs h !! (foldl (longer h) (b, n) rs).1 = Some cs' ∧
      length cs' = (foldl (longer h) (b, n) rs).2 ∧
      (foldl (longer h) (b, n) rs).2 = (n `max` max_list_with length G)%nat.
Proof.
  induction 1 as [|r cs1 rs G Hr HF IH]; intros b n cs Hb Hn; simpl.
  - exists cs. split_and!; [done|done|lia].
  - unfold longer at 2 4 6. rewrite Hr. simpl.
    destruct (Nat.ltb_spec n (length cs1)) as [Hlt|Hge].
    + destruct (IH r (length cs1) cs1 Hr eq_refl) as (cs' & H1 & H2 & H3).
      exists cs'. split_and!; [done|done|]. rewrite H3. lia.
    + destruct (IH b n cs Hb Hn) as (cs' & H1 & H2 & H3).
      exists cs'. split_and!; [done|done|]. rewrite H3. lia.
Qed.

Lemma max_key_len_at h g rs G :
  grid_at h g rs G → G ≠ [] →
  ∃ longest cs,
    max_key_len g h = (Ok longest, h) ∧
    row_objs h !! longest = Some cs ∧
    length cs = max_list_with length G.
Proof.
  intros [Hg HF] Hne. unfold max_key_len.
  erewrite bind_ok; [|unfold load_grid; by rewrite Hg].
  destruct HF as [|r0 cs0 rs G Hr0 HF]; [done|].
  erewrite bind_ok; [|unfold load_row; by rewrite Hr0].
  erewrite bind_ok; cycle 1.
  { apply (for_fold_pure rs _ (longer h)).
    intros best r Hr. unfold longer.
    destruct (list_elem_of_lookup_1 _ _ Hr) as [i Hi].
    destruct (Forall2_lookup_l _ _ _ _ _ HF Hi) as (cs & _ & Hcs).
    unfold bind, load_row. rewrite Hcs. by case_match. }
  destruct (longer_foldl h rs G HF r0 (length cs0) cs0 Hr0 eq_refl)
    as (cs' & H1 & H2 & H3).
  exists (foldl (longer h) (r0, length cs0) rs).1, cs'.
  split_and!; [done|done|]. by rewrite H2, H3.
Qed.

Lemma pad_row_idemp L cs : pad_row L (pad_row L cs) = pad_row L cs.
Proof.
  unfold pad_row.
  destruct (Nat.eqb_spec (length cs) L) as [E|E]; simpl.
  - by rewrite E, Nat.eqb_refl.
  - destruct (Nat.eqb_spec (length (cs ++ replicate (L - length cs) DEAD)) L)
      as [E'|E']; simpl; [done|].
    rewrite length_app, length_replicate in E'.
    rewrite length_app, length_replicate.
    replace (L - (length cs + (L - length cs)))%nat with 0%nat by lia.
    simpl. by rewrite app_nil_r.
Qed.

Lemma pad_row_short L cs :
  (length cs ≤ L)%nat → pad_row L cs = cs ++ replicate (L - length cs) DEAD.
Proof.
  intros Hle. unfold pad_row.
  destruct (Nat.eqb_spec (length cs) L) as [E|E]; simpl; [|done].
  rewrite E, Nat.sub_diag. simpl. by rewrite app_nil_r.
Qed.

Lemma pad_row_length L cs : (length cs ≤ L)%nat → length (pad_row L cs) = L.
Proof.
  intros Hle. rewrite pad_row_short, length_app, length_replicate by done. lia.
Qed.

(** The rows after the padding loop has visited the row objects [rs]: a row
    object that occurs several times is padded once. *)
Lemma pad_foldl_lookup L (rs : list row_ref) :
  ∀ (R : list (list cell)) r,
    foldl (λ R r, alter (pad_row L) r R) R rs !! r
    = if decide (r ∈ rs) then pad_row L <$> R !! r else R !! r.
Proof.
  induction rs as [|r1 rs IH]; intros R r; [done|].
  - change (foldl (λ R r, alter (pad_row L) r R) R (r1 :: rs))
      with (foldl (λ R r, alter (pad_row L) r R) (alter (pad_row L) r1 R) rs).
    rewrite IH, list_lookup_alter.
    destruct (decide (r ∈ rs)) as [Hin|Hnin], (decide (r1 = r)) as [->|Hne],
      (decide (r ∈ _ :: rs)) as [Hin'|Hnin']; try done.
    + destruct (R !! r) as [cs|]; simpl; [|done]. by rewrite pad_row_idemp.
    + exfalso. apply Hnin'. by left.
    + exfalso. apply Hnin'. by right.
    + exfalso. apply Hnin'. by left.
    + exfalso. apply elem_of_cons in Hin' as [?|?]; done.
Qed.

Lemma pad_loop L rs R Gs :
  Forall (λ r, is_Some (R !! r)) rs →
  for_each rs (λ row,
    let! cs := load_row row in
    if negb (length cs =? L)%nat
    then store_row row (cs ++ replicate (L - length cs)%nat DEAD)
    else ret tt) (Heap R Gs)
  = (Ok tt, Heap (foldl (λ R r, alter (pad_row L) r R) R rs) Gs).
Proof.
  intros Hvalid.
  destruct (for_each_list rs
              (λ row,
                 let! cs := load_row row in
                 if negb (length cs =? L)%nat
                 then store_row row (cs ++ replicate (L - length cs)%nat DEAD)
                 else ret tt)
              (λ (R' : list (list cell)) h,
                 h = Heap R' Gs ∧ length R' = length R)
              (λ R' r, alter (pad_row L) r R')) with R (Heap R Gs)
    as (h' & E & -> & _); [|done|done].
  intros R' r h Hr [-> Hlen].
  assert (is_Some (R' !! r)) as [cs Hcs].
  { rewrite Forall_forall in Hvalid. apply lookup_lt_is_Some.
    rewrite Hlen. apply lookup_lt_is_Some. by apply Hvalid. }
  exists (Heap (alter (pad_row L) r R') Gs).
  split; [|by rewrite length_alter].
  unfold bind, load_row, store_row. simpl. rewrite Hcs.
  rewrite <- (insert_as_alter (pad_row L) R' r cs Hcs).
  unfold pad_row. destruct (negb (length cs =? L)%nat); simpl.
  - by rewrite Hcs.
  - by rewrite list_insert_id.
Qed.

Lemma pad_cells_at h cells rs G :
  grid_at h cells rs G → G ≠ [] →
  pad_cells cells h
  = (Ok (length (grid_objs h)),
     Heap (foldl (λ R r, alter (pad_row (max_list_with length G)) r R)
             (row_objs h) rs)
          (grid_objs h ++ [rs])).
Proof.
  intros Hg Hne. unfold pad_cells.
  erewrite bind_ok; [|apply copy_at, Hg].
  pose proof (grid_at_fresh h rs G (grid_objs h) (proj2 Hg) eq_refl) as Hg1.
  destruct (max_key_len_at _ _ _ _ Hg1 Hne) as (longest & cs & E & Hcs & Hlen).
  erewrite bind_ok; [|exact E].
  erewrite bind_ok; [|unfold load_row; simpl in *; by rewrite Hcs].
  erewrite bind_ok; [|unfold load_grid; simpl; by rewrite list_lookup_middle].
  rewrite Hlen. erewrite bind_ok; [done|].
  apply pad_loop. simpl.
  apply Forall_forall. intros r Hr.
  destruct (list_elem_of_lookup_1 _ _ Hr) as [i Hi].
  destruct (Forall2_lookup_l _ _ _ _ _ (proj2 Hg) Hi) as (cs' & _ & Hcs').
  eauto.
Qed.


Lemma max_list_with_length_le (G : list (list cell)) cs :
  cs ∈ G → (length cs ≤ max_list_with length G)%nat.
Proof.
  induction 1 as [cs G|cs cs' G _ IH]; simpl; lia.
Qed.

(** [pad_cells] on any non-empty grid, in terms of the value of the grid. *)
Lemma pad_cells_deref h cells G :
  deref h cells = Some G → G ≠ [] →
  ∃ padded h',
    pad_cells cells h = (Ok padded, h') ∧
    deref h' padded
    = Some ((λ row, row ++ replicate (max_list_with length G - length row) DEAD)
              <$> G).
Proof.
  intros Hd Hne. apply deref_grid_at in Hd as [rs Hg].
  eexists _, _. split; [by apply pad_cells_at|].
  apply deref_grid_at. exists rs. split; simpl.
  { by rewrite list_lookup_middle. }
  apply Forall2_same_length_lookup_2.
  { rewrite length_fmap. apply (Forall2_length _ _ _ (proj2 Hg)). }
  intros i r cs' Hr Hcs'.
  rewrite list_lookup_fmap in Hcs'.
  destruct (G !! i) as [cs|] eqn:Hcs; simplify_eq/=.
  rewrite pad_foldl_lookup, decide_True by by eapply list_elem_of_lookup_2.
  rewrite (Forall2_lookup_lr _ _ _ _ _ _ (proj2 Hg) Hr Hcs). simpl.
  f_equal. apply pad_row_short, max_list_with_length_le.
  by eapply list_elem_of_lookup_2.
Qed.

(** C7: [pad_cells] turns any non-empty list of rows into a grid in which
    every row is the input row followed by as many dead cells as it lacks to
    the length of the longest row, so that all rows have that length; and
    [Grid] built from the five ragged rows of the test pattern is the 5 by 5
    grid with the shorter rows padded on the right with dead cells. *)
Theorem pad_cells_equal_lengths :
  (∀ h cells G,
     deref h cells = Some G → G ≠ [] →
     ∃ padded h' G',
       pad_cells cells h = (Ok padded, h') ∧
       deref h' padded = Some G' ∧
       G' = (λ row, row ++ replicate (max_list_with length G - length row) DEAD)
              <$> G ∧
       rectangular G' (length G) (max_list_with length G)) ∧
  (∀ rnd,
     ∃ grid h',
       Grid_init rnd (Some ragged_pattern) empty_heap = (Ok grid, h') ∧
       _rows grid = 5%nat ∧ _cols grid = 5%nat ∧
       deref h' (_cells grid)
       = Some [ ["*"; "-"; "*"; "-"; "*"];
                ["-"; "*"; "*"; "-"; "-"];
                ["*"; "-"; "-"; "-"; "-"];
                ["-"; "-"; "-"; "-"; "-"];
                ["-"; "*"; "*"; "-"; "-"] ]).
Proof.
  split.
  - intros h cells G Hd Hne.
    destruct (pad_cells_deref h cells G Hd Hne) as (padded & h' & E & Hd').
    eexists padded, h', _. split_and!; [done|done|done|].
    split; [by rewrite length_fmap|].
    apply Forall_fmap, Forall_forall. intros cs Hcs. simpl.
    pose proof (max_list_with_length_le G cs Hcs).
    rewrite length_app, length_replicate. lia.
  - intros rnd. eexists _, _. split; [vm_compute; reflexivity|].
    by vm_compute.
Qed.

(** ** Grid construction: patterns without rows *)

Lemma new_rows_at css :
  ∀ R Gs,
    new_rows css (Heap R Gs) = (Ok (seq (length R) (length css)), Heap (R ++ css) Gs).
Proof.
  induction css as [|cs css IH]; intros R Gs; simpl.
  - by rewrite app_nil_r.
  - unfold bind at 1, new_row. simpl.
    erewrite bind_ok; [|apply IH].
    unfold ret. rewrite length_app, <- app_assoc. simpl.
    by rewrite Nat.add_1_r.
Qed.

Lemma filter_nonempty_none rs h :
  Forall (λ r, row_objs h !! r = Some []) rs →
  filter_nonempty rs h = (Ok [], h).
Proof.
  induction 1 as [|r rs Hr _ IH]; simpl; [done|].
  erewrite bind_ok; [|unfold load_row; by rewrite Hr].
  erewrite bind_ok; [|exact IH]. done.
Qed.

Lemma pad_cells_no_rows h cells :
  grid_objs h !! cells = Some [] →
  pad_cells cells h
  = (Raise ValueError, Heap (row_objs h) (grid_objs h ++ [[]])).
Proof.
  intros Hg. unfold pad_cells.
  erewrite bind_ok; [|by apply copy_at].
  erewrite bind_raise; [done|].
  unfold max_key_len.
  erewrite bind_ok; [|unfold load_grid; simpl; by rewrite list_lookup_middle].
  done.
Qed.

(** A grid object made of new row objects, and the [Grid] around it. *)
Lemma rows_to_Grid (css : list (list cell)) row0 css' R Gs :
  css = row0 :: css' →
  (let! cells := (let! rs := new_rows css in new_grid rs) in
   let! rs := load_grid cells in
   let! r0 := lift (getitem rs 0) in
   let! row0 := load_row r0 in
   ret {| _cells := cells; _cols := length row0; _rows := length rs |})
    (Heap R Gs)
  = (Ok {| _cells := length Gs; _cols := length row0; _rows := length css |},
     Heap (R ++ css) (Gs ++ [seq (length R) (length css)])) ∧
  deref (Heap (R ++ css) (Gs ++ [seq (length R) (length css)])) (length Gs)
  = Some css.
Proof.
  intros Ecss.
  assert (grid_at (Heap (R ++ css) (Gs ++ [seq (length R) (length css)]))
            (length Gs) (seq (length R) (length css)) css) as Hg.
  { split; [by apply list_lookup_middle|].
    apply Forall2_same_length_lookup_2; [by rewrite length_seq|].
    intros i r cs Hr Hcs. apply lookup_seq in Hr as [-> Hi].
    cbn [row_objs]. rewrite lookup_app_r by lia.
    by replace (length R + i - length R)%nat with i by lia. }
  destruct (grid_at_lookup _ _ _ _ 0%nat row0 Hg) as (r0 & Hr0 & Hrow0);
    [by rewrite Ecss|].
  split; [|apply deref_grid_at; eauto].
  erewrite bind_ok; cycle 1.
  { erewrite bind_ok; [|apply new_rows_at]. reflexivity. }
  cbn [grid_objs row_objs].
  erewrite bind_ok; [|unfold load_grid; by rewrite (proj1 Hg)].
  erewrite bind_ok;
    [|unfold lift; by rewrite (getitem_nat _ 0%nat r0 Hr0 : getitem _ 0 = _)].
  erewrite bind_ok; [|unfold load_row; by rewrite Hrow0].
  unfold ret. by rewrite length_seq.
Qed.

(** C6 (as the code has it): a pattern that is not the empty string and all
    of whose lines are empty once the spaces are removed cannot be made into
    a [Grid]: the construction raises ValueError, whatever the store and the
    random source.  The empty string is no such pattern: like a missing
    pattern, it asks for a random grid of [GRID_SIZE] by [GRID_SIZE] cells,
    and the construction succeeds. *)
Theorem no_rows_is_an_error :
  (∀ rnd pattern h,
     pattern ≠ EmptyString →
     Forall (λ line, line = EmptyString) (splitlines (remove_spaces pattern)) →
     ∃ h', Grid_init rnd (Some pattern) h = (Raise ValueError, h')) ∧
  (∀ rnd h,
     ∃ grid h',
       Grid_init rnd (Some EmptyString) h = (Ok grid, h') ∧
       Grid_init rnd None h = (Ok grid, h') ∧
       _rows grid = GRID_SIZE ∧ _cols grid = GRID_SIZE ∧
       deref h' (_cells grid) = Some (map (random_row rnd) (seq 0 GRID_SIZE))).
Proof.
  split.
  - intros rnd pattern h Hne Hlines.
    destruct pattern as [|c p]; [done|].
    unfold Grid_init, cells_to_grid.
    set (lines := splitlines (remove_spaces (String c p))) in *.
    assert (map list_of_str lines = replicate (length lines) []) as Hrows.
    { clearbody lines. induction Hlines as [|l ls -> _ IH]; [done|].
      simpl. by rewrite IH. }
    rewrite Hrows. destruct h as [R Gs].
    eexists. erewrite bind_raise; [done|].
    erewrite bind_ok; [|apply new_rows_at].
    erewrite bind_ok; [|reflexivity].
    erewrite bind_ok; [|unfold load_grid; simpl; by rewrite list_lookup_middle].
    erewrite bind_ok; cycle 1.
    { apply filter_nonempty_none. simpl.
      apply Forall_forall. intros r Hr.
      apply elem_of_seq in Hr. rewrite length_replicate in Hr.
      rewrite lookup_app_r by lia.
      apply lookup_replicate_2. lia. }
    erewrite bind_ok; [|reflexivity].
    apply pad_cells_no_rows. simpl. by rewrite list_lookup_middle.
  - intros rnd [R Gs].
    destruct (rows_to_Grid (map (random_row rnd) (seq 0 GRID_SIZE))
                (random_row rnd 0) (map (random_row rnd) (seq 1 (GRID_SIZE - 1)))
                R Gs eq_refl) as (E & Hd).
    eexists _, _. split_and!; [exact E|exact E|done|reflexivity|exact Hd].
Qed.


(** ** Every Grid that is built is proper *)

Lemma filter_nonempty_at rs h :
  Forall (λ r, is_Some (row_objs h !! r)) rs →
  filter_nonempty rs h
  = (Ok (filter (λ r, row_objs h !! r ≠ Some []) rs), h).
Proof.
  induction 1 as [|r rs [cs Hcs] _ IH]; simpl; [done|].
  erewrite bind_ok; [|unfold load_row; by rewrite Hcs].
  erewrite bind_ok; [|exact IH].
  rewrite filter_cons, Hcs.
  case_bool_decide as E; case_decide as E'; simpl; try done; by simplify_eq.
Qed.

Lemma pad_cells_grid_at h cells rs G :
  grid_at h cells rs G → G ≠ [] →
  grid_at
    (Heap (foldl (λ R r, alter (pad_row (max_list_with length G)) r R)
             (row_objs h) rs)
          (grid_objs h ++ [rs]))
    (length (grid_objs h)) rs (pad_row (max_list_with length G) <$> G).
Proof.
  intros Hg Hne. split; simpl.
  { by rewrite list_lookup_middle. }
  apply Forall2_same_length_lookup_2.
  { rewrite length_fmap. apply (Forall2_length _ _ _ (proj2 Hg)). }
  intros i r cs' Hr Hcs'.
  rewrite list_lookup_fmap in Hcs'.
  destruct (G !! i) as [cs|] eqn:Hcs; simplify_eq/=.
  rewrite pad_foldl_lookup, decide_True by by eapply list_elem_of_lookup_2.
  by rewrite (Forall2_lookup_lr _ _ _ _ _ _ (proj2 Hg) Hr Hcs).
Qed.

Lemma pad_foldl_preserved L rs R Gs Gs' :
  Forall (λ r, length R ≤ r)%nat rs →
  ∀ R',
    preserved (Heap R Gs)
      (Heap (foldl (λ R r, alter (pad_row L) r R) (R ++ R') rs) (Gs ++ Gs')).
Proof.
  intros Hrs R'. split; simpl.
  - intros r cs Hr. rewrite pad_foldl_lookup.
    apply lookup_lt_Some in Hr as Hlt.
    rewrite decide_False.
    + by rewrite lookup_app_l.
    + intros Hin. rewrite Forall_forall in Hrs. specialize (Hrs r Hin). lia.
  - intros g rs' Hg. rewrite lookup_app_l; [done|]. by eapply lookup_lt_Some.
Qed.

(** [Grid.__init__] either raises ValueError or returns a grid of at least one
    row and one column whose rows are distinct objects of one length, and it
    changes no object that was there before. *)
Lemma Grid_init_proper rnd cell_pattern h grid h' :
  Grid_init rnd cell_pattern h = (Ok grid, h') →
  proper h' (_cells grid) (_rows grid) (_cols grid) ∧
  (1 ≤ _rows grid)%nat ∧ (1 ≤ _cols grid)%nat ∧
  preserved h h'.
Proof.
  destruct h as [R Gs].
  assert (∀ rnd,
            Grid_init rnd None (Heap R Gs) = (Ok grid, h') →
            proper h' (_cells grid) (_rows grid) (_cols grid) ∧
            (1 ≤ _rows grid)%nat ∧ (1 ≤ _cols grid)%nat ∧
            preserved (Heap R Gs) h') as Hrandom.
  { clear rnd. intros rnd E.
    set (css := map (random_row rnd) (seq 0 GRID_SIZE)) in *.
    destruct (rows_to_Grid css
                (random_row rnd 0) (map (random_row rnd) (seq 1 (GRID_SIZE - 1)))
                R Gs eq_refl) as (E' & Hd).
    unfold Grid_init, cells_to_grid, random_arrangement in E. fold css in E.
    rewrite E' in E. injection E as <- <-. cbn [_cells _rows _cols].
    assert (length css = GRID_SIZE) as Hlen by reflexivity.
    assert (length (random_row rnd 0) = GRID_SIZE) as Hlen0 by reflexivity.
    split; [|split; [|split]].
    - exists (seq (length R) (length css)), css.
      split; [|split; [apply NoDup_seq|split; [done|]]].
      + split; [by apply list_lookup_middle|].
        apply Forall2_same_length_lookup_2; [by rewrite length_seq|].
        intros i r cs Hr Hcs. apply lookup_seq in Hr as [-> Hi].
        cbn [row_objs]. rewrite lookup_app_r by lia.
        by replace (length R + i - length R)%nat with i by lia.
      + unfold css. apply Forall_forall. intros cs Hcs.
        apply list_elem_of_In, in_map_iff in Hcs as (i & <- & _).
        reflexivity.
    - simpl. lia.
    - simpl. lia.
    - split; cbn [row_objs grid_objs]; intros i x Hi;
        (rewrite lookup_app_l; [done|by eapply lookup_lt_Some]). }
  destruct cell_pattern as [[|c s]|];
    [intros E; exact (Hrandom rnd E)|clear Hrandom|intros E; exact (Hrandom rnd E)].
  unfold Grid_init, cells_to_grid.
  set (css := map list_of_str (splitlines (remove_spaces (String c s)))).
  set (raw := seq (length R) (length css)).
  set (h2 := Heap (R ++ css) (Gs ++ [raw])).
  assert (Forall (λ r, is_Some (row_objs h2 !! r)) raw) as Hvalid.
  { apply Forall_forall. intros r Hr. apply elem_of_seq in Hr.
    apply lookup_lt_is_Some. unfold h2. cbn [row_objs]. rewrite length_app. lia. }
  set (rs := filter (λ r, row_objs h2 !! r ≠ Some []) raw).
  set (h3 := Heap (R ++ css) ((Gs ++ [raw]) ++ [rs])).
  assert (cells_to_grid_eq :
            (let! raw_rows := new_rows css in
             let! raw_cells := new_grid raw_rows in
             let! raw_rows := load_grid raw_cells in
             let! compact_rows := filter_nonempty raw_rows in
             let! compact_cells := new_grid compact_rows in
             pad_cells compact_cells) (Heap R Gs)
            = pad_cells (length (Gs ++ [raw])) h3).
  { erewrite bind_ok; [|apply new_rows_at].
    erewrite bind_ok; [|reflexivity]. cbn [row_objs grid_objs]. fold raw h2.
    erewrite bind_ok; [|unfold load_grid, h2; cbn [grid_objs];
                        by rewrite list_lookup_middle].
    erewrite bind_ok; [|by apply filter_nonempty_at].
    fold rs. erewrite bind_ok; [|reflexivity]. done. }
  unfold bind at 1. rewrite cells_to_grid_eq. clear cells_to_grid_eq.
  assert (Forall (λ r, is_Some (row_objs h3 !! r)) rs) as Hvalid3.
  { apply Forall_forall. intros r Hr. apply list_elem_of_filter in Hr as [_ Hr].
    rewrite Forall_forall in Hvalid. by apply Hvalid. }
  destruct (mapM_is_Some_2 (λ r, row_objs h3 !! r) rs Hvalid3) as [G HG].
  apply mapM_Some in HG.
  assert (grid_at h3 (length (Gs ++ [raw])) rs G) as Hg.
  { split; [by apply list_lookup_middle|done]. }
  assert (Forall (λ cs, cs ≠ []) G) as Hnonempty.
  { apply Forall_lookup. intros i cs Hcs.
    destruct (Forall2_lookup_r _ _ _ _ _ HG Hcs) as (r & Hr & Hrc).
    apply list_elem_of_lookup_2, list_elem_of_filter in Hr as [Hne _].
    intros ->. by apply Hne. }
  destruct G as [|cs0 G'] eqn:EG.
  { apply Forall2_nil_inv_r in HG.
    pose proof (proj1 Hg) as Hl. rewrite HG in Hl.
    by rewrite (pad_cells_no_rows h3 _ Hl). }
  rewrite <- EG in *.
  assert (G ≠ []) as Hne by (by rewrite EG).
  rewrite (pad_cells_at h3 _ rs G Hg Hne).
  pose proof (pad_cells_grid_at h3 _ rs G Hg Hne) as Hpad.
  set (L := max_list_with length G) in *.
  destruct (grid_at_lookup _ _ _ _ 0%nat (pad_row L cs0) Hpad) as (r0 & Hr0 & Hrow0).
  { by rewrite EG. }
  erewrite bind_ok; [|unfold load_grid; by rewrite (proj1 Hpad)].
  erewrite bind_ok;
    [|unfold lift; by rewrite (getitem_nat _ 0%nat r0 Hr0 : getitem _ 0 = _)].
  erewrite bind_ok; [|unfold load_row; by rewrite Hrow0].
  intros [= <- <-]. simpl.
  assert (length cs0 ≤ L)%nat as Hle0.
  { apply max_list_with_length_le. rewrite EG. left. }
  assert (1 ≤ length cs0)%nat as Hpos0.
  { assert (cs0 ≠ []) as Hcs0.
    { rewrite EG in Hnonempty. by inversion Hnonempty. }
    destruct cs0; [done|simpl; lia]. }
  rewrite pad_row_length by done.
  split; [|split; [|split]].
  - exists rs, (pad_row L <$> G).
    split; [exact Hpad|]. split; [apply NoDup_filter, NoDup_seq|]. split.
    + rewrite length_fmap. symmetry. apply (Forall2_length _ _ _ HG).
    + apply Forall_fmap, Forall_forall. intros cs Hcs. simpl.
      apply pad_row_length. by apply max_list_with_length_le.
  - rewrite (Forall2_length _ _ _ HG), EG. simpl. lia.
  - lia.
  - unfold h3. cbn [row_objs grid_objs]. rewrite <- !app_assoc.
    apply pad_foldl_preserved.
    apply Forall_forall. intros r Hr. apply list_elem_of_filter in Hr as [_ Hr].
    apply elem_of_seq in Hr. lia.
Qed.

(** A run on a grid that [Grid] has built starts from the invariant, whatever
    the pattern and the random source. *)
Lemma run_inv_constructed rnd cell_pattern h grid h' iterations :
  Grid_init rnd cell_pattern h = (Ok grid, h') →
  run_inv (run_conways_game (ConwaysGameOfLife_init grid) iterations) h'.
Proof.
  intros E. apply run_inv_start.
  by destruct (Grid_init_proper _ _ _ _ _ E) as [Hp _].
Qed.

(** ** The theorems at work on the grids of the test suite *)

(** The two stores hold proper grids. *)
Lemma test_heap_proper : proper test_heap 0 3 3.
Proof.
  exists [0; 1; 2]%nat, test_rows.
  split; [split; [done|repeat constructor]|].
  split; [by apply (bool_decide_unpack _); vm_compute|].
  split; [done|repeat constructor].
Qed.

Lemma block_heap_proper : proper block_heap 0 4 4.
Proof.
  exists [0; 1; 2; 3]%nat, block_rows.
  split; [split; [done|repeat constructor]|].
  split; [by apply (bool_decide_unpack _); vm_compute|].
  split; [done|repeat constructor].
Qed.

(** The step of the game on the 3 by 3 test grid. *)
Lemma get_next_iteration_synchronous_witness :
  ∃ G next h' G',
    deref test_heap 0 = Some G ∧
    get_next_iteration (ConwaysGameOfLife_init test_grid) 0 test_heap
    = (Ok next, h') ∧
    grid_objs test_heap !! next = None ∧
    deref h' next = Some G' ∧
    length G' = length G ∧
    Forall2 (λ row row', length row' = length row) G G' ∧
    ∀ p c, cell_at G p = Some c →
      ∃ n c',
        living_neighbours G p n ∧ cell_at G' p = Some c' ∧
        (c = ALIVE → n = 2 ∨ n = 3 → c' = ALIVE) ∧
        (c = DEAD → n = 3 → c' = ALIVE) ∧
        (¬ (c = ALIVE ∧ (n = 2 ∨ n = 3)) → ¬ (c = DEAD ∧ n = 3) → c' = DEAD).
Proof.
  apply (get_next_iteration_synchronous test_heap 0%nat 3 3
           (ConwaysGameOfLife_init test_grid)).
  - exact test_heap_proper.
  - reflexivity.
  - reflexivity.
Defined.

(** The centre of the 3 by 3 test grid. *)
Lemma count_neighbours_exact_witness :
  ∃ n h',
    count_neighbours 0 (mkPoint 1 1) test_heap = (Ok n, h') ∧
    0 ≤ n ≤ 8 ∧ living_neighbours test_rows (mkPoint 1 1) n.
Proof.
  apply (count_neighbours_exact test_heap 0%nat test_rows 3 3 (mkPoint 1 1)).
  - reflexivity.
  - split; [reflexivity|repeat constructor].
  - lia.
Defined.

(** The block after four calls of [next()]: the fifth finds four copies of
    the candidate in the history. *)
Lemma repeated_pattern_halts_witness :
  ∃ s candidate h' h'',
    check_point
      (after 4 (run_conways_game (ConwaysGameOfLife_init block_grid) 50) block_heap).1
      (after 4 (run_conways_game (ConwaysGameOfLife_init block_grid) 50) block_heap).2
    = Some (s, candidate, h') ∧
    deque_count (_iteration_history s) candidate h'
    = (Ok MAX_COPIES_IN_HISTORY, h'') ∧
    ∃ g',
      resume
        (after 4 (run_conways_game (ConwaysGameOfLife_init block_grid) 50) block_heap).1
        (after 4 (run_conways_game (ConwaysGameOfLife_init block_grid) 50) block_heap).2
      = (StopIteration, g', h'') ∧
      at_ g' = Finished ∧
      _repeated_pattern_halted_the_game (self g') = true ∧
      _iteration_history (self g') = _iteration_history s ∧
      _total_iterations (self g')
      = _total_iterations
          (self (after 4 (run_conways_game (ConwaysGameOfLife_init block_grid) 50)
                   block_heap).1) ∧
      ∀ h1, resume g' h1 = (StopIteration, g', h1).
Proof.
  eexists _, _, _, _.
  split; [vm_compute; reflexivity|].
  split; [vm_compute; reflexivity|].
  eapply repeated_pattern_halts; vm_compute; reflexivity.
Defined.

(** Two iterations on the 3 by 3 test grid. *)
Lemma iteration_limit_run_witness :
  ∃ xs g' h',
    consume (S (S (Z.to_nat 2)))
      (run_conways_game (ConwaysGameOfLife_init test_grid) 2) test_heap
    = (_cells test_grid :: xs, Some StopIteration, g', h') ∧
    Z.of_nat (length xs) = 2 ∧
    _total_iterations (self g') = 2 ∧
    _repeated_pattern_halted_the_game (self g') = false ∧
    at_ g' = Finished.
Proof.
  apply (iteration_limit_run test_grid 2 test_heap).
  - exact test_heap_proper.
  - lia.
  - intros k Hk. destruct k as [|[|[|k]]]; [vm_compute; reflexivity..|].
    simpl in Hk. lia.
Defined.

(** The block after three calls of [next()]: the check of the fourth. *)
Lemma repeat_count_never_exceeds_witness :
  ∃ s candidate h',
    check_point
      (after 3 (run_conways_game (ConwaysGameOfLife_init block_grid) 50) block_heap).1
      (after 3 (run_conways_game (ConwaysGameOfLife_init block_grid) 50) block_heap).2
    = Some (s, candidate, h') ∧
    ∃ n,
      deque_count (_iteration_history s) candidate h' = (Ok n, h') ∧
      (n ≤ MAX_COPIES_IN_HISTORY)%nat ∧
      (n =? MAX_COPIES_IN_HISTORY)%nat = (MAX_COPIES_IN_HISTORY <=? n)%nat ∧
      ∀ w, (count_value h' (_iteration_history s) w ≤ MAX_COPIES_IN_HISTORY)%nat.
Proof.
  eexists _, _, _.
  split; [vm_compute; reflexivity|].
  apply (repeat_count_never_exceeds block_grid 50 block_heap 3).
  - exact block_heap_proper.
  - vm_compute. reflexivity.
Defined.

(** The empty pattern has no line at all, and [Grid] built from it is not an
    error: it is a grid of 20 rows that the pattern does not describe. *)
Lemma empty_pattern_is_accepted :
  splitlines (remove_spaces EmptyString) = [] ∧
  ∃ h',
    Grid_init (λ _, true) (Some EmptyString) empty_heap
    = (Ok {| _cells := 0%nat; _cols := 20; _rows := 20 |}, h') ∧
    deref h' 0 = Some (replicate 20 (replicate 20 ALIVE)).
Proof.
  split; [reflexivity|].
  eexists. split; [vm_compute; reflexivity|]. vm_compute. reflexivity.
Qed.


(** ** The test suite of the repository, and the examples of the design *)

(** test_alive_neighbours_for_each_cell_in_a_grid_are_counted_properly *)
Example test_count_neighbours :
  map (λ p, (count_neighbours 0 p test_heap).1)
      (flat_map (λ y, map (λ x, mkPoint x y) (range 3)) (range 3))
  = map Ok [1; 4; 2; 3; 4; 2; 1; 3; 2].
Proof. vm_compute. reflexivity. Qed.

(** test_cell_iterations_are_generated_using_conways_rules *)
Example test_cell_iterations :
  play iteration_pattern 4 4
  = ([ ["-------"; "-------"; "--***--"; "---*---"; "--***--"; "-------"; "-------"];
       ["-------"; "---*---"; "--***--"; "-------"; "--***--"; "---*---"; "-------"];
       ["-------"; "--***--"; "--***--"; "-------"; "--***--"; "--***--"; "-------"];
       ["---*---"; "--*-*--"; "--*-*--"; "-------"; "--*-*--"; "--*-*--"; "---*---"] ],
     None, 3, false).
Proof. vm_compute. reflexivity. Qed.

(** A blinker turns from horizontal to vertical and back. *)
Example blinker_has_period_2 :
  play blinker_pattern 2 10
  = ([ ["-----"; "-----"; "-***-"; "-----"; "-----"];
       ["-----"; "--*--"; "--*--"; "--*--"; "-----"];
       ["-----"; "-----"; "-***-"; "-----"; "-----"] ],
     Some StopIteration, 2, false).
Proof. vm_compute. reflexivity. Qed.

(** A blinker run without a cap that matters: each of its two phases comes
    back every second step, and the run stops on the repeat check when the
    candidate is in the history four times already, after 7 iterations. *)
Example blinker_run_is_halted_by_the_repeat_check :
  (let '(xs, fin, total, halted) := play blinker_pattern MAX_ITERATIONS 100 in
   (length xs, fin, total, halted))
  = (8%nat, Some StopIteration, 7, true).
Proof. vm_compute. reflexivity. Qed.

(** A block stays as it is: the run yields it four times (the initial grid
    and three iterations) and stops on the repeat check. *)
Example block_run_is_halted_by_the_repeat_check :
  consume 100 (run_conways_game (ConwaysGameOfLife_init block_grid) MAX_ITERATIONS)
    block_heap
  = ([0; 2; 20; 38]%nat, Some StopIteration,
     mkGen {| _grid := block_grid;
              _iteration_history := [0; 2; 20; 38]%nat;
              _total_iterations := 3;
              _repeated_pattern_halted_the_game := true |} Finished,
     (consume 100 (run_conways_game (ConwaysGameOfLife_init block_grid)
                     MAX_ITERATIONS) block_heap).2) ∧
  map (show (consume 100 (run_conways_game (ConwaysGameOfLife_init block_grid)
                            MAX_ITERATIONS) block_heap).2)
      [0; 2; 20; 38]%nat
  = replicate 4 ["----"; "-**-"; "-**-"; "----"].
Proof. split; vm_compute; reflexivity. Qed.

(** The loops of [get_next_iteration] run over the dimensions of the game's
    own grid, not over those of the grid it is given: called by hand with a
    smaller grid it raises IndexError. In a run the two always agree. *)
Example get_next_iteration_uses_the_dimensions_of_the_game :
  (get_next_iteration (ConwaysGameOfLife_init block_grid) 0 test_heap).1
  = Raise IndexError.
Proof. vm_compute. reflexivity. Qed.

(** No [next()] of a run on a proper grid raises. *)
Lemma run_never_raises cells iterations h k e :
  proper h (_cells cells) (_rows cells) (_cols cells) →
  (resume
     (after k (run_conways_game (ConwaysGameOfLife_init cells) iterations) h).1
     (after k (run_conways_game (ConwaysGameOfLife_init cells) iterations) h).2).1.1
  ≠ Raised e.
Proof.
  intros Hp.
  pose proof (run_inv_after k _ _ (run_inv_start cells iterations h Hp)) as Hinv.
  by destruct (run_inv_resume _ _ Hinv) as (_ & _ & _ & Hno).
Qed.

(** * Further properties of the code *)

(** ** The generator: what it counts and what it keeps *)

Lemma keep_append {A} (m : nat) (l : list A) x :
  deque_append m (keep m l) x = keep m (l ++ [x]).
Proof.
  unfold deque_append, keep.
  rewrite !length_app, length_drop. simpl.
  destruct (Nat.ltb_spec m (length l - (length l - m) + 1)) as [Hlt|Hge].
  - assert (m ≤ length l)%nat as Hm by lia.
    replace (length l + 1 - m)%nat with (S (length l - m)) by lia.
    destruct (decide (m = 0%nat)) as [->|Hm0].
    + rewrite Nat.sub_0_r, drop_all.
      rewrite drop_ge by (rewrite length_app; simpl; lia). done.
    + rewrite (drop_app_le l [x] (S _)) by lia.
      destruct (drop (length l - m) l) as [|a d] eqn:Hd.
      { apply (f_equal length) in Hd. rewrite length_drop in Hd. simpl in Hd. lia. }
      simpl. f_equal.
      replace (S (length l - m)) with (length l - m + 1)%nat by lia.
      by rewrite <- drop_drop, Hd.
  - assert (length l < m)%nat as Hm by lia.
    replace (length l - m)%nat with 0%nat by lia.
    replace (length l + 1 - m)%nat with 0%nat by lia.
    by rewrite !drop_0.
Qed.

(** What one pass from the head of the loop can do to the game. *)
Lemma loop_head_cases s cur k h :
  (at_ (loop_head s cur k h).1.2 = Finished ∧
   (∀ x, (loop_head s cur k h).1.1 ≠ Yield x) ∧
   _total_iterations (self (loop_head s cur k h).1.2) = _total_iterations s ∧
   _iteration_history (self (loop_head s cur k h).1.2) = _iteration_history s) ∨
  (∃ next k',
     k = S k' ∧
     (loop_head s cur k h).1.1 = Yield next ∧
     at_ (loop_head s cur k h).1.2 = AtLoopYield next k' ∧
     _total_iterations (self (loop_head s cur k h).1.2) = _total_iterations s + 1 ∧
     _iteration_history (self (loop_head s cur k h).1.2) = _iteration_history s).
Proof.
  unfold loop_head. destruct k as [|k]; [by left|].
  destruct (get_next_iteration s cur h) as [[next|e] h1]; [|by left].
  destruct (deque_count _ next h1) as [[n|e] h2]; [|by left].
  destruct (n =? MAX_COPIES_IN_HISTORY)%nat; [by left|].
  right. by exists next, k.
Qed.

Lemma consume_S fuel g h :
  consume (S fuel) g h
  = match resume g h with
    | (Yield x, g', h') =>
        let '(xs, fin, g'', h'') := consume fuel g' h' in (x :: xs, fin, g'', h'')
    | (sig, g', h') => ([], Some sig, g', h')
    end.
Proof. done. Qed.

(** From a generator that has started: the counter grows by one per grid
    yielded, no more grids are yielded than passes are left, and the history
    follows the grids yielded. *)
Lemma consume_started fuel :
  ∀ g h ys,
    (∀ iterations, at_ g ≠ NotStarted iterations) →
    recent g = keep ITERATION_HISTORY_SIZE ys →
    _total_iterations (self (final_generator (consume fuel g h)))
    = _total_iterations (self g) + Z.of_nat (length (yielded (consume fuel g h))) ∧
    (length (yielded (consume fuel g h)) ≤ remaining_of (at_ g))%nat ∧
    recent (final_generator (consume fuel g h))
    = keep ITERATION_HISTORY_SIZE (ys ++ yielded (consume fuel g h)).
Proof.
  induction fuel as [|fuel IH]; intros g h ys Hst Hrec.
  { unfold yielded, final_generator. simpl. rewrite app_nil_r.
    split_and!; [lia|lia|done]. }
  rewrite consume_S.
  assert (∃ s cur k,
            resume g h = loop_head s cur k h ∧
            _total_iterations s = _total_iterations (self g) ∧
            _iteration_history s = recent g ∧ k = remaining_of (at_ g) ∨
            resume g h = (StopIteration, g, h) ∧ at_ g = Finished ∧
            s = self g ∧ cur = 0%nat ∧ k = 0%nat) as (s & cur & k & Hres).
  { unfold resume, recent. destruct (at_ g) as [it|c k|nx k|] eqn:Hat.
    - by destruct (Hst it).
    - exists (self g), c, k. by left.
    - eexists _, nx, k. by left.
    - exists (self g), 0%nat, 0%nat. by right. }
  destruct Hres as [(E & Ht & Hh & Hk)|(E & Hfin & _)]; cycle 1.
  { rewrite E. unfold yielded, final_generator. simpl.
    rewrite app_nil_r. split_and!; [lia|lia|done]. }
  rewrite E.
  destruct (loop_head_cases s cur k h)
    as [(Hfin & Hny & Ht' & Hh')|(next & k' & -> & Hsig & Hat' & Ht' & Hh')].
  - destruct (loop_head s cur k h) as [[sig g1] h1]. simpl in *.
    destruct sig as [x| |e]; [by destruct (Hny x)|..];
      unfold yielded, final_generator; simpl; rewrite app_nil_r;
      (split_and!; [lia|lia|]); unfold recent; rewrite Hfin; congruence.
  - destruct (loop_head s cur (S k') h) as [[sig g1] h1]. simpl in *. subst sig.
    destruct (IH g1 h1 (ys ++ [next])) as (IHt & IHl & IHr).
    { intros it. by rewrite Hat'. }
    { unfold recent. rewrite Hat', Hh', Hh, Hrec. apply keep_append. }
    destruct (consume fuel g1 h1) as [[[xs fin] g2] h2].
    unfold yielded, final_generator in *. simpl in *.
    rewrite Hat' in IHl. simpl in IHl.
    split_and!; [lia|lia|]. by rewrite IHr, <- app_assoc.
Qed.


(** X2 (history): at any point of any run, the history, with the grid yielded
    last (which the generator appends when it is resumed), holds the last
    [ITERATION_HISTORY_SIZE] grids that the consumer has received, in order. *)
Theorem history_is_the_recent_yields fuel cells iterations h :
  recent (final_generator
            (consume fuel (run_conways_game (ConwaysGameOfLife_init cells) iterations) h))
  = keep ITERATION_HISTORY_SIZE
      (yielded (consume fuel (run_conways_game (ConwaysGameOfLife_init cells) iterations) h)).
Proof.
  destruct fuel as [|fuel]; [done|].
  rewrite consume_S.
  set (g1 := mkGen (set_history (ConwaysGameOfLife_init cells)
                      (deque_append ITERATION_HISTORY_SIZE [] (_cells cells)))
                   (AtFirstYield (_cells cells) (Z.to_nat iterations))).
  change (resume _ h) with (Yield (_cells cells), g1, h). cbv iota beta.
  destruct (consume_started fuel g1 h [_cells cells]) as (_ & _ & Hr);
    [done|done|].
  destruct (consume fuel g1 h) as [[[xs fin] g2] h2].
  unfold yielded, final_generator in *. simpl in *. done.
Qed.

(** ** Every run on a proper grid ends *)

Lemma check_point_exists g h k :
  run_inv g h → suspended g (S k) →
  ∃ s candidate h', check_point g h = Some (s, candidate, h').
Proof.
  intros Hinv (r & [Hat|Hat]); unfold check_point; rewrite Hat.
  - destruct Hinv as (Hheld & Hcount & _).
    unfold held in Hheld. rewrite Hat in Hheld.
    destruct (candidate_count (self g) r h Hheld Hcount)
      as (next & h1 & v & E & _). rewrite E. eauto.
  - destruct (pending_append_inv g h r Hinv) as [Hall Hcnt].
    { unfold pending. by rewrite Hat. }
    destruct (candidate_count
                (set_history (self g)
                   (deque_append ITERATION_HISTORY_SIZE
                      (_iteration_history (self g)) r))
                r h Hall Hcnt)
      as (next & h1 & v & E & _). rewrite E. eauto.
Qed.

(** From a [yield] with [k] passes left, [k + 1] calls of [next()] end the
    generator: by the repeat check before all passes are done, or after all
    of them. *)
Lemma consume_ends k :
  ∀ g h,
    run_inv g h → suspended g k →
    _repeated_pattern_halted_the_game (self g) = false →
    ending (consume (S k) g h) = Some StopIteration ∧
    at_ (final_generator (consume (S k) g h)) = Finished ∧
    (_repeated_pattern_halted_the_game (self (final_generator (consume (S k) g h)))
     = true → (length (yielded (consume (S k) g h)) < k)%nat) ∧
    (_repeated_pattern_halted_the_game (self (final_generator (consume (S k) g h)))
     = false → length (yielded (consume (S k) g h)) = k).
Proof.
  induction k as [|k IH]; intros g h Hinv Hsus Hflag.
  - destruct (resume_loop_end g h Hsus) as (g' & E & Hfin & _ & Hf).
    rewrite consume_S, E. unfold ending, final_generator, yielded. simpl.
    split_and!; [done|done|congruence|done].
  - destruct (check_point_exists g h k Hinv Hsus) as (s & c & h1 & Hc).
    destruct (check_point_inv _ _ _ _ _ Hinv Hc) as (v & Hv & Hn & _).
    destruct (resume_at_check _ _ _ _ _ Hc) as (k' & Hk' & _ & Ht & Hf & E).
    assert (k' = k) as ->.
    { destruct Hsus as (r & [Hat|Hat]); rewrite Hat in Hk'; simpl in Hk'; lia. }
    rewrite Hn in E.
    destruct (count_value h1 (_iteration_history s) v =? MAX_COPIES_IN_HISTORY)%nat.
    + rewrite consume_S, E. unfold ending, final_generator, yielded. simpl.
      split_and!; [done|done|lia|done].
    + pose proof (run_inv_resume g h Hinv) as (Hinv1 & _).
      rewrite E in Hinv1. simpl in Hinv1.
      rewrite consume_S, E.
      set (g1 := mkGen (set_total s (_total_iterations s + 1)) (AtLoopYield c k)) in *.
      destruct (IH g1 h1 Hinv1) as (He & Hfin & Ht1 & Hf1).
      { exists c. by right. }
      { simpl. congruence. }
      destruct (consume (S k) g1 h1) as [[[xs fin] g2] h2].
      unfold ending, final_generator, yielded in *. simpl in *.
      split_and!; [done|done|intros Hx; specialize (Ht1 Hx); lia|
                   intros Hx; specialize (Hf1 Hx); lia].
Qed.

(** X3 (termination): a run on a proper grid always ends, at the latest with
    the [N + 2]nd call of [next()] for a cap of [N] iterations.  When it was
    stopped by the repeat check the counter is below the cap; otherwise the
    counter is the cap (0 for a negative cap), which is what [main] compares
    it with to tell the two apart. *)
Theorem run_always_ends cells N h :
  proper h (_cells cells) (_rows cells) (_cols cells) →
  ending (consume (S (S (Z.to_nat N)))
            (run_conways_game (ConwaysGameOfLife_init cells) N) h)
  = Some StopIteration ∧
  at_ (final_generator
         (consume (S (S (Z.to_nat N)))
            (run_conways_game (ConwaysGameOfLife_init cells) N) h))
  = Finished ∧
  (_repeated_pattern_halted_the_game
     (self (final_generator
              (consume (S (S (Z.to_nat N)))
                 (run_conways_game (ConwaysGameOfLife_init cells) N) h)))
   = true →
   _total_iterations
     (self (final_generator
              (consume (S (S (Z.to_nat N)))
                 (run_conways_game (ConwaysGameOfLife_init cells) N) h)))
   < N) ∧
  (_repeated_pattern_halted_the_game
     (self (final_generator
              (consume (S (S (Z.to_nat N)))
                 (run_conways_game (ConwaysGameOfLife_init cells) N) h)))
   = false →
   _total_iterations
     (self (final_generator
              (consume (S (S (Z.to_nat N)))
                 (run_conways_game (ConwaysGameOfLife_init cells) N) h)))
   = Z.max 0 N).
Proof.
  intros Hp.
  set (g0 := run_conways_game (ConwaysGameOfLife_init cells) N).
  pose proof (run_inv_resume g0 h (run_inv_start cells N h Hp)) as (Hinv1 & _).
  rewrite consume_S.
  set (g1 := mkGen (set_history (ConwaysGameOfLife_init cells)
                      (deque_append ITERATION_HISTORY_SIZE [] (_cells cells)))
                   (AtFirstYield (_cells cells) (Z.to_nat N))).
  change (resume g0 h) with (Yield (_cells cells), g1, h) in *. cbv iota beta.
  simpl in Hinv1.
  destruct (consume_ends (Z.to_nat N) g1 h Hinv1) as (He & Hfin & Ht & Hf).
  { exists (_cells cells). by left. }
  { done. }
  destruct (consume_started (S (Z.to_nat N)) g1 h [_cells cells]) as (Htot & _);
    [done|done|].
  destruct (consume (S (Z.to_nat N)) g1 h) as [[[xs fin] g2] h2].
  unfold ending, final_generator, yielded in *. simpl in *.
  split_and!; [done|done|intros Hx; specialize (Ht Hx); lia|
               intros Hx; specialize (Hf Hx); lia].
Qed.

Lemma run_always_ends_witness :
  ending (consume (S (S (Z.to_nat 50)))
            (run_conways_game (ConwaysGameOfLife_init block_grid) 50) block_heap)
  = Some StopIteration ∧
  at_ (final_generator
         (consume (S (S (Z.to_nat 50)))
            (run_conways_game (ConwaysGameOfLife_init block_grid) 50) block_heap))
  = Finished ∧
  (_repeated_pattern_halted_the_game
     (self (final_generator
              (consume (S (S (Z.to_nat 50)))
                 (run_conways_game (ConwaysGameOfLife_init block_grid) 50) block_heap)))
   = true →
   _total_iterations
     (self (final_generator
              (consume (S (S (Z.to_nat 50)))
                 (run_conways_game (ConwaysGameOfLife_init block_grid) 50) block_heap)))
   < 50) ∧
  (_repeated_pattern_halted_the_game
     (self (final_generator
              (consume (S (S (Z.to_nat 50)))
                 (run_conways_game (ConwaysGameOfLife_init block_grid) 50) block_heap)))
   = false →
   _total_iterations
     (self (final_generator
              (consume (S (S (Z.to_nat 50)))
                 (run_conways_game (ConwaysGameOfLife_init block_grid) 50) block_heap)))
   = Z.max 0 50).
Proof. apply (run_always_ends block_grid 50 block_heap), block_heap_proper. Defined.

(** ** What a step can and cannot produce *)





(** ** Still lifes *)

Lemma still_life_next_cell G p c :
  still_life G → cell_at G p = Some c →
  next_cell c (Z.of_nat (length (alive_around G p))) = c.
Proof.
  intros Hs Hc.
  destruct (Hs p c _ Hc (neighbours_living G p)) as [[-> Hn]|[-> Hn]];
    unfold next_cell.
  - destruct Hn as [-> | ->]; done.
  - simpl. by destruct (Z.eqb_spec (Z.of_nat (length (alive_around G p))) 3).
Qed.

Lemma still_life_write_rows G rows cols :
  rectangular G rows cols → still_life G → write_rows G rows cols G = G.
Proof.
  intros Hrect Hs. pose proof Hrect as [Hlen Hcols].
  apply list_eq. intros y.
  destruct (decide (y < rows)%nat) as [Hy|Hy]; cycle 1.
  { rewrite !(proj2 (lookup_ge_None _ _)); [done|lia|].
    rewrite write_rows_length. lia. }
  rewrite write_rows_lookup by done.
  destruct (G !! y) as [row|] eqn:Hrow; [simpl|done]. f_equal.
  pose proof (Forall_lookup_1 _ _ _ _ Hcols Hrow) as Hrl. simpl in Hrl.
  apply list_eq. intros x.
  destruct (decide (x < cols)%nat) as [Hx|Hx]; cycle 1.
  { rewrite !(proj2 (lookup_ge_None _ _)); [done|lia|].
    rewrite write_row_length. lia. }
  rewrite write_row_lookup by (done || lia).
  destruct (lookup_lt_is_Some_2 row x) as [c Hc]; [lia|].
  rewrite Hc. f_equal.
  assert (cell_at G (mkPoint (Z.of_nat x) (Z.of_nat y)) = Some c) as Hat.
  { unfold cell_at. simpl.
    destruct (Z.leb_spec 0 (Z.of_nat x)); [|lia].
    destruct (Z.leb_spec 0 (Z.of_nat y)); [|lia]. simpl.
    by rewrite !Nat2Z.id, Hrow, Hc. }
  unfold new_value. rewrite Hat. by apply still_life_next_cell.
Qed.

Lemma count_value_all h d G :
  Forall (λ r, deref h r = Some G) d → count_value h d G = length d.
Proof.
  unfold count_value. induction 1 as [|r d Hr _ IH]; [done|].
  rewrite filter_cons, decide_True by done. simpl. by rewrite IH.
Qed.

(** The candidate of a pass on a still life: a new grid of the same value. *)
Lemma still_life_candidate s cur h G :
  Forall (λ r, proper h r (_rows (_grid s)) (_cols (_grid s)))
    (cur :: _iteration_history s) →
  deref h cur = Some G → still_life G →
  Forall (λ r, deref h r = Some G) (_iteration_history s) →
  ∃ next h',
    get_next_iteration s cur h = (Ok next, h') ∧
    preserved h h' ∧
    Forall (λ r, proper h' r (_rows (_grid s)) (_cols (_grid s)))
      (next :: _iteration_history s) ∧
    Forall (λ r, deref h' r = Some G) (next :: _iteration_history s) ∧
    deque_count (_iteration_history s) next h'
    = (Ok (length (_iteration_history s)), h').
Proof.
  intros Hall HG Hs Hhist.
  apply Forall_cons in Hall as [Hcur Hproper].
  destruct (proper_deref _ _ _ _ Hcur) as (G0 & HG0 & Hrect).
  assert (G0 = G) as -> by congruence.
  destruct (get_next_iteration_proper s h cur G Hcur HG)
    as (next & h' & E & _ & Hpres & Hnext & HG').
  rewrite still_life_write_rows in HG' by done.
  assert (Forall (λ r, deref h' r = Some G) (_iteration_history s)) as Hhist'.
  { eapply Forall_impl; [exact Hhist|]. intros r. by apply preserved_deref. }
  exists next, h'. split_and!; [done|done| |by constructor|].
  - constructor; [done|].
    eapply Forall_impl; [exact Hproper|]. intros r. by apply preserved_proper.
  - rewrite (deque_count_value h' (_iteration_history s) next G).
    + by rewrite count_value_all.
    + eapply Forall_impl; [exact Hhist'|]. intros r Hr. simpl in Hr. by rewrite Hr.
    + done.
Qed.

(** From a [yield] in a run on a still life whose history holds [j] grids
    (the one yielded last included), all of the value of the still life: the
    generator yields [MAX_COPIES_IN_HISTORY - j] more grids of that value and
    is then stopped by the repeat check. *)
Lemma still_life_loop G m :
  ∀ g h k cur,
    still_life G →
    suspended g k → (m < k)%nat →
    current g = Some cur →
    Forall (λ r, proper h r (_rows (_grid (self g))) (_cols (_grid (self g))))
      (cur :: recent g) →
    Forall (λ r, deref h r = Some G) (cur :: recent g) →
    (length (recent g) + m = MAX_COPIES_IN_HISTORY)%nat →
    ending (consume (S k) g h) = Some StopIteration ∧
    _repeated_pattern_halted_the_game (self (final_generator (consume (S k) g h)))
    = true ∧
    length (yielded (consume (S k) g h)) = m ∧
    preserved h (final_store (consume (S k) g h)) ∧
    Forall (λ r, deref (final_store (consume (S k) g h)) r = Some G)
      (yielded (consume (S k) g h)).
Proof.
  induction m as [|m IH]; intros g h k cur Hs Hsus Hk Hcur Hproper HG Hlen.
  - destruct k as [|k]; [lia|].
    assert (∃ s, resume g h = loop_head s cur (S k) h ∧
                 _iteration_history s = recent g ∧ _grid s = _grid (self g))
      as (s & E & Hh & Hg).
    { unfold resume, recent, current in *.
      destruct Hsus as (r & [Hat|Hat]); rewrite Hat in *; simplify_eq; eauto. }
    rewrite <- Hh, <- Hg in *.
    apply Forall_cons in HG as [HGcur HGhist].
    destruct (still_life_candidate s cur h G Hproper HGcur Hs HGhist)
      as (next & h' & En & Hpres & _ & _ & Hcount).
    rewrite consume_S, E. unfold loop_head. rewrite En, Hcount.
    replace (length (_iteration_history s)) with MAX_COPIES_IN_HISTORY by lia.
    unfold ending, final_generator, yielded, final_store. simpl.
    split_and!; done.
  - destruct k as [|k]; [lia|].
    assert (∃ s, resume g h = loop_head s cur (S k) h ∧
                 _iteration_history s = recent g ∧ _grid s = _grid (self g))
      as (s & E & Hh & Hg).
    { unfold resume, recent, current in *.
      destruct Hsus as (r & [Hat|Hat]); rewrite Hat in *; simplify_eq; eauto. }
    rewrite <- Hh, <- Hg in *.
    pose proof HG as HG0. apply Forall_cons in HG0 as [HGcur HGhist].
    destruct (still_life_candidate s cur h G Hproper HGcur Hs HGhist)
      as (next & h' & En & Hpres & Hproper' & HG' & Hcount).
    rewrite consume_S, E. unfold loop_head. rewrite En, Hcount.
    destruct (Nat.eqb_spec (length (_iteration_history s)) MAX_COPIES_IN_HISTORY)
      as [Heq|_]; [lia|].
    set (g1 := mkGen (set_total s (_total_iterations s + 1)) (AtLoopYield next k)).
    assert (recent g1 = _iteration_history s ++ [next]) as Hrec.
    { unfold recent. simpl. apply deque_append_room.
      unfold MAX_COPIES_IN_HISTORY, ITERATION_HISTORY_SIZE in *. lia. }
    destruct (IH g1 h' k next Hs) as (He & Hf & Hl & Hp & Hd).
    { exists next. by right. }
    { lia. }
    { done. }
    { rewrite Hrec. apply Forall_cons in Hproper' as [Hn Hh'].
      constructor; [done|]. apply Forall_app. split; [done|by constructor]. }
    { rewrite Hrec. apply Forall_cons in HG' as [Hn Hh'].
      constructor; [done|]. apply Forall_app. split; [done|by constructor]. }
    { rewrite Hrec, length_app. simpl. lia. }
    destruct (consume (S k) g1 h') as [[[xs fin] g2] h2].
    unfold ending, final_generator, yielded, final_store in *. simpl in *.
    split_and!; [done|done|lia|by eapply preserved_trans|].
    constructor; [|done].
    apply Forall_cons in HG' as [Hn _]. by eapply preserved_deref.
Qed.

(** X5 (still life): a run on a grid that the rules leave as it is, with a
    cap of at least [MAX_COPIES_IN_HISTORY] iterations, yields that grid
    [MAX_COPIES_IN_HISTORY] times (the initial grid and three new grids of
    the same value) and is then stopped by the repeat check, with the flag
    set and the counter at [MAX_COPIES_IN_HISTORY - 1]. *)
Theorem still_life_run_is_halted_by_the_repeat_check cells N h G :
  proper h (_cells cells) (_rows cells) (_cols cells) →
  deref h (_cells cells) = Some G → still_life G →
  Z.of_nat MAX_COPIES_IN_HISTORY ≤ N →
  ending (consume (S (S (Z.to_nat N)))
            (run_conways_game (ConwaysGameOfLife_init cells) N) h)
  = Some StopIteration ∧
  _repeated_pattern_halted_the_game
    (self (final_generator
             (consume (S (S (Z.to_nat N)))
                (run_conways_game (ConwaysGameOfLife_init cells) N) h)))
  = true ∧
  _total_iterations
    (self (final_generator
             (consume (S (S (Z.to_nat N)))
                (run_conways_game (ConwaysGameOfLife_init cells) N) h)))
  = Z.of_nat MAX_COPIES_IN_HISTORY - 1 ∧
  length (yielded (consume (S (S (Z.to_nat N)))
                     (run_conways_game (ConwaysGameOfLife_init cells) N) h))
  = MAX_COPIES_IN_HISTORY ∧
  Forall (λ r, deref (final_store
                        (consume (S (S (Z.to_nat N)))
                           (run_conways_game (ConwaysGameOfLife_init cells) N) h)) r
               = Some G)
    (yielded (consume (S (S (Z.to_nat N)))
                (run_conways_game (ConwaysGameOfLife_init cells) N) h)).
Proof.
  intros Hp HG Hs HN.
  rewrite consume_S.
  set (g1 := mkGen (set_history (ConwaysGameOfLife_init cells)
                      (deque_append ITERATION_HISTORY_SIZE [] (_cells cells)))
                   (AtFirstYield (_cells cells) (Z.to_nat N))).
  change (resume _ h) with (Yield (_cells cells), g1, h). cbv iota beta.
  destruct (still_life_loop G (MAX_COPIES_IN_HISTORY - 1) g1 h (Z.to_nat N)
              (_cells cells) Hs) as (He & Hf & Hl & Hpres & Hd).
  { exists (_cells cells). by left. }
  { unfold MAX_COPIES_IN_HISTORY in *. lia. }
  { done. }
  { by repeat constructor. }
  { by repeat constructor. }
  { done. }
  destruct (consume_started (S (Z.to_nat N)) g1 h [_cells cells]) as (Htot & _);
    [done|done|].
  destruct (consume (S (Z.to_nat N)) g1 h) as [[[xs fin] g2] h2].
  unfold ending, final_generator, yielded, final_store in *. simpl in *.
  split_and!; [done|done| |by rewrite Hl|].
  - rewrite Htot, Hl. unfold MAX_COPIES_IN_HISTORY. lia.
  - constructor; [by eapply preserved_deref|done].
Qed.


(** ** Counting copies in a sequence *)

Section sequences.
Local Open Scope nat_scope.
Context {A : Type} `{EqDecision A}.
Variable v : nat → A.

(** Indices that satisfy [P] and lie at least [gap] apart: [len] consecutive
    numbers hold at most [len / gap], rounded up, of them. *)
Lemma sparse_count (P : nat → Prop) `{∀ i, Decision (P i)} gap a len :
  0 < gap →
  (∀ i j, a ≤ i → i < j → j < a + len → P i → P j → i + gap ≤ j) →
  length (filter P (seq a len)) * gap ≤ len + gap - 1.
Proof.
  intros Hgap Hsparse.
  assert (filter P (seq a len) = [] ∨
          ∃ m, m < len ∧ P (a + m) ∧
               length (filter P (seq a len)) * gap ≤ m + gap)
    as [->|(m & Hm & _ & Hle)]; [|simpl; lia|lia].
  induction len as [|len IH]; [by left|].
  rewrite seq_S, filter_app, filter_cons, filter_nil.
  destruct IH as [IH|(m & Hm & HP & Hle)].
  { intros i j ???. apply Hsparse; lia. }
  - rewrite IH. case_decide; [|by left].
    right. exists len. simpl. split_and!; [lia|done|lia].
  - right. case_decide as HPl.
    + exists len. rewrite length_app. simpl.
      assert (a + m + gap ≤ a + len) by (apply Hsparse; [lia|lia|lia|done|done]).
      split_and!; [lia|done|lia].
    + exists m. rewrite app_nil_r. split_and!; [lia|done|lia].
Qed.

Lemma copies_window n :
  keep ITERATION_HISTORY_SIZE (seq 0 n)
  = seq (n - ITERATION_HISTORY_SIZE) (n - (n - ITERATION_HISTORY_SIZE)).
Proof. unfold keep. by rewrite length_seq, drop_seq. Qed.

(** No two elements up to [v n] at a distance of 3 or less are equal: fewer
    than [MAX_COPIES_IN_HISTORY] of the elements before [v n] in the window
    are copies of it. *)
Lemma copies_no_near_repeat n :
  (∀ i j, i < j → j ≤ i + 3 → j ≤ n → v i ≠ v j) →
  copies v n < MAX_COPIES_IN_HISTORY.
Proof.
  intros Hfar. unfold copies. rewrite copies_window.
  set (a := n - ITERATION_HISTORY_SIZE). set (len := n - a).
  assert (a + len = n ∧ len ≤ 15) as [Hn Hlen].
  { unfold len, a, ITERATION_HISTORY_SIZE. lia. }
  pose proof (sparse_count (λ i, v i = v n) 4 a (S len)) as Hs.
  rewrite seq_S, filter_app, filter_cons, filter_nil, Hn in Hs.
  rewrite decide_True, length_app in Hs by done. simpl in Hs.
  unfold MAX_COPIES_IN_HISTORY.
  cut (length (filter (λ i, v i = v n) (seq a len)) * 4 + 4 ≤ 19); [lia|].
  etrans; [|etrans; [apply Hs|]]; [lia|lia| |lia].
  intros i j Hi Hij Hj Ei Ej.
  destruct (decide (i + 4 ≤ j)) as [|Hnear]; [done|].
  destruct (Hfar i j); [lia|lia|lia|congruence].
Qed.

(** A sequence that enters a cycle of period [p] at index [t]: each element
    fixes the next, the first [t + p] elements are pairwise different and
    [v (t + p)] is [v t] again. *)
Section cycle.
Variables t p : nat.
Hypothesis Hp : 1 ≤ p ∧ MAX_COPIES_IN_HISTORY * p ≤ ITERATION_HISTORY_SIZE.
Hypothesis Hstep : ∀ i j, v i = v j → v (S i) = v (S j).
Hypothesis Hdist : ∀ i j, i < j → j < t + p → v i ≠ v j.
Hypothesis Hcyc : v (t + p) = v t.

Lemma cycle_period i : t ≤ i → v (i + p) = v i.
Proof.
  intros Hi. replace i with (t + (i - t)) by lia.
  induction (i - t) as [|e IH]; [by rewrite Nat.add_0_r|].
  replace (t + S e + p) with (S (t + e + p)) by lia.
  replace (t + S e) with (S (t + e)) by lia. by apply Hstep.
Qed.

Lemma cycle_periods q i : t ≤ i → v (i + q * p) = v i.
Proof.
  intros Hi. induction q as [|q IH]; [by rewrite Nat.add_0_r|].
  replace (i + S q * p) with (i + q * p + p) by lia.
  rewrite cycle_period by lia. done.
Qed.

Lemma cycle_rep n : t ≤ n → ∃ r, t ≤ r ∧ r < t + p ∧ v n = v r.
Proof.
  induction (lt_wf n) as [n _ IH]. intros Hn.
  destruct (decide (n < t + p)) as [|Hge]; [by exists n|].
  destruct (IH (n - p)) as (r & ? & ? & Er); [lia|lia|].
  exists r. split_and!; [done|done|].
  rewrite <- Er. replace n with (n - p + p) at 1 by lia.
  apply cycle_period. lia.
Qed.

Lemma cycle_shift i j s : v i = v j → v (i + s) = v (j + s).
Proof.
  intros E. induction s as [|s IH]; [by rewrite !Nat.add_0_r|].
  rewrite !Nat.add_succ_r. by apply Hstep.
Qed.

(** Equal elements of the cycle are at least a period apart. *)
Lemma cycle_gap i j : t ≤ i → i < j → v i = v j → i + p ≤ j.
Proof.
  intros Hi Hij E.
  destruct (decide (i + p ≤ j)) as [|Hnear]; [done|]. exfalso.
  pose proof (cycle_periods (i - t) t (le_n _)) as E0.
  pose proof (cycle_periods (i - t) (t + (j - i))) as Ed.
  assert (i - t ≤ (i - t) * p) as Hq by nia.
  pose proof (cycle_shift i j ((i - t) * p - (i - t)) E) as Es.
  replace (i + ((i - t) * p - (i - t))) with (t + (i - t) * p) in Es by lia.
  replace (j + ((i - t) * p - (i - t))) with (t + (j - i) + (i - t) * p) in Es by lia.
  rewrite E0, Ed in Es by lia.
  apply (Hdist t (t + (j - i))); [lia|lia|done].
Qed.

(** A copy of [v n] before it lies in the cycle. *)
Lemma cycle_match i n : i < n → v i = v n → t ≤ i.
Proof.
  intros Hin E. destruct (decide (t ≤ i)) as [|Hi]; [done|]. exfalso.
  destruct (decide (n < t + p)) as [Hn|Hn]; [by apply (Hdist i n)|].
  destruct (cycle_rep n) as (r & ? & ? & Er); [lia|].
  apply (Hdist i r); [lia|lia|congruence].
Qed.

Lemma copies_in_cycle n :
  copies v n ≤ length (filter (λ i, v i = v n) (seq t (n - t))) ∧
  (length (filter (λ i, v i = v n) (seq t (n - t))) + 1) * p ≤ n - t + p.
Proof.
  split.
  - unfold copies. rewrite copies_window.
    apply submseteq_length, NoDup_submseteq; [apply NoDup_filter, NoDup_seq|].
    intros i. rewrite !list_elem_of_filter, !elem_of_seq. intros [E Hi].
    split; [done|]. pose proof (cycle_match i n ltac:(lia) E). lia.
  - destruct (decide (n < t)) as [Hn|Hn].
    { replace (n - t) with 0 by lia. simpl. lia. }
    pose proof (sparse_count (λ i, v i = v n) p t (S (n - t))) as Hs.
    rewrite seq_S, filter_app, filter_cons, filter_nil in Hs.
    replace (t + (n - t)) with n in Hs by lia.
    rewrite decide_True, length_app in Hs by done. simpl in Hs.
    etrans; [apply Hs|]; [lia| |lia].
    intros i j Hi Hij Hj Ei Ej. apply cycle_gap; [done|done|congruence].
Qed.

(** Before the cycle has been gone through [MAX_COPIES_IN_HISTORY] times the
    check finds fewer copies. *)
Lemma copies_before_cycle n :
  n < t + MAX_COPIES_IN_HISTORY * p → copies v n < MAX_COPIES_IN_HISTORY.
Proof.
  intros Hn. destruct (copies_in_cycle n) as [Hle Hs].
  unfold MAX_COPIES_IN_HISTORY in *. nia.
Qed.

(** When it has, the check finds exactly [MAX_COPIES_IN_HISTORY] copies. *)
Lemma copies_at_cycle :
  copies v (t + MAX_COPIES_IN_HISTORY * p) = MAX_COPIES_IN_HISTORY.
Proof.
  apply Nat.le_antisymm.
  - destruct (copies_in_cycle (t + MAX_COPIES_IN_HISTORY * p)) as [Hle Hs].
    unfold MAX_COPIES_IN_HISTORY in *. nia.
  - unfold copies. rewrite copies_window.
    change MAX_COPIES_IN_HISTORY
      with (length [t + 0 * p; t + 1 * p; t + 2 * p; t + 3 * p]) at 1.
    apply submseteq_length, NoDup_submseteq.
    { repeat (apply NoDup_cons_2;
                [rewrite ?elem_of_cons, elem_of_nil; lia|]).
      apply NoDup_nil_2. }
    intros i Hi. rewrite list_elem_of_filter, elem_of_seq.
    unfold MAX_COPIES_IN_HISTORY, ITERATION_HISTORY_SIZE in *.
    pose proof (cycle_periods 4 t (le_n _)) as E4.
    rewrite !elem_of_cons, elem_of_nil in Hi.
    destruct Hi as [->|[->|[->|[->|[]]]]];
      (split; [rewrite E4; by apply cycle_periods|lia]).
Qed.

End cycle.
End sequences.
(** ** Runs and the generations of the initial grid *)

Lemma life_step_rule G rows cols p c n :
  rectangular G rows cols →
  cell_at G p = Some c → living_neighbours G p n →
  cell_at (life_step rows cols G) p = Some (next_cell c n).
Proof.
  intros Hrect Hc Hn.
  rewrite (living_neighbours_unique G p n _ Hn (neighbours_living G p)).
  assert (inside rows cols p = true) as Hin.
  { apply (inside_cell_at G); [done|eauto]. }
  unfold inside in Hin.
  rewrite !andb_true_iff, !Z.leb_le, !Z.ltb_lt in Hin.
  destruct p as [x y]. simpl in Hin. unfold life_step.
  rewrite <- (Z2Nat.id x), <- (Z2Nat.id y) by lia.
  rewrite write_rows_cell_at by (done || lia).
  unfold new_value. rewrite !Z2Nat.id by lia. by rewrite Hc.
Qed.

Lemma generation_rectangular G rows cols n :
  rectangular G rows cols → rectangular (generation rows cols G n) rows cols.
Proof.
  intros Hrect. induction n as [|n IH]; [done|].
  simpl. by apply write_rows_rectangular.
Qed.

Lemma count_value_seq h (gen : nat → list (list cell)) d a v :
  (∀ j r, d !! j = Some r → deref h r = Some (gen (a + j)%nat)) →
  count_value h d v = length (filter (λ i, gen i = v) (seq a (length d))).
Proof.
  unfold count_value. revert a. induction d as [|r d IH]; intros a Hd; [done|].
  simpl. rewrite !filter_cons.
  pose proof (Hd 0%nat r eq_refl) as Hr. rewrite Nat.add_0_r in Hr.
  assert (length (filter (λ r, deref h r = Some v) d)
          = length (filter (λ i, gen i = v) (seq (S a) (length d)))) as IH'.
  { apply IH. intros j r' Hj.
    rewrite Nat.add_succ_l, <- Nat.add_succ_r. by apply (Hd (S j)). }
  rewrite Hr. repeat case_decide; simplify_eq; simpl; by rewrite ?IH'.
Qed.

Lemma count_tracks h rows cols G ys n :
  tracks h rows cols G ys →
  count_value h (keep ITERATION_HISTORY_SIZE ys) (generation rows cols G n)
  = length (filter (λ i, generation rows cols G i = generation rows cols G n)
              (keep ITERATION_HISTORY_SIZE (seq 0 (length ys)))).
Proof.
  intros Htr. unfold keep.
  rewrite length_seq, drop_seq.
  rewrite (count_value_seq h (generation rows cols G) _
             (length ys - ITERATION_HISTORY_SIZE)).
  - by rewrite length_drop.
  - intros j r. rewrite lookup_drop. intros Hr. by apply Htr in Hr as [_ ?].
Qed.

Lemma tracks_preserved h h' rows cols G ys :
  preserved h h' → tracks h rows cols G ys → tracks h' rows cols G ys.
Proof.
  intros Hpres Htr i r Hr. destruct (Htr i r Hr) as [Hp HG].
  split; [by eapply preserved_proper|by eapply preserved_deref].
Qed.

Lemma tracks_snoc h rows cols G ys r :
  tracks h rows cols G ys →
  proper h r rows cols → deref h r = Some (generation rows cols G (length ys)) →
  tracks h rows cols G (ys ++ [r]).
Proof.
  intros Htr Hp HG i r' Hr'.
  destruct (decide (i < length ys)%nat) as [Hi|Hi].
  - rewrite lookup_app_l in Hr' by done. by apply Htr.
  - rewrite lookup_app_r in Hr' by lia.
    destruct (i - length ys)%nat as [|?] eqn:Hd; [|done].
    simplify_eq/=. by replace i with (length ys) by lia.
Qed.

Lemma tracks_is_Some h rows cols G ys m :
  tracks h rows cols G ys → Forall (λ r, is_Some (deref h r)) (keep m ys).
Proof.
  intros Htr. apply Forall_lookup. intros j r. unfold keep.
  rewrite lookup_drop. intros Hr. apply Htr in Hr as [_ ?]. eauto.
Qed.

(** A [next()] on a generator suspended at a [yield] goes to the head of the
    loop, with the grid yielded last in the history. *)
Lemma resume_suspended g h k cur :
  suspended g k → current g = Some cur →
  ∃ s,
    resume g h = loop_head s cur k h ∧
    _iteration_history s = recent g ∧
    _grid s = _grid (self g) ∧
    _total_iterations s = _total_iterations (self g) ∧
    _repeated_pattern_halted_the_game s
    = _repeated_pattern_halted_the_game (self g).
Proof.
  unfold resume, recent, current, suspended.
  intros (r & [Hat|Hat]) Hcur; rewrite Hat in *; simplify_eq; eauto 10.
Qed.

(** From a [yield] of generation [n] to the end of the run: the generator
    yields the generations that follow for as long as the repeat check finds
    a number of copies other than [MAX_COPIES_IN_HISTORY] and passes of the
    loop are left. *)
Lemma consume_generations rows cols G k :
  ∀ g h n ys cur,
    _rows (_grid (self g)) = rows → _cols (_grid (self g)) = cols →
    suspended g k → current g = Some cur →
    _repeated_pattern_halted_the_game (self g) = false →
    length ys = S n → ys !! n = Some cur →
    tracks h rows cols G ys →
    recent g = keep ITERATION_HISTORY_SIZE ys →
    ∃ m,
      (m ≤ k)%nat ∧
      ending (consume (S k) g h) = Some StopIteration ∧
      length (yielded (consume (S k) g h)) = m ∧
      tracks (final_store (consume (S k) g h)) rows cols G
        (ys ++ yielded (consume (S k) g h)) ∧
      (∀ j, (n < j)%nat → (j ≤ n + m)%nat →
            copies (generation rows cols G) j ≠ MAX_COPIES_IN_HISTORY) ∧
      if _repeated_pattern_halted_the_game
           (self (final_generator (consume (S k) g h)))
      then (m < k)%nat ∧
           copies (generation rows cols G) (S (n + m)) = MAX_COPIES_IN_HISTORY
      else m = k.
Proof.
  induction k as [|k IH];
    intros g h n ys cur Hrows Hcols Hsus Hcur Hflag Hlen Hlast Htr Hrec;
    destruct (resume_suspended g h _ cur Hsus Hcur) as (s & E & Hh & Hg & _ & Hf);
    rewrite consume_S, E; unfold loop_head.
  { unfold ending, final_generator, yielded, final_store. simpl.
    exists 0%nat. rewrite app_nil_r, Hf, Hflag.
    split_and!; [lia|done|done|done|intros; lia|done]. }
  rewrite <- Hg in Hrows, Hcols.
  destruct (Htr n cur Hlast) as [Hpcur HGcur].
  destruct (get_next_iteration_proper s h cur (generation rows cols G n))
    as (next & h' & En & _ & Hpres & Hpnext & HGnext);
    [by rewrite Hrows, Hcols|done|].
  rewrite Hrows, Hcols in Hpnext, HGnext.
  change (deref h' next = Some (generation rows cols G (S n))) in HGnext.
  pose proof (tracks_preserved _ _ _ _ _ _ Hpres Htr) as Htr'.
  rewrite En, Hh, Hrec.
  rewrite (deque_count_value h' _ next (generation rows cols G (S n)));
    [|by eapply tracks_is_Some|done].
  rewrite (count_tracks h' rows cols G ys (S n) Htr'), Hlen.
  change (length (filter _ _)) with (copies (generation rows cols G) (S n)).
  destruct (Nat.eqb_spec (copies (generation rows cols G) (S n))
              MAX_COPIES_IN_HISTORY) as [Heq|Hne].
  { unfold ending, final_generator, yielded, final_store. simpl.
    exists 0%nat. rewrite app_nil_r, Nat.add_0_r.
    split_and!; [lia|done|done|done|intros; lia|lia|done]. }
  set (g1 := mkGen (set_total s (_total_iterations s + 1)) (AtLoopYield next k)).
  destruct (IH g1 h' (S n) (ys ++ [next]) next) as (m & Hm & He & Hl & Ht & Hc & Hfl).
  { done. }
  { done. }
  { exists next. by right. }
  { done. }
  { simpl. by rewrite Hf. }
  { rewrite length_app. simpl. lia. }
  { rewrite lookup_app_r by lia. by replace (S n - length ys)%nat with 0%nat by lia. }
  { apply tracks_snoc; [done|done|by rewrite Hlen]. }
  { unfold recent. simpl. rewrite Hh, Hrec. apply keep_append. }
  exists (S m).
  destruct (consume (S k) g1 h') as [[[xs fin] g2] h2].
  unfold ending, final_generator, yielded, final_store in *. simpl in *.
  split_and!; [lia|done|by rewrite Hl| | |].
  - by rewrite <- app_assoc in Ht.
  - intros j Hj1 Hj2. destruct (decide (j = S n)) as [->|Hj]; [done|].
    apply Hc; lia.
  - destruct (_repeated_pattern_halted_the_game (self g2)); [|lia].
    destruct Hfl as [? Hfl]. split; [lia|].
    by replace (S (n + S m)) with (S (S n + m)) by lia.
Qed.

(** The run of a new game on a proper grid: it ends after it has yielded
    generations 0 to [m], where [m + 1] is the first generation of which the
    check finds [MAX_COPIES_IN_HISTORY] copies, or the cap if that comes
    first. *)
Lemma run_by_copies cells N h G :
  proper h (_cells cells) (_rows cells) (_cols cells) →
  deref h (_cells cells) = Some G →
  ∃ m,
    (m ≤ Z.to_nat N)%nat ∧
    ending (run_to_end cells N h) = Some StopIteration ∧
    length (yielded (run_to_end cells N h)) = S m ∧
    _total_iterations (self (final_generator (run_to_end cells N h))) = Z.of_nat m ∧
    tracks (final_store (run_to_end cells N h)) (_rows cells) (_cols cells) G
      (yielded (run_to_end cells N h)) ∧
    (∀ j, (1 ≤ j)%nat → (j ≤ m)%nat →
          copies (generation (_rows cells) (_cols cells) G) j
          ≠ MAX_COPIES_IN_HISTORY) ∧
    if _repeated_pattern_halted_the_game
         (self (final_generator (run_to_end cells N h)))
    then (m < Z.to_nat N)%nat ∧
         copies (generation (_rows cells) (_cols cells) G) (S m)
         = MAX_COPIES_IN_HISTORY
    else m = Z.to_nat N.
Proof.
  intros Hp HG. unfold run_to_end. rewrite consume_S.
  set (g1 := mkGen (set_history (ConwaysGameOfLife_init cells)
                      (deque_append ITERATION_HISTORY_SIZE [] (_cells cells)))
                   (AtFirstYield (_cells cells) (Z.to_nat N))).
  change (resume _ h) with (Yield (_cells cells), g1, h). cbv iota beta.
  destruct (consume_generations (_rows cells) (_cols cells) G (Z.to_nat N)
              g1 h 0%nat [_cells cells] (_cells cells))
    as (m & Hm & He & Hl & Ht & Hc & Hfl); try done.
  { exists (_cells cells). by left. }
  { intros [|i] r Hr; [|done]. by simplify_eq/=. }
  destruct (consume_started (S (Z.to_nat N)) g1 h [_cells cells]) as (Htot & _);
    [done|done|].
  exists m.
  destruct (consume (S (Z.to_nat N)) g1 h) as [[[xs fin] g2] h2].
  unfold ending, final_generator, yielded, final_store in *. simpl in *.
  split_and!; [done|done|by rewrite Hl|by rewrite Htot, Hl|done| |done].
  intros j Hj1 Hj2. apply Hc; lia.
Qed.

(** X6 (generations): the grids that a run on a proper grid yields are, in
    this order, the generations of the initial grid, also when it is halted
    early: the grid yielded at position [i] holds, when the run has ended,
    generation [i], which has the dimensions of the initial grid, and every
    cell of the generation after it is what the rules make of the cell and
    of the number of its living neighbours in generation [i]. *)
Theorem run_yields_the_generations cells N h G i r :
  proper h (_cells cells) (_rows cells) (_cols cells) →
  deref h (_cells cells) = Some G →
  yielded (run_to_end cells N h) !! i = Some r →
  deref (final_store (run_to_end cells N h)) r
  = Some (generation (_rows cells) (_cols cells) G i) ∧
  rectangular (generation (_rows cells) (_cols cells) G i) (_rows cells) (_cols cells) ∧
  ∀ p c n,
    cell_at (generation (_rows cells) (_cols cells) G i) p = Some c →
    living_neighbours (generation (_rows cells) (_cols cells) G i) p n →
    cell_at (generation (_rows cells) (_cols cells) G (S i)) p
    = Some (next_cell c n).
Proof.
  intros Hp HG Hr.
  destruct (run_by_copies cells N h G Hp HG) as (m & _ & _ & _ & _ & Htr & _).
  destruct (Htr i r Hr) as [_ Hd].
  destruct (proper_deref _ _ _ _ Hp) as (G0 & HG0 & Hrect).
  assert (G0 = G) as -> by congruence.
  pose proof (generation_rectangular G _ _ i Hrect) as Hri.
  split_and!; [done|done|].
  intros p c n Hc Hn. simpl. by apply life_step_rule.
Qed.

(** X7 (cycles): when the generations of the initial grid enter a cycle of
    period [p] of 1, 2 or 3 at generation [t] (the generations before
    [t + p] differ from each other and generation [t + p] is generation [t]
    again) and the cap allows [t + 4 p] iterations, the run yields
    generations 0 to [t + 4 p - 1] and is then stopped by the repeat check:
    the flag is set and the counter is [t + 4 p - 1]. *)
Theorem cycle_is_halted_by_the_repeat_check cells N h G t p :
  proper h (_cells cells) (_rows cells) (_cols cells) →
  deref h (_cells cells) = Some G →
  (1 ≤ p)%nat → (p ≤ 3)%nat →
  (∀ i j, (i < j)%nat → (j < t + p)%nat →
          generation (_rows cells) (_cols cells) G i
          ≠ generation (_rows cells) (_cols cells) G j) →
  generation (_rows cells) (_cols cells) G (t + p)
  = generation (_rows cells) (_cols cells) G t →
  (t + MAX_COPIES_IN_HISTORY * p ≤ Z.to_nat N)%nat →
  ending (run_to_end cells N h) = Some StopIteration ∧
  _repeated_pattern_halted_the_game
    (self (final_generator (run_to_end cells N h))) = true ∧
  _total_iterations (self (final_generator (run_to_end cells N h)))
  = Z.of_nat (t + MAX_COPIES_IN_HISTORY * p - 1) ∧
  length (yielded (run_to_end cells N h)) = (t + MAX_COPIES_IN_HISTORY * p)%nat.
Proof.
  intros Hproper HG Hp1 Hp3 Hdist Hcyc HN.
  destruct (run_by_copies cells N h G Hproper HG)
    as (m & Hm & He & Hl & Htot & _ & Hc & Hfl).
  assert (1 ≤ p ∧ MAX_COPIES_IN_HISTORY * p ≤ ITERATION_HISTORY_SIZE)%nat as Hp.
  { unfold MAX_COPIES_IN_HISTORY, ITERATION_HISTORY_SIZE. lia. }
  assert (∀ i j,
            generation (_rows cells) (_cols cells) G i
            = generation (_rows cells) (_cols cells) G j →
            generation (_rows cells) (_cols cells) G (S i)
            = generation (_rows cells) (_cols cells) G (S j)) as Hstep.
  { intros i j E. simpl. by rewrite E. }
  pose proof (copies_at_cycle _ t p Hp Hstep Hdist Hcyc) as Hat.
  pose proof (copies_before_cycle _ t p Hp Hstep Hdist Hcyc (S m)) as Hbefore.
  unfold MAX_COPIES_IN_HISTORY in *.
  assert (m < t + 4 * p)%nat as Hlt.
  { destruct (decide (m < t + 4 * p)%nat) as [|Hge]; [done|].
    destruct (Hc (t + 4 * p)%nat); [lia|lia|done]. }
  destruct (_repeated_pattern_halted_the_game
              (self (final_generator (run_to_end cells N h)))); [|lia].
  destruct Hfl as [_ Hfl].
  assert (S m = t + 4 * p)%nat as Hm'.
  { destruct (decide (S m < t + 4 * p)%nat) as [Hs|]; [|lia].
    apply Hbefore in Hs. lia. }
  split_and!; [done|done|rewrite Htot; f_equal; lia|by rewrite Hl].
Qed.

(** X8 (no repeat nearby): when no two generations of the initial grid up to
    the cap that are 3 or fewer steps apart are equal (as in a cycle of
    period 4 or more, or before any generation has come back), the repeat
    check never stops the run: it yields the initial grid and one generation
    per iteration up to the cap, the flag stays unset and the counter ends
    at the cap. *)
Theorem run_without_near_repeat_reaches_the_cap cells N h G :
  proper h (_cells cells) (_rows cells) (_cols cells) →
  deref h (_cells cells) = Some G →
  (∀ i j, (i < j)%nat → (j ≤ i + 3)%nat → (j ≤ Z.to_nat N)%nat →
          generation (_rows cells) (_cols cells) G i
          ≠ generation (_rows cells) (_cols cells) G j) →
  ending (run_to_end cells N h) = Some StopIteration ∧
  _repeated_pattern_halted_the_game
    (self (final_generator (run_to_end cells N h))) = false ∧
  _total_iterations (self (final_generator (run_to_end cells N h))) = Z.max 0 N ∧
  length (yielded (run_to_end cells N h)) = S (Z.to_nat N).
Proof.
  intros Hproper HG Hfar.
  destruct (run_by_copies cells N h G Hproper HG)
    as (m & Hm & He & Hl & Htot & _ & _ & Hfl).
  destruct (_repeated_pattern_halted_the_game
              (self (final_generator (run_to_end cells N h)))).
  - destruct Hfl as [Hlt Hfl].
    pose proof (copies_no_near_repeat
                  (generation (_rows cells) (_cols cells) G) (S m)) as Hno.
    rewrite Hfl in Hno. exfalso. apply (Nat.lt_irrefl MAX_COPIES_IN_HISTORY), Hno.
    intros i j Hij Hj3 Hjm. apply Hfar; lia.
  - subst m. split_and!; [done|done|lia|done].
Qed.


(** A grid of the two symbols that a step maps to itself is a still life. *)
Lemma fixed_point_still_life rows cols G :
  rectangular G rows cols → only_symbols G →
  life_step rows cols G = G → still_life G.
Proof.
  intros Hrect Hsym Hfix p c n Hc Hn.
  pose proof (life_step_rule G rows cols p c n Hrect Hc Hn) as Hnext.
  rewrite Hfix, Hc in Hnext. injection Hnext as Hnext.
  assert (c = ALIVE ∨ c = DEAD) as [->| ->].
  { unfold cell_at in Hc. case_match; [|done].
    destruct (G !! Z.to_nat (pt_y p)) as [row|] eqn:Hrow; [|done].
    pose proof (Forall_lookup_1 _ _ _ _ Hsym Hrow) as Hr. simpl in Hr.
    by pose proof (Forall_lookup_1 _ _ _ _ Hr Hc). }
  - left. split; [done|]. unfold next_cell in Hnext. simpl in Hnext.
    destruct (Z.eqb_spec n 2), (Z.eqb_spec n 3); simpl in Hnext; auto; done.
  - right. split; [done|]. unfold next_cell in Hnext. simpl in Hnext.
    destruct (Z.eqb_spec n 3); simpl in Hnext; [done|lia].
Qed.

Lemma block_is_a_still_life : still_life block_rows.
Proof.
  apply (fixed_point_still_life 4 4).
  - split; [done|repeat constructor].
  - by apply (bool_decide_unpack _); vm_compute.
  - by vm_compute.
Qed.

Lemma still_life_run_is_halted_by_the_repeat_check_witness :
  ending (consume (S (S (Z.to_nat 50)))
            (run_conways_game (ConwaysGameOfLife_init block_grid) 50) block_heap)
  = Some StopIteration ∧
  _repeated_pattern_halted_the_game
    (self (final_generator
             (consume (S (S (Z.to_nat 50)))
                (run_conways_game (ConwaysGameOfLife_init block_grid) 50)
                block_heap)))
  = true ∧
  _total_iterations
    (self (final_generator
             (consume (S (S (Z.to_nat 50)))
                (run_conways_game (ConwaysGameOfLife_init block_grid) 50)
                block_heap)))
  = Z.of_nat MAX_COPIES_IN_HISTORY - 1 ∧
  length (yielded (consume (S (S (Z.to_nat 50)))
                     (run_conways_game (ConwaysGameOfLife_init block_grid) 50)
                     block_heap))
  = MAX_COPIES_IN_HISTORY ∧
  Forall (λ r, deref (final_store
                        (consume (S (S (Z.to_nat 50)))
                           (run_conways_game (ConwaysGameOfLife_init block_grid) 50)
                           block_heap)) r
               = Some block_rows)
    (yielded (consume (S (S (Z.to_nat 50)))
                (run_conways_game (ConwaysGameOfLife_init block_grid) 50)
                block_heap)).
Proof.
  apply (still_life_run_is_halted_by_the_repeat_check block_grid 50 block_heap
           block_rows).
  - exact block_heap_proper.
  - reflexivity.
  - exact block_is_a_still_life.
  - vm_compute. discriminate.
Defined.

Lemma run_yields_the_generations_witness :
  deref (final_store (run_to_end test_grid 50 test_heap)) 13%nat
  = Some (generation (_rows test_grid) (_cols test_grid) test_rows 2) ∧
  rectangular (generation (_rows test_grid) (_cols test_grid) test_rows 2)
    (_rows test_grid) (_cols test_grid) ∧
  ∀ p c n,
    cell_at (generation (_rows test_grid) (_cols test_grid) test_rows 2) p = Some c →
    living_neighbours (generation (_rows test_grid) (_cols test_grid) test_rows 2) p n →
    cell_at (generation (_rows test_grid) (_cols test_grid) test_rows 3) p
    = Some (next_cell c n).
Proof.
  apply (run_yields_the_generations test_grid 50 test_heap test_rows 2 13%nat).
  - exact test_heap_proper.
  - reflexivity.
  - vm_compute. reflexivity.
Defined.

Lemma cycle_is_halted_by_the_repeat_check_witness :
  ending (run_to_end test_grid 50 test_heap) = Some StopIteration ∧
  _repeated_pattern_halted_the_game
    (self (final_generator (run_to_end test_grid 50 test_heap))) = true ∧
  _total_iterations (self (final_generator (run_to_end test_grid 50 test_heap)))
  = Z.of_nat (4 + MAX_COPIES_IN_HISTORY * 1 - 1) ∧
  length (yielded (run_to_end test_grid 50 test_heap))
  = (4 + MAX_COPIES_IN_HISTORY * 1)%nat.
Proof.
  apply (cycle_is_halted_by_the_repeat_check test_grid 50 test_heap test_rows 4 1).
  - exact test_heap_proper.
  - reflexivity.
  - lia.
  - lia.
  - intros i j Hij Hj.
    destruct i as [|[|[|[|i]]]]; destruct j as [|[|[|[|[|j]]]]];
      try lia; by vm_compute.
  - by vm_compute.
  - vm_compute. lia.
Defined.

Lemma run_without_near_repeat_reaches_the_cap_witness :
  ending (run_to_end test_grid 4 test_heap) = Some StopIteration ∧
  _repeated_pattern_halted_the_game
    (self (final_generator (run_to_end test_grid 4 test_heap))) = false ∧
  _total_iterations (self (final_generator (run_to_end test_grid 4 test_heap)))
  = Z.max 0 4 ∧
  length (yielded (run_to_end test_grid 4 test_heap)) = S (Z.to_nat 4).
Proof.
  apply (run_without_near_repeat_reaches_the_cap test_grid 4 test_heap test_rows).
  - exact test_heap_proper.
  - reflexivity.
  - intros i j Hij _ Hj. change (Z.to_nat 4) with 4%nat in Hj.
    destruct i as [|[|[|[|i]]]]; destruct j as [|[|[|[|[|j]]]]];
      try lia; by vm_compute.
Defined.


(** ** Grid construction from a pattern *)

Lemma filter_rows_at (R : list (list cell)) css :
  ∀ a,
    (∀ j cs, css !! j = Some cs → R !! (a + j)%nat = Some cs) →
    Forall2 (λ r cs, R !! r = Some cs)
      (filter (λ r, R !! r ≠ Some []) (seq a (length css)))
      (filter (λ cs, cs ≠ []) css).
Proof.
  induction css as [|cs css IH]; intros a Hat; [constructor|].
  pose proof (Hat 0%nat cs eq_refl) as H0. rewrite Nat.add_0_r in H0.
  assert (Forall2 (λ r cs, R !! r = Some cs)
            (filter (λ r, R !! r ≠ Some []) (seq (S a) (length css)))
            (filter (λ cs, cs ≠ []) css)) as IH'.
  { apply IH. intros j cs' Hj.
    rewrite Nat.add_succ_l, <- Nat.add_succ_r. by apply (Hat (S j)). }
  simpl. rewrite !filter_cons.
  destruct (decide (cs ≠ [])) as [Hne|He], (decide (R !! a ≠ Some [])) as [Hne'|He'].
  - by constructor.
  - destruct He'. rewrite H0. congruence.
  - destruct Hne'. rewrite H0. f_equal.
    by destruct (decide (cs = [])).
  - done.
Qed.

(** [Grid.__init__] on a pattern with at least one row. *)
Lemma Grid_init_pattern rnd c s R Gs :
  pattern_lines (String c s) ≠ [] →
  ∃ grid h',
    Grid_init rnd (Some (String c s)) (Heap R Gs) = (Ok grid, h') ∧
    deref h' (_cells grid)
    = Some (pad_row (max_list_with length (pattern_lines (String c s)))
              <$> pattern_lines (String c s)) ∧
    _rows grid = length (pattern_lines (String c s)) ∧
    _cols grid = max_list_with length (pattern_lines (String c s)).
Proof.
  unfold pattern_lines, Grid_init, cells_to_grid.
  set (css := map list_of_str (splitlines (remove_spaces (String c s)))).
  set (G := filter (λ cs, cs ≠ []) css). intros Hne.
  set (raw := seq (length R) (length css)).
  set (h2 := Heap (R ++ css) (Gs ++ [raw])).
  assert (Forall (λ r, is_Some (row_objs h2 !! r)) raw) as Hvalid.
  { apply Forall_forall. intros r Hr. apply elem_of_seq in Hr.
    apply lookup_lt_is_Some. unfold h2. cbn [row_objs]. rewrite length_app. lia. }
  set (rs := filter (λ r, row_objs h2 !! r ≠ Some []) raw).
  set (h3 := Heap (R ++ css) ((Gs ++ [raw]) ++ [rs])).
  assert (cells_to_grid_eq :
            (let! raw_rows := new_rows css in
             let! raw_cells := new_grid raw_rows in
             let! raw_rows := load_grid raw_cells in
             let! compact_rows := filter_nonempty raw_rows in
             let! compact_cells := new_grid compact_rows in
             pad_cells compact_cells) (Heap R Gs)
            = pad_cells (length (Gs ++ [raw])) h3).
  { erewrite bind_ok; [|apply new_rows_at].
    erewrite bind_ok; [|reflexivity]. cbn [row_objs grid_objs]. fold raw h2.
    erewrite bind_ok; [|unfold load_grid, h2; cbn [grid_objs];
                        by rewrite list_lookup_middle].
    erewrite bind_ok; [|by apply filter_nonempty_at].
    fold rs. erewrite bind_ok; [|reflexivity]. done. }
  unfold bind at 1. rewrite cells_to_grid_eq. clear cells_to_grid_eq.
  assert (grid_at h3 (length (Gs ++ [raw])) rs G) as Hg.
  { split; [by apply list_lookup_middle|].
    apply (filter_rows_at (R ++ css) css (length R)).
    intros j cs Hj. by rewrite lookup_app_r, Nat.add_comm, Nat.add_sub by lia. }
  rewrite (pad_cells_at h3 _ rs G Hg Hne).
  pose proof (pad_cells_grid_at h3 _ rs G Hg Hne) as Hpad.
  set (L := max_list_with length G) in *.
  destruct G as [|cs0 G'] eqn:EG; [done|]. rewrite <- EG in *.
  destruct (grid_at_lookup _ _ _ _ 0%nat (pad_row L cs0) Hpad) as (r0 & Hr0 & Hrow0).
  { by rewrite EG. }
  erewrite bind_ok; [|unfold load_grid; by rewrite (proj1 Hpad)].
  erewrite bind_ok;
    [|unfold lift; by rewrite (getitem_nat _ 0%nat r0 Hr0 : getitem _ 0 = _)].
  erewrite bind_ok; [|unfold load_row; by rewrite Hrow0].
  eexists _, _. split; [reflexivity|]. cbn [_cells _rows _cols].
  split_and!.
  - apply deref_grid_at. eauto.
  - apply (Forall2_length _ _ _ (proj2 Hg)).
  - apply pad_row_length, max_list_with_length_le. left.
Qed.

(** X9 (rows of a pattern): [Grid] built from a pattern that describes at
    least one row holds the lines of the pattern without their spaces, the
    empty lines left out, each followed by dead cells up to the length of
    the longest; [rows] and [cols] are the number of these lines and that
    length, the rows are distinct objects and no object that existed before
    is changed. *)
Theorem Grid_holds_the_lines_of_the_pattern rnd pattern h :
  pattern_lines pattern ≠ [] →
  ∃ grid h',
    Grid_init rnd (Some pattern) h = (Ok grid, h') ∧
    deref h' (_cells grid)
    = Some ((λ row, row ++ replicate
                      (max_list_with length (pattern_lines pattern) - length row)
                      DEAD)
              <$> pattern_lines pattern) ∧
    _rows grid = length (pattern_lines pattern) ∧
    _cols grid = max_list_with length (pattern_lines pattern) ∧
    proper h' (_cells grid) (_rows grid) (_cols grid) ∧
    preserved h h'.
Proof.
  intros Hne. destruct pattern as [|c s]; [done|]. destruct h as [R Gs].
  destruct (Grid_init_pattern rnd c s R Gs Hne) as (grid & h' & E & Hd & Hr & Hc).
  destruct (Grid_init_proper _ _ _ _ _ E) as (Hp & _ & _ & Hpres).
  exists grid, h'. split_and!; try done.
  rewrite Hd. f_equal. apply list_fmap_ext. intros i cs Hcs.
  apply pad_row_short, max_list_with_length_le. by eapply list_elem_of_lookup_2.
Qed.

Lemma Grid_holds_the_lines_of_the_pattern_witness :
  ∃ grid h',
    Grid_init (λ _, false) (Some ragged_pattern) empty_heap = (Ok grid, h') ∧
    deref h' (_cells grid)
    = Some ((λ row, row ++ replicate
                      (max_list_with length (pattern_lines ragged_pattern)
                       - length row)
                      DEAD)
              <$> pattern_lines ragged_pattern) ∧
    _rows grid = length (pattern_lines ragged_pattern) ∧
    _cols grid = max_list_with length (pattern_lines ragged_pattern) ∧
    proper h' (_cells grid) (_rows grid) (_cols grid) ∧
    preserved empty_heap h'.
Proof.
  apply (Grid_holds_the_lines_of_the_pattern (λ _, false) ragged_pattern empty_heap).
  vm_compute. discriminate.
Defined.

(** X10 (padding in place): [pad_cells] copies the outer list only, so the
    rows it extends are the rows of its argument: after the call the grid
    that was passed in is padded too, and the new grid that is returned
    shares all its row objects with it. *)
Theorem pad_cells_pads_its_argument h cells G :
  deref h cells = Some G → G ≠ [] →
  ∃ padded h',
    pad_cells cells h = (Ok padded, h') ∧
    grid_objs h !! padded = None ∧
    grid_objs h' !! padded = grid_objs h !! cells ∧
    grid_objs h' !! cells = grid_objs h !! cells ∧
    deref h' cells
    = Some ((λ row, row ++ replicate (max_list_with length G - length row) DEAD)
              <$> G).
Proof.
  intros Hd Hne.
  destruct (pad_cells_deref h cells G Hd Hne) as (padded & h' & E & Hd').
  apply deref_grid_at in Hd as [rs Hg].
  rewrite (pad_cells_at h cells rs G Hg Hne) in E. injection E as <- <-.
  pose proof (proj1 Hg) as Hrs. pose proof (lookup_lt_Some _ _ _ Hrs) as Hlt.
  eexists _, _. split; [by apply pad_cells_at|]. simpl.
  assert ((grid_objs h ++ [rs]) !! cells = Some rs) as Hc
    by (by rewrite lookup_app_l).
  assert ((grid_objs h ++ [rs]) !! length (grid_objs h) = Some rs) as Hp
    by (by rewrite list_lookup_middle).
  split_and!.
  - by apply lookup_ge_None.
  - by rewrite Hp, Hrs.
  - by rewrite Hc, Hrs.
  - rewrite <- Hd'. unfold deref. simpl. by rewrite Hc, Hp.
Qed.

Lemma pad_cells_pads_its_argument_witness :
  ∃ padded h',
    pad_cells 0%nat (Heap [["*"]; ["-"; "*"; "-"]] [[0; 1]%nat]) = (Ok padded, h') ∧
    grid_objs (Heap [["*"]; ["-"; "*"; "-"]] [[0; 1]%nat]) !! padded = None ∧
    grid_objs h' !! padded
    = grid_objs (Heap [["*"]; ["-"; "*"; "-"]] [[0; 1]%nat]) !! 0%nat ∧
    grid_objs h' !! 0%nat
    = grid_objs (Heap [["*"]; ["-"; "*"; "-"]] [[0; 1]%nat]) !! 0%nat ∧
    deref h' 0%nat
    = Some ((λ row, row ++ replicate
                      (max_list_with length [["*"]; ["-"; "*"; "-"]] - length row)
                      DEAD)
              <$> [["*"]; ["-"; "*"; "-"]]).
Proof.
  apply (pad_cells_pads_its_argument
           (Heap [["*"]; ["-"; "*"; "-"]] [[0; 1]%nat]) 0%nat
           [["*"]; ["-"; "*"; "-"]]).
  - reflexivity.
  - discriminate.
Defined.


(** ** show_cells and color_cell_row *)

Lemma foldl_snoc_map {A B} (g : A → B) (l : list A) :
  ∀ acc, foldl (λ acc i, acc ++ [g i]) acc l = acc ++ map g l.
Proof.
  induction l as [|a l IH]; intros acc; simpl; [by rewrite app_nil_r|].
  by rewrite IH, <- app_assoc.
Qed.

Lemma strip_newline (t : list N) c d :
  head t = Some c → isspace c = false →
  last t = Some d → isspace d = false →
  strip (t ++ [10%N]) = t.
Proof.
  intros Hhead Hc Hlast Hd. unfold strip, rstrip.
  assert (lstrip (t ++ [10%N]) = t ++ [10%N]) as ->.
  { destruct t as [|c' t]; [done|]. simplify_eq/=. by rewrite Hc. }
  destruct t as [|d' t _] using rev_ind; [done|].
  rewrite last_snoc in Hlast. simplify_eq.
  rewrite !rev_app_distr. simpl. rewrite Hd. simpl.
  by rewrite rev_involutive.
Qed.

Lemma color_cell_row_strip symbols colours cell_row :
  cell_row ≠ [] →
  strip (color_cell_row symbols colours cell_row) ++ lit LF
  = color_cell_row symbols colours cell_row.
Proof.
  intros Hne. unfold color_cell_row.
  set (alive_coloring := lit "[" ++ colours_alive colours ++ lit "]"
         ++ symbols_alive symbols ++ lit "[/" ++ colours_alive colours ++ lit "]").
  set (dead_coloring := lit "[" ++ colours_dead colours ++ lit "]"
         ++ symbols_dead symbols ++ lit "[/" ++ colours_dead colours ++ lit "]").
  set (f := λ x : cell, if String.eqb x "*" then alive_coloring else dead_coloring).
  assert (∀ x, head (f x) = Some 91%N ∧ last (f x) = Some 93%N) as Hf.
  { intros x. unfold f, alive_coloring, dead_coloring.
    destruct (String.eqb x "*"); (split; [done|]);
      rewrite !app_assoc; apply last_snoc. }
  change (map _ cell_row) with (map f cell_row). clearbody f.
  f_equal. change (lit LF) with [10%N].
  apply (strip_newline _ 91%N 93%N); [|done| |done].
  - destruct cell_row as [|x row]; [done|]. simpl.
    destruct (Hf x) as [Hh _]. by destruct (f x).
  - destruct cell_row as [|x row _] using rev_ind; [done|].
    rewrite map_app, concat_app. simpl. rewrite app_nil_r.
    destruct (Hf x) as [_ Hl].
    destruct (f x) as [|c t _] using rev_ind; [done|].
    rewrite last_snoc in Hl. rewrite app_assoc. by rewrite last_snoc.
Qed.

(** X11 (rows of text): for a grid with at least one row whose last row is
    not empty, [show_cells] reads the grid without changing anything and, in
    both modes, the text it gives is the coloured rows of [color_cell_row] in
    order, separated by the line feeds that end them, without the line feed
    of the last row; the table holds that same text. *)
Theorem show_cells_joins_the_coloured_rows symbols colours h grid G mode :
  deref h grid = Some G → G ≠ [] → last G ≠ Some [] →
  ∃ t,
    show_cells symbols colours grid mode h
    = (Ok (if mode then Plain t else Table t), h) ∧
    t ++ lit LF = concat (map (color_cell_row symbols colours) G).
Proof.
  intros Hd Hne Hlast. apply deref_grid_at in Hd as [rs Hg].
  pose proof (Forall2_length _ _ _ (proj2 Hg)) as Hlen.
  set (g := λ index : nat,
         if negb (index =? length rs - 1)%nat
         then color_cell_row symbols colours (default [] (G !! index))
         else strip (color_cell_row symbols colours (default [] (G !! index)))).
  exists (concat (map g (seq 0 (length rs)))). split.
  - unfold show_cells.
    erewrite bind_ok; [|unfold load_grid; by rewrite (proj1 Hg)].
    erewrite bind_ok; cycle 1.
    { apply (for_fold_pure _ _ (λ rows index, rows ++ [g index])).
      intros rows index Hin. apply elem_of_seq in Hin.
      destruct (lookup_lt_is_Some_2 G index) as [row Hrow]; [lia|].
      destruct (grid_at_lookup _ _ _ _ _ _ Hg Hrow) as (r & Hr & Hrc).
      erewrite bind_ok; [|unfold lift; by rewrite (getitem_nat _ _ _ Hr)].
      erewrite bind_ok; [|unfold load_row; by rewrite Hrc].
      unfold g. rewrite Hrow. simpl. by destruct (negb _). }
    rewrite foldl_snoc_map. simpl. by destruct mode.
  - destruct G as [|row G0 _] using rev_ind; [done|].
    rewrite last_snoc in Hlast.
    rewrite length_app in Hlen. simpl in Hlen.
    replace (length rs) with (S (length G0)) by lia.
    rewrite seq_S, !map_app, !concat_app. simpl. rewrite !app_nil_r.
    rewrite <- app_assoc. f_equal.
    + f_equal. apply list_eq. intros i.
      rewrite !list_lookup_fmap.
      destruct (decide (i < length G0)%nat) as [Hi|Hi].
      * rewrite lookup_seq_lt by done. simpl. unfold g.
        replace (length rs - 1)%nat with (length G0) by lia.
        destruct (Nat.eqb_spec i (length G0)) as [|_]; [lia|]. simpl.
        rewrite lookup_app_l by done.
        destruct (lookup_lt_is_Some_2 G0 i Hi) as [row' ->]. done.
      * rewrite lookup_seq_ge by lia.
        by rewrite (proj2 (lookup_ge_None G0 i)) by lia.
    + unfold g. replace (length rs - 1)%nat with (length G0) by lia.
      rewrite Nat.eqb_refl. simpl.
      rewrite lookup_app_r, Nat.sub_diag by done. simpl.
      apply color_cell_row_strip. congruence.
Qed.


Lemma show_cells_joins_the_coloured_rows_witness :
  ∃ t,
    show_cells SYMBOLS COLOURS 0%nat true test_heap
    = (Ok (if true then Plain t else Table t), test_heap) ∧
    t ++ lit LF = concat (map (color_cell_row SYMBOLS COLOURS) test_rows).
Proof.
  apply (show_cells_joins_the_coloured_rows SYMBOLS COLOURS test_heap 0%nat
           test_rows true).
  - reflexivity.
  - discriminate.
  - vm_compute. discriminate.
Defined.

(** The two tests of the repository on [color_cell_row] and on [show_cells]
    in basic mode. *)
Example test_cells_are_coloured_with_alternative_symbols :
  ∃ grid h row rest,
    Grid_init (λ _, false)
      (Some (LF +:+ "    *-*" +:+ LF +:+ "    -**" +:+ LF +:+ "    "))
      empty_heap = (Ok grid, h) ∧
    deref h (_cells grid) = Some (row :: rest) ∧
    color_cell_row (mkSymbols (lit "~") (lit "^"))
      (mkCellColours (lit "dead_colour") (lit "alive_colour")) row
    = lit ("[alive_colour]^[/alive_colour][dead_colour]~[/dead_colour]"
             +:+ "[alive_colour]^[/alive_colour]" +:+ LF).
Proof. eexists _, _, _, _. split_and!; vm_compute; reflexivity. Qed.

Example test_cells_are_displayed_in_basic_mode :
  ∃ grid h,
    Grid_init (λ _, false)
      (Some (LF +:+ "    *--" +:+ LF +:+ "    -**" +:+ LF +:+ "    **-" +:+ LF
               +:+ "    "))
      empty_heap = (Ok grid, h) ∧
    (show_cells (mkSymbols (lit "&") (lit "+"))
       (mkCellColours (lit "grey27") (lit "green4")) (_cells grid) true h).1
    = Ok (Plain (lit ("[green4]+[/green4][grey27]&[/grey27][grey27]&[/grey27]"
                        +:+ LF +:+
                      "[grey27]&[/grey27][green4]+[/green4][green4]+[/green4]"
                        +:+ LF +:+
                      "[green4]+[/green4][green4]+[/green4][grey27]&[/grey27]"))).
Proof. eexists _, _. split; vm_compute; reflexivity. Qed.

(** ** get_cells_from_file *)


Lemma read_loop_unfinished tail :
  Forall (λ c, c ≠ 10%N ∧ accepted c = true) tail →
  ∀ chars_seen lines,
    read_loop tail chars_seen lines = ([], Cells (String.concat "" lines)).
Proof.
  induction 1 as [|c tail [Hc Ha] _ IH]; intros chars_seen lines; [done|].
  simpl. destruct (N.eqb_spec c 10) as [|_]; [done|].
  unfold accepted in Ha.
  destruct (c =? 42)%N, (c =? 45)%N; simpl in *; try apply IH.
  rewrite Ha. apply IH.
Qed.

Lemma read_loop_app body tail :
  Forall (λ c, c ≠ 10%N ∧ accepted c = true) tail →
  ∀ chars_seen lines,
    read_loop (body ++ tail) chars_seen lines = read_loop body chars_seen lines.
Proof.
  intros Htail.
  induction body as [|c body IH]; intros chars_seen lines; simpl.
  - by apply read_loop_unfinished.
  - repeat case_match; by rewrite ?IH.
Qed.

(** X12 (unfinished line): the characters after the last line feed of the
    file are checked but are not part of what is returned: a last line that
    does not end in a line feed is lost, and a file without any line feed
    gives the empty pattern. *)
Theorem get_cells_from_file_drops_an_unfinished_line
    random_preset path_exists file body tail :
  Forall (λ c, c ≠ 10%N ∧ accepted c = true) tail →
  get_cells_from_file random_preset path_exists file (body ++ tail)
  = get_cells_from_file random_preset path_exists file body ∧
  read_loop tail "" [] = ([], Cells "").
Proof.
  intros Htail. split; [|by apply read_loop_unfinished].
  unfold get_cells_from_file.
  destruct path_exists; [|done]. destruct (negb _); [done|].
  by apply read_loop_app.
Qed.

Lemma get_cells_from_file_drops_an_unfinished_line_witness :
  get_cells_from_file "" true (lit "grid.txt")
    (lit ("**-" +:+ LF +:+ "-*-" +:+ LF) ++ lit "**-")
  = get_cells_from_file "" true (lit "grid.txt") (lit ("**-" +:+ LF +:+ "-*-" +:+ LF)) ∧
  read_loop (lit "**-") "" [] = ([], Cells "").
Proof.
  apply (get_cells_from_file_drops_an_unfinished_line "" true (lit "grid.txt")).
  apply (bool_decide_unpack _). vm_compute. reflexivity.
Defined.








(** The test of the repository on a file: the space in its second line
    becomes a dead cell. *)
Example test_grid_is_read_from_a_text_file :
  ∃ cells grid h,
    get_cells_from_file "" true (lit "test_grid.txt")
      (lit ("---" +:+ LF +:+ "** *" +:+ LF +:+ "***" +:+ LF))
    = ([], Cells cells) ∧
    Grid_init (λ _, false) (Some cells) empty_heap = (Ok grid, h) ∧
    deref h (_cells grid)
    = Some [ ["-"; "-"; "-"; "-"]; ["*"; "*"; "-"; "*"]; ["*"; "*"; "*"; "-"] ].
Proof. eexists _, _, _. split_and!; vm_compute; reflexivity. Qed.


(** ** count_neighbours on rows of unequal length *)

Lemma getitem2_beyond h g rs G q :
  grid_at h g rs G →
  0 ≤ pt_x q → 0 ≤ pt_y q < Z.of_nat (length G) → cell_at G q = None →
  getitem2 g (pt_y q) (pt_x q) h = (Raise IndexError, h).
Proof.
  intros Hg Hx Hy Hc.
  destruct (lookup_lt_is_Some_2 G (Z.to_nat (pt_y q))) as [row Hrow]; [lia|].
  destruct (grid_at_lookup _ _ _ _ _ _ Hg Hrow) as (r & Hr & Hrc).
  unfold cell_at in Hc.
  destruct (Z.leb_spec 0 (pt_x q)); [|lia].
  destruct (Z.leb_spec 0 (pt_y q)); [|lia]. simpl in Hc.
  rewrite Hrow in Hc. apply lookup_ge_None in Hc.
  unfold getitem2.
  erewrite bind_ok; [|unfold load_grid; by rewrite (proj1 Hg)].
  erewrite bind_ok; cycle 1.
  { unfold lift. rewrite <- (Z2Nat.id (pt_y q)) by lia.
    by rewrite (getitem_nat _ _ _ Hr). }
  erewrite bind_ok; [|unfold load_row; by rewrite Hrc].
  unfold lift, getitem, py_index.
  destruct (Z.ltb_spec (pt_x q) 0); [lia|].
  destruct (Z.leb_spec 0 (pt_x q)); [|lia].
  destruct (Z.ltb_spec (pt_x q) (Z.of_nat (length row))); [lia|done].
Qed.

(** One pass of the loop of [count_neighbours] on a grid with a first row:
    the neighbour is looked up when it lies below the length of the first
    row and within the number of rows. *)
Lemma count_step_any h g rs G row0 G' (n : Z) q :
  grid_at h g rs G → G = row0 :: G' →
  (let! v := valid_loc g q in
   if v then
     let! c := getitem2 g (pt_y q) (pt_x q) in
     if String.eqb c ALIVE then ret (n + 1) else ret n
   else ret n) h
  = if inside (length G) (length row0) q then
      match cell_at G q with
      | Some c => (Ok (if String.eqb c ALIVE then n + 1 else n), h)
      | None => (Raise IndexError, h)
      end
    else (Ok n, h).
Proof.
  intros Hg EG.
  erewrite bind_ok; [|by eapply valid_loc_at].
  destruct (inside (length G) (length row0) q) eqn:Hin; [|done].
  unfold inside in Hin.
  rewrite !andb_true_iff, !Z.leb_le, !Z.ltb_lt in Hin.
  destruct (cell_at G q) as [c|] eqn:Hc.
  - erewrite bind_ok; [|by eapply getitem2_cell_at].
    by destruct (String.eqb c ALIVE).
  - erewrite bind_raise; [done|]. apply (getitem2_beyond _ _ rs G); [done|lia..|done].
Qed.

Lemma for_fold_raises {A S} (l : list A) (body : S → A → M S) (f : S → A → S)
    (bad : A → Prop) `{∀ a, Decision (bad a)} e h :
  (∀ s a, a ∈ l → ¬ bad a → body s a h = (Ok (f s a), h)) →
  (∀ s a, a ∈ l → bad a → body s a h = (Raise e, h)) →
  Exists bad l →
  ∀ s, for_fold l body s h = (Raise e, h).
Proof.
  intros Hok Hbad. induction 1 as [a l Ha|a l _ IH]; intros s; simpl.
  - erewrite bind_raise; [done|]. apply Hbad; [left|done].
  - destruct (decide (bad a)) as [Ha|Ha].
    + erewrite bind_raise; [done|]. apply Hbad; [left|done].
    + erewrite bind_ok; [|apply Hok; [left|done]].
      apply IH; intros s' a' Hin; [apply Hok|apply Hbad]; by right.
Qed.

(** X15 (rows of unequal length): [count_neighbours] takes the width of the
    grid from its first row.  On a grid with at least one row it raises
    IndexError when one of the eight positions lies within that width and
    the number of rows but beyond the end of its own row; otherwise it
    returns the number of those positions within that width and the number
    of rows that hold ['*'], so that living cells of longer rows beyond the
    width of the first are not counted.  On a grid without rows it raises
    IndexError unless all eight positions have a negative [x], in which case
    it returns 0. *)
Theorem count_neighbours_takes_the_width_of_the_first_row h grid G p :
  deref h grid = Some G →
  (∀ row0 G',
     G = row0 :: G' →
     (Exists (λ q, inside (length G) (length row0) q = true ∧ cell_at G q = None)
        (neighbours p) →
      (count_neighbours grid p h).1 = Raise IndexError) ∧
     (Forall (λ q, inside (length G) (length row0) q = true → is_Some (cell_at G q))
        (neighbours p) →
      (count_neighbours grid p h).1
      = Ok (Z.of_nat
              (length (filter (λ q, inside (length G) (length row0) q = true ∧
                                    cell_at G q = Some ALIVE)
                         (neighbours p)))))) ∧
  (G = [] →
   (count_neighbours grid p h).1
   = if pt_x p <? -1 then Ok 0 else Raise IndexError).
Proof.
  intros Hd. apply deref_grid_at in Hd as [rs Hg].
  pose proof (grid_at_fresh h rs G (grid_objs h) (proj2 Hg) eq_refl) as Hg1.
  set (h1 := Heap (row_objs h) (grid_objs h ++ [rs])) in *.
  assert (count_neighbours grid p h
          = for_fold (neighbours p)
              (λ alive_neighbours neighbour,
                 let! v := valid_loc (length (grid_objs h)) neighbour in
                 if v then
                   let! c := getitem2 (length (grid_objs h))
                               (pt_y neighbour) (pt_x neighbour) in
                   if String.eqb c ALIVE then ret (alive_neighbours + 1)
                   else ret alive_neighbours
                 else ret alive_neighbours) 0 h1) as ->.
  { unfold count_neighbours. erewrite bind_ok; [done|]. by apply copy_at, Hg. }
  split.
  - intros row0 G' EG. split.
    + intros Hbad.
      erewrite (for_fold_raises _ _
                  (λ n q, if bool_decide (inside (length G) (length row0) q = true ∧
                                          cell_at G q = Some ALIVE)
                          then n + 1 else n)
                  (λ q, inside (length G) (length row0) q = true ∧ cell_at G q = None));
        [done| | |done].
      * intros n q _ Hq. rewrite (count_step_any h1 _ rs G row0 G' n q Hg1 EG).
        destruct (inside (length G) (length row0) q) eqn:Hin.
        -- destruct (cell_at G q) as [c|] eqn:Hc; [|by destruct Hq].
           destruct (String.eqb_spec c ALIVE) as [->|Hne].
           ++ by rewrite bool_decide_true.
           ++ rewrite bool_decide_false; [done|]. intros [_ ?]. congruence.
        -- rewrite bool_decide_false; [done|]. by intros [? _].
      * intros n q _ [Hin Hc].
        by rewrite (count_step_any h1 _ rs G row0 G' n q Hg1 EG), Hin, Hc.
    + intros Hgood.
      erewrite (for_fold_pure _ _
                  (λ n q, if bool_decide (inside (length G) (length row0) q = true ∧
                                          cell_at G q = Some ALIVE)
                          then n + 1 else n)).
      * by rewrite count_foldl.
      * intros n q Hq. rewrite (count_step_any h1 _ rs G row0 G' n q Hg1 EG).
        rewrite Forall_forall in Hgood. specialize (Hgood q Hq).
        destruct (inside (length G) (length row0) q) eqn:Hin.
        -- destruct Hgood as [c Hc]; [done|]. rewrite Hc.
           destruct (String.eqb_spec c ALIVE) as [->|Hne].
           ++ by rewrite bool_decide_true.
           ++ rewrite bool_decide_false; [done|]. intros [_ ?]. congruence.
        -- rewrite bool_decide_false; [done|]. by intros [? _].
  - intros ->. destruct Hg1 as [Hrs1 HF]. apply Forall2_nil_inv_r in HF as ->.
    assert (∀ n q,
              (let! v := valid_loc (length (grid_objs h)) q in
               if v then
                 let! c := getitem2 (length (grid_objs h)) (pt_y q) (pt_x q) in
                 if String.eqb c ALIVE then ret (n + 1) else ret n
               else ret n) h1
              = if 0 <=? pt_x q then (Raise IndexError, h1) else (Ok n, h1))
      as Hstep.
    { intros n q. unfold valid_loc.
      destruct (0 <=? pt_x q); [|done].
      unfold bind at 1 2 3. unfold load_grid. by rewrite Hrs1. }
    destruct (Z.ltb_spec (pt_x p) (-1)) as [Hx|Hx].
    + erewrite (for_fold_pure _ _ (λ n _, n)); cycle 1.
      { intros n q Hq. rewrite Hstep.
        destruct (Z.leb_spec 0 (pt_x q)) as [Hq0|]; [|done].
        unfold neighbours in Hq. rewrite !elem_of_cons, elem_of_nil in Hq.
        destruct Hq as [->|[->|[->|[->|[->|[->|[->|[->|[]]]]]]]]]; simpl in Hq0; lia. }
      done.
    + erewrite (for_fold_raises _ _ (λ n _, n) (λ q, 0 ≤ pt_x q)); [done| | |].
      * intros n q _ Hq. rewrite Hstep. by destruct (Z.leb_spec 0 (pt_x q)).
      * intros n q _ Hq. rewrite Hstep. destruct (Z.leb_spec 0 (pt_x q)); [done|lia].
      * unfold neighbours. apply Exists_cons_tl, Exists_cons_hd. simpl. lia.
Qed.

Lemma count_neighbours_takes_the_width_of_the_first_row_witness :
  (count_neighbours 0%nat (mkPoint 0 0)
     (Heap [["-"; "*"]; ["*"]; ["-"; "-"; "*"]] [[0; 1; 2]%nat])).1
  = Raise IndexError ∧
  (count_neighbours 0%nat (mkPoint 1 1)
     (Heap [["-"; "-"]; ["-"; "-"; "*"]; ["*"; "-"; "*"]] [[0; 1; 2]%nat])).1
  = Ok 1.
Proof.
  split.
  - destruct (count_neighbours_takes_the_width_of_the_first_row
                (Heap [["-"; "*"]; ["*"]; ["-"; "-"; "*"]] [[0; 1; 2]%nat]) 0%nat
                [["-"; "*"]; ["*"]; ["-"; "-"; "*"]] (mkPoint 0 0) eq_refl)
      as [Hrows _].
    destruct (Hrows _ _ eq_refl) as [Hraise _]. apply Hraise.
    apply (bool_decide_unpack _). by vm_compute.
  - destruct (count_neighbours_takes_the_width_of_the_first_row
                (Heap [["-"; "-"]; ["-"; "-"; "*"]; ["*"; "-"; "*"]] [[0; 1; 2]%nat])
                0%nat [["-"; "-"]; ["-"; "-"; "*"]; ["*"; "-"; "*"]] (mkPoint 1 1)
                eq_refl)
      as [Hrows _].
    destruct (Hrows _ _ eq_refl) as [_ Hcount]. rewrite Hcount; [by vm_compute|].
    apply (bool_decide_unpack _). by vm_compute.
Defined.

(** With a second row of one cell, the neighbour to the lower right of the
    first cell lies beyond its row. *)
Example count_neighbours_beyond_a_short_row :
  (count_neighbours 0%nat (mkPoint 0 0)
     (Heap [["-"; "*"]; ["*"]; ["-"; "-"; "*"]] [[0; 1; 2]%nat])).1
  = Raise IndexError.
Proof. vm_compute. reflexivity. Qed.


(** ** get_next_iteration on a grid of other dimensions than the game's *)

Lemma for_each_range_raises {St} (n m : nat) (body : Z → M unit)
    (R : St → heap → Prop) (f : St → nat → St) e :
  (m < n)%nat →
  (∀ s i h, (i < m)%nat → R s h →
            ∃ h', body (Z.of_nat i) h = (Ok tt, h') ∧ R (f s i) h') →
  (∀ s h, R s h → ∃ h', body (Z.of_nat m) h = (Raise e, h')) →
  ∀ s h, R s h → ∃ h', for_each (range n) body h = (Raise e, h').
Proof.
  intros Hm Hok Hbad. unfold range.
  assert (∀ d j s h, (j + d = m)%nat → R s h →
            ∃ h', for_each (map Z.of_nat (seq j (n - j))) body h = (Raise e, h'))
    as Hgen.
  { induction d as [|d IH]; intros j s h Hj HR.
    - replace (n - j)%nat with (S (n - S j)) by lia. simpl.
      destruct (Hbad s h HR) as (h' & E). exists h'.
      replace j with m by lia. by erewrite bind_raise.
    - replace (n - j)%nat with (S (n - S j)) by lia. simpl.
      destruct (Hok s j h) as (h1 & E1 & HR1); [lia|done|].
      destruct (IH (S j) (f s j) h1) as (h2 & E2); [lia|done|].
      exists h2. by erewrite bind_ok. }
  intros s h HR. destruct (Hgen m 0%nat s h) as (h' & E); [lia|done|].
  exists h'. by rewrite Nat.sub_0_r in E.
Qed.

Lemma getitem2_no_row h g rs G (y x : Z) :
  grid_at h g rs G → Z.of_nat (length G) ≤ y →
  getitem2 g y x h = (Raise IndexError, h).
Proof.
  intros Hg Hy. unfold getitem2.
  erewrite bind_ok; [|unfold load_grid; by rewrite (proj1 Hg)].
  erewrite bind_raise; [done|].
  unfold lift, getitem, py_index.
  rewrite (Forall2_length _ _ _ (proj2 Hg)).
  destruct (Z.ltb_spec y 0); [lia|].
  destruct (Z.leb_spec 0 y); [|lia].
  destruct (Z.ltb_spec y (Z.of_nat (length G))); [lia|done].
Qed.

Lemma write_row_lookup_ge G cols y row (x : nat) :
  (cols ≤ x)%nat → write_row G cols y row !! x = row !! x.
Proof.
  induction cols as [|c IH]; intros Hx; [done|].
  unfold write_row. rewrite seq_S, foldl_snoc. simpl. fold (write_row G c y row).
  rewrite list_lookup_insert_ne by lia. apply IH. lia.
Qed.

Lemma write_rows_lookup_ge G rows cols N (y : nat) :
  (rows ≤ y)%nat → write_rows G rows cols N !! y = N !! y.
Proof.
  unfold write_rows. induction rows as [|r IH]; intros Hy; [done|].
  rewrite seq_S, foldl_snoc. simpl.
  rewrite list_lookup_alter_ne by lia. apply IH. lia.
Qed.

(** A step on the part of a grid that lies within [n_rows] rows and [n_cols]
    columns: the cells of that part follow the rules, with the neighbours
    counted in the whole grid, and the others stay. *)
Lemma write_rows_part G rows cols n_rows n_cols p c :
  rectangular G rows cols → (n_rows ≤ rows)%nat → (n_cols ≤ cols)%nat →
  cell_at G p = Some c →
  cell_at (write_rows G n_rows n_cols G) p
  = Some (if inside n_rows n_cols p
          then next_cell c (Z.of_nat (length (alive_around G p)))
          else c).
Proof.
  intros Hrect Hr Hc Hp.
  assert (inside rows cols p = true) as Hin.
  { apply (inside_cell_at G); [done|eauto]. }
  unfold inside in *.
  rewrite !andb_true_iff, !Z.leb_le, !Z.ltb_lt in Hin.
  destruct p as [x y]. simpl in *.
  pose proof Hp as Hp'. unfold cell_at in Hp |- *. simpl in *.
  destruct (Z.leb_spec 0 x); [|lia]. destruct (Z.leb_spec 0 y); [|lia]. simpl in *.
  destruct (G !! Z.to_nat y) as [row|] eqn:Hrow; [|done].
  destruct (Z.ltb_spec y (Z.of_nat n_rows)) as [Hy|Hy]; cycle 1.
  { rewrite andb_false_r. by rewrite write_rows_lookup_ge, Hrow by lia. }
  rewrite write_rows_lookup, Hrow by lia. simpl.
  destruct (Z.ltb_spec x (Z.of_nat n_cols)) as [Hx|Hx]; simpl; cycle 1.
  { by rewrite write_row_lookup_ge by lia. }
  rewrite write_row_lookup; [|lia|by eapply lookup_lt_Some].
  f_equal. unfold new_value. rewrite !Z2Nat.id by lia. by rewrite Hp'.
Qed.

Section other_dimensions.

Context (h0 : heap) (rs : list row_ref) (G : list (list cell)).
Context (rows cols n_rows n_cols : nat).
Hypothesis Hrows : Forall2 (λ r cs, row_objs h0 !! r = Some cs) rs G.
Hypothesis Hrect : rectangular G rows cols.

Let newrs := seq (length (row_objs h0)) rows.
Let prev_iter := length (grid_objs h0).
Let next_iter := S (length (grid_objs h0)).

Let cell_body (y x : Z) : M unit :=
  let! living_neighbours := count_neighbours prev_iter (mkPoint x y) in
  let! c := getitem2 prev_iter y x in
  if String.eqb c ALIVE && ((living_neighbours =? 2) || (living_neighbours =? 3))
  then setitem2 next_iter y x ALIVE
  else
    let! c := getitem2 prev_iter y x in
    if String.eqb c DEAD && (living_neighbours =? 3)
    then setitem2 next_iter y x ALIVE
    else setitem2 next_iter y x DEAD.

Let row_body (y : Z) : M unit := for_each (range n_cols) (cell_body y).

Let at_loop (N : list (list cell)) (h : heap) : Prop :=
  (∃ k, h = loop_heap h0 rs newrs N k) ∧ rectangular N rows cols.

Lemma row_body_within N h (y : nat) :
  (n_cols ≤ cols)%nat → (y < rows)%nat → at_loop N h →
  ∃ h', row_body (Z.of_nat y) h = (Ok tt, h') ∧
        at_loop (alter (write_row G n_cols y) y N) h'.
Proof.
  intros Hc Hy HN.
  destruct (for_each_range n_cols (cell_body (Z.of_nat y)) at_loop
              (λ N x, alter (λ row, <[x := new_value G y x]> row) y N))
    with N h as (h' & E & HN'); [|done|].
  - intros N1 x h1 Hx [[k1 ->] [HN1 HN1c]].
    eexists. split.
    { apply (loop_body h0 rs G rows cols Hrows Hrect); [done|done|done|lia]. }
    split; [by eexists|]. split; [by rewrite length_alter|].
    apply Forall_alter; [done|]. intros row _ Hrow. by rewrite length_insert.
  - exists h'. split; [done|]. by rewrite foldl_alter_row in HN'.
Qed.

Lemma rows_within N h :
  (n_rows ≤ rows)%nat → (n_cols ≤ cols)%nat → at_loop N h →
  ∃ h', for_each (range n_rows) row_body h = (Ok tt, h') ∧
        at_loop (write_rows G n_rows n_cols N) h'.
Proof.
  intros Hr Hc HN.
  apply (for_each_range n_rows row_body at_loop
           (λ N y, alter (write_row G n_cols y) y N)); [|done].
  intros N1 y h1 Hy HN1. apply row_body_within; [done|lia|done].
Qed.

Lemma cell_body_outside N h (y x : nat) :
  (1 ≤ rows)%nat → (rows ≤ y)%nat ∨ (cols ≤ x)%nat → at_loop N h →
  ∃ h', cell_body (Z.of_nat y) (Z.of_nat x) h = (Raise IndexError, h').
Proof.
  intros H1 Hout [[k ->] _]. unfold cell_body.
  erewrite bind_ok; [|by apply (loop_count h0 rs G rows cols Hrows Hrect)].
  pose proof (loop_prev_at h0 rs G rows Hrows N (S k)) as Hprev.
  eexists. erewrite bind_raise; [done|].
  destruct (decide (rows ≤ y)%nat) as [Hy|Hy].
  - apply (getitem2_no_row _ _ rs G); [done|]. rewrite (proj1 Hrect). lia.
  - apply (getitem2_beyond _ _ rs G (mkPoint (Z.of_nat x) (Z.of_nat y)));
      [done|simpl; lia|simpl; rewrite (proj1 Hrect); lia|].
    unfold cell_at. simpl.
    destruct (Z.leb_spec 0 (Z.of_nat x)); [|lia].
    destruct (Z.leb_spec 0 (Z.of_nat y)); [|lia]. simpl.
    rewrite !Nat2Z.id.
    destruct (G !! y) as [row|] eqn:Hrow; [|done].
    apply lookup_ge_None.
    rewrite (Forall_lookup_1 _ _ _ _ (proj2 Hrect) Hrow). lia.
Qed.

Lemma row_body_outside N h (y : nat) :
  (1 ≤ rows)%nat → (1 ≤ n_cols)%nat →
  (rows ≤ y)%nat ∨ (y < rows ∧ cols < n_cols)%nat → at_loop N h →
  ∃ h', row_body (Z.of_nat y) h = (Raise IndexError, h').
Proof.
  intros H1 HC [Hy|[Hy Hc]] HN.
  - apply (for_each_range_raises n_cols 0 (cell_body (Z.of_nat y)) at_loop
             (λ N _, N) IndexError) with N; [lia| |intros N1 h1 HN1|done].
    + intros ? i ? Hi. lia.
    + apply (cell_body_outside N1); [done|by left|done].
  - apply (for_each_range_raises n_cols cols (cell_body (Z.of_nat y)) at_loop
             (λ N x, alter (λ row, <[x := new_value G y x]> row) y N) IndexError)
      with N; [lia| |intros N1 h1 HN1|done].
    + intros N1 x h1 Hx [[k1 ->] [HN1 HN1c]].
      eexists. split.
      { by apply (loop_body h0 rs G rows cols Hrows Hrect). }
      split; [by eexists|]. split; [by rewrite length_alter|].
      apply Forall_alter; [done|]. intros row _ Hrow. by rewrite length_insert.
    + apply (cell_body_outside N1); [done|by right|done].
Qed.

Lemma rows_outside N h :
  (1 ≤ rows)%nat → (1 ≤ n_rows)%nat → (1 ≤ n_cols)%nat →
  (rows < n_rows)%nat ∨ (cols < n_cols)%nat → at_loop N h →
  ∃ h', for_each (range n_rows) row_body h = (Raise IndexError, h').
Proof.
  intros H1 HR HC Hout HN.
  destruct (decide (cols < n_cols)%nat) as [Hc|Hc].
  - apply (for_each_range_raises n_rows 0 row_body at_loop (λ N _, N) IndexError)
      with N; [lia| |intros N1 h1 HN1|done].
    + intros ? i ? Hi. lia.
    + apply (row_body_outside N1); [done|done|right; lia|done].
  - apply (for_each_range_raises n_rows rows row_body at_loop
             (λ N y, alter (write_row G n_cols y) y N) IndexError)
      with N; [lia| |intros N1 h1 HN1|done].
    + intros N1 y h1 Hy HN1. apply row_body_within; [lia|done|done].
    + apply (row_body_outside N1); [done|done|by left|done].
Qed.

End other_dimensions.

(** X16 (other dimensions): [get_next_iteration] takes the bounds of its
    loops from the grid of the game, not from the grid it is given.  On a
    well-formed grid that is at least as large as the game's, it returns a
    new grid of the size of its argument in which the cells within the
    game's dimensions follow the rules (their neighbours counted in the
    whole argument) and all other cells are copied.  On a well-formed grid
    with fewer rows or fewer columns than the game's it raises IndexError. *)
Theorem get_next_iteration_uses_the_bounds_of_the_game self h grid G rows cols :
  proper h grid rows cols → deref h grid = Some G →
  ((_rows (_grid self) ≤ rows)%nat → (_cols (_grid self) ≤ cols)%nat →
   ∃ next h' G',
     get_next_iteration self grid h = (Ok next, h') ∧
     deref h' next = Some G' ∧
     rectangular G' rows cols ∧
     ∀ p c n,
       cell_at G p = Some c → living_neighbours G p n →
       cell_at G' p
       = Some (if inside (_rows (_grid self)) (_cols (_grid self)) p
               then next_cell c n else c)) ∧
  ((1 ≤ rows)%nat → (1 ≤ _rows (_grid self))%nat → (1 ≤ _cols (_grid self))%nat →
   (rows < _rows (_grid self))%nat ∨ (cols < _cols (_grid self))%nat →
   (get_next_iteration self grid h).1 = Raise IndexError).
Proof.
  intros (rs & G0 & Hg & Hnd & Hrect) Hd.
  assert (G0 = G) as ->.
  { assert (deref h grid = Some G0) as E by (apply deref_grid_at; eauto).
    congruence. }
  set (n_rows := _rows (_grid self)). set (n_cols := _cols (_grid self)).
  set (newrs := seq (length (row_objs h)) rows).
  assert (get_next_iteration self grid h
          = (for_each (range n_rows) (λ y,
               for_each (range n_cols) (λ x,
                 let! living_neighbours :=
                   count_neighbours (length (grid_objs h)) (mkPoint x y) in
                 let! c := getitem2 (length (grid_objs h)) y x in
                 if String.eqb c ALIVE
                    && ((living_neighbours =? 2) || (living_neighbours =? 3))
                 then setitem2 (S (length (grid_objs h))) y x ALIVE
                 else
                   let! c := getitem2 (length (grid_objs h)) y x in
                   if String.eqb c DEAD && (living_neighbours =? 3)
                   then setitem2 (S (length (grid_objs h))) y x ALIVE
                   else setitem2 (S (length (grid_objs h))) y x DEAD)) ;;
             ret (S (length (grid_objs h))))
              (loop_heap h rs newrs G 0)) as ->.
  { unfold get_next_iteration. fold n_rows n_cols.
    erewrite bind_ok; [|apply copy_at, Hg].
    erewrite bind_ok; cycle 1.
    { apply (deepcopy_at _ _ rs G); [|done].
      apply grid_at_fresh; [apply Hg|done]. }
    simpl. rewrite length_app. simpl. rewrite Nat.add_1_r.
    unfold loop_heap, newrs. simpl. rewrite <- app_assoc. simpl.
    by rewrite (proj1 Hrect). }
  assert ((∃ k, loop_heap h rs newrs G 0 = loop_heap h rs newrs G k) ∧
          rectangular G rows cols) as Hstart.
  { split; [by exists 0%nat|done]. }
  split.
  - intros Hr Hc.
    destruct (rows_within h rs G rows cols n_rows n_cols (proj2 Hg) Hrect
                G _ Hr Hc Hstart) as (h' & E & [k ->] & Hrect').
    eexists _, _, _. split; [by erewrite bind_ok|].
    split_and!; [|done|].
    + apply deref_grid_at. eexists.
      unfold newrs. rewrite <- (proj1 Hrect'). apply loop_heap_next_at.
    + intros p c n Hc' Hn.
      rewrite (living_neighbours_unique G p n _ Hn (neighbours_living G p)).
      by apply (write_rows_part G rows cols).
  - intros H1 HR HC Hout.
    destruct (rows_outside h rs G rows cols n_rows n_cols (proj2 Hg) Hrect
                G _ H1 HR HC Hout Hstart) as (h' & E).
    by erewrite bind_raise.
Qed.

Lemma get_next_iteration_uses_the_bounds_of_the_game_witness :
  (∃ next h' G',
     get_next_iteration (ConwaysGameOfLife_init test_grid) 0%nat block_heap
     = (Ok next, h') ∧
     deref h' next = Some G' ∧
     rectangular G' 4 4 ∧
     ∀ p c n,
       cell_at block_rows p = Some c → living_neighbours block_rows p n →
       cell_at G' p
       = Some (if inside (_rows (_grid (ConwaysGameOfLife_init test_grid)))
                    (_cols (_grid (ConwaysGameOfLife_init test_grid))) p
               then next_cell c n else c)) ∧
  (get_next_iteration (ConwaysGameOfLife_init block_grid) 0%nat test_heap).1
  = Raise IndexError.
Proof.
  split.
  - apply (get_next_iteration_uses_the_bounds_of_the_game
             (ConwaysGameOfLife_init test_grid) block_heap 0%nat block_rows 4 4
             block_heap_proper eq_refl); simpl; lia.
  - apply (get_next_iteration_uses_the_bounds_of_the_game
             (ConwaysGameOfLife_init block_grid) test_heap 0%nat test_rows 3 3
             test_heap_proper eq_refl); simpl; lia.
Defined.
